(** * sound-reader: timeline compositor and audio mixdown

    A shallow embedding of the timing, normalisation and WAV-encoding code of
    the three call sites of the repository:

    - [Page]     the book-narration page   (mixAudio, audioBufferToWav)
    - [Upload]   the screenplay page       (app/upload/page.tsx, mixAudio)
    - [Generate] the screenplay API route  (app/api/generate/route.ts,
                 lineStartTimes, sceneStartTimes, pcmToWav)

    and of the code around them:

    - [Casting]     the voice-casting loop of the screenplay and book routes
    - [Timeline]    step 5 of the screenplay route, from script to scene times
    - [TimelineV1]  the same step in the earlier version of that route
    - [Lyria]       the music request and the stream collector
    - [Pool]        runWithConcurrency
    - [Player]      current scene, seeking and scene ends on the page
    - [TimeHelpers] toSRT and formatTime
    - [VoicePool]   buildVoiceMap of the first audiobook route
    - [BookRoute]   segment timings and effects of the book route

    JavaScript numbers that carry times, gains and samples are modelled as
    exact rationals ([Q], compared with [==]); integers that end up in the
    binary container are [Z] with the wrap-around of the DataView setters
    written out.  Arrays are lists, [a[i]] is the partial lookup [a !! i] and
    [x ?? d] is [default d x].  A promise that rejects, a constructor that
    throws and a number that is not finite are [None].  A loop that need not
    end takes a bound on its iterations and returns [None] while it is still
    running; events that arrive in any order are a list that the model
    folds over.

    The embedding comes first, each part followed by the notions and the
    example data used to state its properties; the proofs come last. *)

From Stdlib Require Import ZArith QArith Qround Qminmax Qabs Lqa Lia.
From Stdlib Require Import String Ascii.
From stdpp Require Import base option list strings gmap pretty.

Local Open Scope Z_scope.

(** ** JavaScript control flow and numbers *)

(** [for (let i = 0; i < n; i++) s = body(i, s)] *)
Definition for_range {S : Type} (n : nat) (body : nat -> S -> S) (s : S) : S :=
  foldl (fun s i => body i s) s (seq 0 n).

(** [arr[i]] for an index that arrives as a JSON number: a negative index
    reads [undefined]. *)
Definition arr_get {A : Type} (arr : list A) (i : Z) : option A :=
  if i <? 0 then None else arr !! Z.to_nat i.

(** Truncation toward zero, the integer part taken by the typed setters. *)
Definition Qtrunc (x : Q) : Z :=
  if Qle_bool 0 x then Qfloor x else Qceiling x.

Definition Qltb (x y : Q) : bool := negb (Qle_bool y x).

(** [forall2 Qeq]: equality of two arrays of numbers. *)
Definition Qlist_eq (xs ys : list Q) : Prop := Forall2 Qeq xs ys.

#[export] Instance Qeq_decision (x y : Q) : Decision (x == y)%Q := Qeq_dec x y.

#[export] Instance Qlist_eq_decision (xs ys : list Q) :
  Decision (Qlist_eq xs ys).
Proof. unfold Qlist_eq. apply _. Defined.

(** ** Web Audio buffers *)

Module WebAudio.

(** An [AudioBuffer]: [channelData] holds one sample array per channel. *)
Record AudioBuffer : Type := mkAudioBuffer {
  numberOfChannels : nat;
  sampleRate : positive;
  length : nat;
  channelData : list (list Q)
}.

(** [buf.duration] is [length / sampleRate] seconds. *)
Definition duration (buf : AudioBuffer) : Q :=
  Z.of_nat (length buf) # sampleRate buf.

(** [buf.getChannelData(ch)] *)
Definition getChannelData (buf : AudioBuffer) (ch : nat) : list Q :=
  default [] (channelData buf !! ch).

(** [ctx.createBuffer(numberOfChannels, length, sampleRate)]: silence. *)
Definition createBuffer (numCh len : nat) (sr : positive) : AudioBuffer :=
  {| numberOfChannels := numCh; sampleRate := sr; length := len;
     channelData := replicate numCh (replicate len 0%Q) |}.

End WebAudio.

Import WebAudio.

(** ** DataView over a zero-filled ArrayBuffer *)

Module DataView.

(** The bytes of the underlying buffer, each in [0, 256). *)
Abbreviation t := (list Z).

(** [new ArrayBuffer(n)] *)
Definition alloc (n : nat) : t := replicate n 0.

Definition setUint8 (v : t) (off : nat) (x : Z) : t :=
  <[off := x mod 256]> v.

(** [v.setUint16(off, x, true)]: modulo 2^16, little-endian. *)
Definition setUint16 (v : t) (off : nat) (x : Z) : t :=
  let x := x mod 65536 in
  setUint8 (setUint8 v off x) (off + 1) (x / 256).

(** [v.setUint32(off, x, true)]: modulo 2^32, little-endian. *)
Definition setUint32 (v : t) (off : nat) (x : Z) : t :=
  let x := x mod 4294967296 in
  setUint8 (setUint8 (setUint8 (setUint8 v off x)
    (off + 1) (x / 256)) (off + 2) (x / 65536)) (off + 3) (x / 16777216).

(** [v.setInt16(off, x, true)] for a number [x]: the integer part of [x]
    modulo 2^16, in two's complement; [NaN] ([None]) is written as 0. *)
Definition setInt16 (v : t) (off : nat) (x : option Q) : t :=
  setUint16 v off (from_option Qtrunc 0 x).

(** Little-endian readers, used to state what a header field holds. *)
Definition getUint8 (v : t) (off : nat) : Z := default 0 (v !! off).

Definition getUint16 (v : t) (off : nat) : Z :=
  getUint8 v off + 256 * getUint8 v (off + 1).

Definition getUint32 (v : t) (off : nat) : Z :=
  getUint8 v off + 256 * getUint8 v (off + 1)
  + 65536 * getUint8 v (off + 2) + 16777216 * getUint8 v (off + 3).

Definition getInt16 (v : t) (off : nat) : Z :=
  let u := getUint16 v off in if u <? 32768 then u else u - 65536.

(** [String.fromCharCode] over a range of bytes. *)
Definition getString (v : t) (off len : nat) : list Z := take len (drop off v).

End DataView.

Import DataView.

(** ** The WAV encoder of the pages *)

Module Wav.

Definition charCodeAt (str : string) (i : nat) : Z :=
  from_option (fun c => Z.of_N (N_of_ascii c)) 0
    (list_ascii_of_string str !! i).

Definition writeString (view : DataView.t) (offset : nat) (str : string)
    : DataView.t :=
  for_range (String.length str)
    (fun i view => setUint8 view (offset + i) (charCodeAt str i)) view.

(** [Math.max(-1, Math.min(1, x))].  A sample is a 32-bit float, so its
    products with 32767 and 32768 below are exact in doubles as they are
    here. *)
Definition clamp (x : Q) : Q := Qmax (-1) (Qmin 1 x).

(** [s < 0 ? s * 32768 : s * 32767] *)
Definition scale (s : Q) : Q :=
  if Qltb s 0 then (s * 32768)%Q else (s * 32767)%Q.

(** The inner loop body of the encoder. *)
Definition writeSample (buf : AudioBuffer) (f ch : nat)
    (st : nat * DataView.t) : nat * DataView.t :=
  let '(off, v) := st in
  let s := clamp <$> (getChannelData buf ch !! f) in
  ((off + 2)%nat, setInt16 v off (scale <$> s)).

Definition audioBufferToWav (buf : AudioBuffer) : DataView.t :=
  let numCh := numberOfChannels buf in
  let sr := Z.pos (sampleRate buf) in
  let len := WebAudio.length buf in
  let dataSize := (len * numCh * 2)%nat in
  let v := DataView.alloc (44 + dataSize) in
  let v := writeString v 0 "RIFF" in
  let v := setUint32 v 4 (36 + Z.of_nat dataSize) in
  let v := writeString v 8 "WAVE" in
  let v := writeString v 12 "fmt " in
  let v := setUint32 v 16 16 in
  let v := setUint16 v 20 1 in
  let v := setUint16 v 22 (Z.of_nat numCh) in
  let v := setUint32 v 24 sr in
  let v := setUint32 v 28 (sr * Z.of_nat numCh * 2) in
  let v := setUint16 v 32 (Z.of_nat numCh * 2) in
  let v := setUint16 v 34 16 in
  let v := writeString v 36 "data" in
  let v := setUint32 v 40 (Z.of_nat dataSize) in
  snd (for_range len (fun f st =>
         for_range numCh (fun ch st => writeSample buf f ch st) st)
       (44%nat, v)).

End Wav.

(** ** Offline rendering *)

Module Offline.

(** A source node started on the context: [src.start(when)], through a gain
    node when there is one.  A gain of [None] stands for a value that is not
    a finite number. *)
Record Source : Type := mkSource {
  src_buffer : AudioBuffer;
  src_gain : option Q;
  src_when : Q
}.

(** An [OfflineAudioContext] with the sources scheduled on it.  Rendering
    itself (summing the sources into the output) is the browser's; the
    rendered buffer has the context's channel count, length and rate. *)
Record OfflineAudioContext : Type := mkContext {
  ctx_numberOfChannels : nat;
  ctx_length : Z;
  ctx_sampleRate : positive;
  ctx_sources : list Source
}.

(** [new OfflineAudioContext(numberOfChannels, length, sampleRate)] throws
    NotSupportedError ([None]) when the channel count or the length is zero. *)
Definition create (numCh : nat) (len : Z) (sr : positive)
    : option OfflineAudioContext :=
  if bool_decide ((0 < numCh)%nat /\ 0 < len)
  then Some (mkContext numCh len sr [])
  else None.

Definition start (src : Source) (ctx : OfflineAudioContext)
    : OfflineAudioContext :=
  mkContext (ctx_numberOfChannels ctx) (ctx_length ctx) (ctx_sampleRate ctx)
    (ctx_sources ctx ++ [src]).

End Offline.

(** ** The cadence loop shared by the three call sites

    [[
      let cursor = 0;
      for (let i = 0; i < n; i++) {
        if (i > 0) { cursor = gapBefore(i, cursor); }
        startTimes.push(cursor);
        cursor += durationOf(i);
      }
    ]] *)
Definition cadence (n : nat) (gapBefore : nat -> Q -> Q)
    (durationOf : nat -> Q) : list Q * Q :=
  for_range n (fun i '(startTimes, cursor) =>
    let cursor := if (0 <? i)%nat then gapBefore i cursor else cursor in
    (startTimes ++ [cursor], (cursor + durationOf i)%Q)) ([], 0%Q).

(** The value pushed by iteration [i]. *)
Definition startAt (gapBefore : nat -> Q -> Q) (durationOf : nat -> Q)
    (i : nat) : Q :=
  let cursor := snd (cadence i gapBefore durationOf) in
  if (0 <? i)%nat then gapBefore i cursor else cursor.

(** [a / b] on numbers: a zero divisor gives Infinity or NaN ([None]). *)
Definition js_div (a b : Q) : option Q :=
  if Qeq_bool b 0 then None else Some (a / b)%Q.

(** The peak search and gain of the effect normaliser (the same text in both
    pages). *)
Definition TARGET_PEAK : Q := 0.6.

Definition peakOf (buffer : AudioBuffer) : Q :=
  for_range (numberOfChannels buffer) (fun ch peak =>
    let data := getChannelData buffer ch in
    for_range (List.length data) (fun s peak =>
      let abs := Qabs (default 0%Q (data !! s)) in
      if Qltb peak abs then abs else peak) peak) 0%Q.

Definition gainValue (buffer : AudioBuffer) : option Q :=
  let peak := peakOf buffer in
  if Qltb 0 peak then js_div TARGET_PEAK peak else Some TARGET_PEAK.

(** A decoded overlay with its resolved start time. *)
Record Decoded : Type := mkDecoded {
  buffer : AudioBuffer;
  startTime : Q
}.

(** [list.reduce((m, { buffer, startTime }) =>
       Math.max(m, startTime + buffer.duration), 0)] *)
Definition latestEnd (decoded : list Decoded) : Q :=
  foldl (fun m d => Qmax m (startTime d + duration (buffer d))) 0%Q decoded.

(** ** The book-narration page *)

Module Page.

Inductive SegmentType : Type := narration | dialogue.

#[export] Instance SegmentType_eq_dec : EqDecision SegmentType.
Proof. solve_decision. Defined.

Record Segment : Type := mkSegment {
  type : SegmentType;
  text : string;
  speaker : option string
}.

Module SfxItem.
Record t : Type := mk {
  segmentIndex : Z;
  prompt : string;
  startTime : Q;
  audioBase64 : string
}.
End SfxItem.

Definition GAP_NAR_TO_DLG : Q := 0.22.
Definition GAP_DLG_TO_NAR : Q := 0.18.
Definition GAP_DLG_TO_DLG : Q := 0.12.

Section MixAudio.

(** [decodeB64Audio] resolves to the decoded buffer or rejects ([None]). *)
Variable decodeB64Audio : string -> option AudioBuffer.

Definition decodeSegments (segmentsAudio : list string) : list AudioBuffer :=
  (fun b64 =>
     match decodeB64Audio b64 with
     | Some buf => buf
     | None => createBuffer 1 1 44100
     end) <$> segmentsAudio.

(** The cursor update of the [i > 0] branch. *)
Definition gapBefore (segments : list Segment) (i : nat) (cursor : Q) : Q :=
  match segments !! (i - 1)%nat, segments !! i with
  | Some prev, Some curr =>
      if bool_decide (type prev = narration /\ type curr = dialogue)
      then (cursor + GAP_NAR_TO_DLG)%Q
      else if bool_decide (type prev = dialogue /\ type curr = narration)
      then (cursor + GAP_DLG_TO_NAR)%Q
      else if bool_decide (type prev = dialogue /\ type curr = dialogue)
      then (cursor + GAP_DLG_TO_DLG)%Q
      else cursor
  | _, _ => cursor
  end.

(** [segBuffers[i]?.duration ?? 0] *)
Definition durationOf (segBuffers : list AudioBuffer) (i : nat) : Q :=
  default 0%Q (duration <$> segBuffers !! i).

(** The pair [(startTimes, cursor)] after the cadence loop. *)
Definition schedule (segments : list Segment) (segBuffers : list AudioBuffer)
    : list Q * Q :=
  cadence (List.length segments) (gapBefore segments) (durationOf segBuffers).

Definition decodeSfx (startTimes : list Q) (sfxList : list SfxItem.t)
    : list Decoded :=
  omap (fun sfx =>
          match decodeB64Audio (SfxItem.audioBase64 sfx) with
          | Some buf =>
              Some (mkDecoded buf
                      (default (SfxItem.startTime sfx)
                         (arr_get startTimes (SfxItem.segmentIndex sfx))))
          | None => None
          end) sfxList.

Definition renderSampleRate (segBuffers : list AudioBuffer) : positive :=
  default 44100%positive (sampleRate <$> segBuffers !! 0%nat).

Definition renderChannels (segBuffers : list AudioBuffer) : nat :=
  default 1%nat (numberOfChannels <$> segBuffers !! 0%nat).

Definition totalDuration (cursor : Q) (sfxDecoded : list Decoded) : Q :=
  Qmax cursor (latestEnd sfxDecoded).

(** [Math.ceil(totalDuration * sampleRate)] *)
Definition renderLength (totalDuration : Q) (sampleRate : positive) : Z :=
  Qceiling (totalDuration * inject_Z (Z.pos sampleRate)).

Definition startSegments (segBuffers : list AudioBuffer) (startTimes : list Q)
    (offCtx : Offline.OfflineAudioContext) : Offline.OfflineAudioContext :=
  for_range (List.length segBuffers) (fun i offCtx =>
    match segBuffers !! i with
    | Some buf =>
        Offline.start
          (Offline.mkSource buf (Some 1%Q) (default 0%Q (startTimes !! i)))
          offCtx
    | None => offCtx
    end) offCtx.

Definition startSfx (sfxDecoded : list Decoded)
    (offCtx : Offline.OfflineAudioContext) : Offline.OfflineAudioContext :=
  foldl (fun offCtx d =>
           Offline.start
             (Offline.mkSource (buffer d) (gainValue (buffer d)) (startTime d))
             offCtx) offCtx sfxDecoded.

Definition mixAudio (segmentsAudio : list string) (segments : list Segment)
    (sfxList : list SfxItem.t) : option Offline.OfflineAudioContext :=
  let segBuffers := decodeSegments segmentsAudio in
  let '(startTimes, cursor) := schedule segments segBuffers in
  let sfxDecoded := decodeSfx startTimes sfxList in
  let sampleRate := renderSampleRate segBuffers in
  let numChannels := renderChannels segBuffers in
  let totalDuration := totalDuration cursor sfxDecoded in
  offCtx ← Offline.create numChannels
             (renderLength totalDuration sampleRate) sampleRate;
  Some (startSfx sfxDecoded (startSegments segBuffers startTimes offCtx)).

End MixAudio.

End Page.

(** ** The screenplay script, as both the page and the route declare it *)

Module Script.

Record ScriptDialogueLine : Type := mkLine {
  sceneIndex : Z;
  lineIndex : Z;
  character : string;
  parenthetical : option string;
  text : string
}.

Definition GAP_DLG_TO_DLG : Q := 0.12.
Definition GAP_BETWEEN_SCENES : Q := 0.5.

(** [cursor += prev.sceneIndex !== curr.sceneIndex
                 ? GAP_BETWEEN_SCENES : GAP_DLG_TO_DLG] *)
Definition gapBefore (dialogueLines : list ScriptDialogueLine) (i : nat)
    (cursor : Q) : Q :=
  match dialogueLines !! (i - 1)%nat, dialogueLines !! i with
  | Some prev, Some curr =>
      (cursor + if bool_decide (sceneIndex prev <> sceneIndex curr)
                then GAP_BETWEEN_SCENES else GAP_DLG_TO_DLG)%Q
  | _, _ => cursor
  end.

(** [SfxItem] and [MusicItem] have the same fields. *)
Record OverlayItem : Type := mkOverlay {
  ov_sceneIndex : Z;
  ov_prompt : string;
  ov_startTime : Q;
  ov_audioBase64 : string
}.

End Script.

(** ** The screenplay page (app/upload/page.tsx) *)

Module Upload.
Import Script.

Section MixAudio.

Variable decodeB64Audio : string -> option AudioBuffer.

Definition decodeLines (linesAudio : list string) : list AudioBuffer :=
  (fun b64 =>
     match decodeB64Audio b64 with
     | Some buf => buf
     | None => createBuffer 1 1 44100
     end) <$> linesAudio.

(** [lineBuffers[i]?.duration ?? 0] *)
Definition durationOf (lineBuffers : list AudioBuffer) (i : nat) : Q :=
  default 0%Q (duration <$> lineBuffers !! i).

Definition schedule (dialogueLines : list ScriptDialogueLine)
    (lineBuffers : list AudioBuffer) : list Q * Q :=
  cadence (List.length dialogueLines) (gapBefore dialogueLines)
    (durationOf lineBuffers).

(** The loop that decodes the effects, and the one that decodes the music. *)
Definition decodeOverlays (sceneStartTimes : list Q)
    (items : list OverlayItem) : list Decoded :=
  omap (fun item =>
          match decodeB64Audio (ov_audioBase64 item) with
          | Some buf =>
              Some (mkDecoded buf
                      (default (ov_startTime item)
                         (arr_get sceneStartTimes (ov_sceneIndex item))))
          | None => None
          end) items.

Definition renderSampleRate (lineBuffers : list AudioBuffer) : positive :=
  default 44100%positive (sampleRate <$> lineBuffers !! 0%nat).

Definition renderChannels (lineBuffers : list AudioBuffer) : nat :=
  default 1%nat (numberOfChannels <$> lineBuffers !! 0%nat).

Definition totalDuration (cursor : Q) (sfxDecoded musicDecoded : list Decoded)
    : Q :=
  Qmax (Qmax cursor (latestEnd sfxDecoded)) (latestEnd musicDecoded).

(** [Math.max(1, Math.ceil(totalDuration * sampleRate))] *)
Definition renderLength (totalDuration : Q) (sampleRate : positive) : Z :=
  Z.max 1 (Qceiling (totalDuration * inject_Z (Z.pos sampleRate))).

Definition startLines (lineBuffers : list AudioBuffer) (startTimes : list Q)
    (offCtx : Offline.OfflineAudioContext) : Offline.OfflineAudioContext :=
  for_range (List.length lineBuffers) (fun i offCtx =>
    match lineBuffers !! i with
    | Some buf =>
        Offline.start
          (Offline.mkSource buf (Some 1%Q) (default 0%Q (startTimes !! i)))
          offCtx
    | None => offCtx
    end) offCtx.

Definition startSfx (sfxDecoded : list Decoded)
    (offCtx : Offline.OfflineAudioContext) : Offline.OfflineAudioContext :=
  foldl (fun offCtx d =>
           Offline.start
             (Offline.mkSource (buffer d) (gainValue (buffer d)) (startTime d))
             offCtx) offCtx sfxDecoded.

Definition startMusic (musicDecoded : list Decoded)
    (offCtx : Offline.OfflineAudioContext) : Offline.OfflineAudioContext :=
  foldl (fun offCtx d =>
           Offline.start
             (Offline.mkSource (buffer d) (Some 0.18%Q) (startTime d))
             offCtx) offCtx musicDecoded.

Definition mixAudio (linesAudio : list string)
    (dialogueLines : list ScriptDialogueLine)
    (sfxList musicList : list OverlayItem) (sceneStartTimes : list Q)
    : option Offline.OfflineAudioContext :=
  let lineBuffers := decodeLines linesAudio in
  let '(startTimes, cursor) := schedule dialogueLines lineBuffers in
  let sfxDecoded := decodeOverlays sceneStartTimes sfxList in
  let musicDecoded := decodeOverlays sceneStartTimes musicList in
  let sampleRate := renderSampleRate lineBuffers in
  let numChannels := renderChannels lineBuffers in
  let totalDuration := totalDuration cursor sfxDecoded musicDecoded in
  offCtx ← Offline.create numChannels
             (renderLength totalDuration sampleRate) sampleRate;
  Some (startMusic musicDecoded
          (startSfx sfxDecoded (startLines lineBuffers startTimes offCtx))).

End MixAudio.

End Upload.

(** ** The screenplay route (app/api/generate/route.ts) *)

Module Generate.
Import Script.

(** [lineDurations[i] ?? 0] *)
Definition durationOf (lineDurations : list Q) (i : nat) : Q :=
  default 0%Q (lineDurations !! i).

(** The pair [(lineStartTimes, cursor)] of step 5. *)
Definition lineSchedule (dialogueLines : list ScriptDialogueLine)
    (lineDurations : list Q) : list Q * Q :=
  cadence (List.length dialogueLines) (gapBefore dialogueLines)
    (durationOf lineDurations).

(** [rawTimes[idx] === null]; an index outside the array reads [undefined],
    which is not [null]. *)
Definition isNull (rawTimes : list (option Q)) (idx : Z) : bool :=
  match arr_get rawTimes idx with
  | Some None => true
  | _ => false
  end.

(** [while (prevIdx >= 0 && rawTimes[prevIdx] === null) prevIdx--;] *)
Fixpoint scanPrev (rawTimes : list (option Q)) (fuel : nat) (prevIdx : Z) : Z :=
  match fuel with
  | O => prevIdx
  | S fuel =>
      if (0 <=? prevIdx) && isNull rawTimes prevIdx
      then scanPrev rawTimes fuel (prevIdx - 1)
      else prevIdx
  end.

(** [while (nextIdx < rawTimes.length && rawTimes[nextIdx] === null)
      nextIdx++;] *)
Fixpoint scanNext (rawTimes : list (option Q)) (fuel : nat) (nextIdx : Z) : Z :=
  match fuel with
  | O => nextIdx
  | S fuel =>
      if (nextIdx <? Z.of_nat (List.length rawTimes)) && isNull rawTimes nextIdx
      then scanNext rawTimes fuel (nextIdx + 1)
      else nextIdx
  end.

(** [rawTimes[idx] as number] *)
Definition timeAt (rawTimes : list (option Q)) (idx : Z) : Q :=
  default 0%Q (mjoin (arr_get rawTimes idx)).

(** The body of the [rawTimes.map((t, i) => ...)] callback for a [null]
    entry.  Each scan moves its index by one per iteration and stays within
    [-1 .. rawTimes.length], so [rawTimes.length + 1] iterations suffice. *)
Definition interpolate (rawTimes : list (option Q)) (cursor : Q) (i : nat)
    : Q :=
  let fuel := S (List.length rawTimes) in
  let prevIdx := scanPrev rawTimes fuel (Z.of_nat i - 1) in
  let nextIdx := scanNext rawTimes fuel (Z.of_nat i + 1) in
  let prevTime := if 0 <=? prevIdx then timeAt rawTimes prevIdx else 0%Q in
  let nextTime :=
    if nextIdx <? Z.of_nat (List.length rawTimes)
    then timeAt rawTimes nextIdx else cursor in
  let span := nextIdx - prevIdx in
  (prevTime
   + (inject_Z (Z.of_nat i - prevIdx) / inject_Z span)
     * (nextTime - prevTime))%Q.

Definition sceneStartTimes (rawTimes : list (option Q)) (cursor : Q) : list Q :=
  imap (fun i t =>
          match t with
          | Some t => t
          | None => interpolate rawTimes cursor i
          end) rawTimes.

(** Node's [buf.writeUInt16LE] / [buf.writeUInt32LE] throw a RangeError
    ([None]) for a value outside the field. *)
Definition writeUInt16LE (buf : list Z) (value : Z) (offset : nat)
    : option (list Z) :=
  if bool_decide (0 <= value < 65536)
  then Some (setUint16 buf offset value) else None.

Definition writeUInt32LE (buf : list Z) (value : Z) (offset : nat)
    : option (list Z) :=
  if bool_decide (0 <= value < 4294967296)
  then Some (setUint32 buf offset value) else None.

(** PCM-16 to WAV: the header in front of the given sample bytes. *)
Definition pcmToWav (pcm : list Z) (channels sampleRate : Z)
    : option (list Z) :=
  let dataSize := Z.of_nat (List.length pcm) in
  let header := DataView.alloc 44 in
  let header := Wav.writeString header 0 "RIFF" in
  header ← writeUInt32LE header (36 + dataSize) 4;
  let header := Wav.writeString header 8 "WAVE" in
  let header := Wav.writeString header 12 "fmt " in
  header ← writeUInt32LE header 16 16;
  header ← writeUInt16LE header 1 20;
  header ← writeUInt16LE header channels 22;
  header ← writeUInt32LE header sampleRate 24;
  header ← writeUInt32LE header (sampleRate * channels * 2) 28;
  header ← writeUInt16LE header (channels * 2) 32;
  header ← writeUInt16LE header 16 34;
  let header := Wav.writeString header 36 "data" in
  header ← writeUInt32LE header dataSize 40;
  Some (header ++ pcm).

End Generate.

(** * Specifications and example data *)

Module Spec.
Import Wav.


(** The 16-bit sample the spec describes: clamp to [-1, 1], scale negative
    values by 32768 and the others by 32767, keep the integer part. *)
Definition spec_sample16 (x : Q) : Z :=
  let c := if Qltb x (-1) then (-1)%Q else if Qltb 1 x then 1%Q else x in
  if Qltb c 0 then Qtrunc (c * 32768) else Qtrunc (c * 32767).

Definition le16 (x : Z) : list Z :=
  let x := x mod 65536 in [x mod 256; (x / 256) mod 256].

Definition le32 (x : Z) : list Z :=
  let x := x mod 4294967296 in
  [x mod 256; (x / 256) mod 256; (x / 65536) mod 256; (x / 16777216) mod 256].

(** The 44 bytes the header writes leave at the front of the buffer. *)
Definition header (numCh sr dataSize : Z) : list Z :=
  [82; 73; 70; 70] ++ le32 (36 + dataSize) ++ [87; 65; 86; 69]
  ++ [102; 109; 116; 32] ++ le32 16 ++ le16 1 ++ le16 numCh ++ le32 sr
  ++ le32 (sr * numCh * 2) ++ le16 (numCh * 2) ++ le16 16
  ++ [100; 97; 116; 97] ++ le32 dataSize.

Definition charCodes (str : string) : list Z :=
  (fun c => Z.of_N (N_of_ascii c)) <$> list_ascii_of_string str.

(** State of the sample loop after [k] samples have been written. *)
Definition written (buf : AudioBuffer) (v0 : list Z) (k : nat)
    (st : nat * list Z) : Prop :=
  let C := numberOfChannels buf in
  fst st = (44 + 2 * k)%nat
  /\ List.length (snd st) = List.length v0
  /\ take 44 (snd st) = take 44 v0
  /\ forall f ch, (ch < C)%nat -> (f * C + ch < k)%nat ->
       getUint16 (snd st) (44 + 2 * (f * C + ch))
       = from_option (fun x => Qtrunc (scale (clamp x))) 0
           (getChannelData buf ch !! f) mod 65536.

End Spec.

Module Examples.
Import Page.

Definition unit (ty : SegmentType) : Segment := mkSegment ty "" None.

(** Silent mono audio of the given number of frames at 8000 Hz. *)
Definition clip (frames : Z) : AudioBuffer :=
  createBuffer 1 (Z.to_nat frames) 8000.

(** The four units of the cadence example, lasting 1.0, 2.0, 1.5 and 0.5
    seconds. *)
Definition example_segments : list Segment :=
  [unit narration; unit dialogue; unit dialogue; unit narration].

Definition example_buffers : list AudioBuffer :=
  [clip 8000; clip 16000; clip 12000; clip 4000].

(** A small decoder for the examples: three payloads decode, to one second
    of mono audio at 8000 Hz, to two seconds of it, and to one second of
    stereo audio at 48000 Hz; every other payload is rejected. *)
Definition example_decode (b64 : string) : option AudioBuffer :=
  if String.eqb b64 "c2hvcnQ=" then Some (clip 8000)
  else if String.eqb b64 "bG9uZw==" then Some (clip 16000)
  else if String.eqb b64 "c3RlcmVv"
  then Some (createBuffer 2 (Z.to_nat 48000) 48000)
  else None.

Definition five_segments : list Page.Segment :=
  [unit Page.narration; unit Page.dialogue;
   unit Page.dialogue; unit Page.narration;
   unit Page.narration].

(** Five clips, the third one corrupt. *)
Definition five_clips : list string :=
  ["c2hvcnQ="; "bG9uZw=="; "!corrupt!"; "c2hvcnQ="; "bG9uZw=="]%string.

Definition five_buffers : list AudioBuffer :=
  Page.decodeSegments example_decode five_clips.

(** A three-frame stereo buffer with samples inside and outside [-1, 1]. *)
Definition test_buf : AudioBuffer :=
  {| numberOfChannels := 2; sampleRate := 44100; length := 3;
     channelData := [[0.5; -1; 2]; [-0.25; 1; -7]]%Q |}.

(** Three lines of a script, the last one in a new scene. *)
Definition example_lines : list Script.ScriptDialogueLine :=
  [Script.mkLine 0 0 "MAYA" None "Who got there first?";
   Script.mkLine 0 1 "DANIEL" None "I don't know.";
   Script.mkLine 1 2 "MAYA" None "Then we wait."].

Definition example_durations : list Q := [1; 2; 1.5]%Q.

(** An effect attached to a segment, with the given payload. *)
Definition example_sfx (segmentIndex : Z) (audioBase64 : string)
    : SfxItem.t :=
  SfxItem.mk segmentIndex "door slams" 0 audioBase64.

End Examples.

Import Spec Examples.

(** * Further specifications *)

Module Props.

(** The anchors of the scenes lie on the speech timeline and are in scene
    order. *)
Definition anchors_ordered (rawTimes : list (option Q)) (cursor : Q) : Prop :=
  (0 <= cursor)%Q
  /\ (forall p a, rawTimes !! p = Some (Some a) -> (0 <= a <= cursor)%Q)
  /\ (forall p q a b, (p < q)%nat ->
        rawTimes !! p = Some (Some a) -> rawTimes !! q = Some (Some b) ->
        (a <= b)%Q).

End Props.

Import Props.

Module MoreExamples.

(** Four scenes, the two in the middle without dialogue, on a timeline that
    ends at 10. *)
Definition four_scenes : list (option Q) := [Some 0; None; None; Some 9]%Q.

End MoreExamples.

Import MoreExamples.

Module Props2.

(** The integer [setInt16] receives for a sample [x] of the buffer. *)
Definition pcm16 (x : Q) : Z := Qtrunc (Wav.scale (Wav.clamp x)).

(** The sample bytes of an encoded buffer: everything after the header. *)
Definition sampleBytes (buf : AudioBuffer) : list Z :=
  drop 44 (Wav.audioBufferToWav buf).

End Props2.

Import Props2.

(** * The code around the call sites *)

(** ** Voice casting (app/api/generate/route.ts, step 2; the book route has
    the same loop with a different first [while]) *)

Module Casting.

(** A voice of the catalogue: [labels] may be missing. *)
Record Voice : Type := mkVoice {
  name : string;
  labels : option (gmap string string)
}.

Record VoiceAssignment : Type := mkAssignment {
  voiceId : string;
  voiceName : string;
  description : string
}.

Definition FALLBACK_NARRATOR : string := "JBFqnCBsd6RMkjVDRZzb".

Definition FALLBACK_VOICES : list string :=
  ["21m00Tcm4TlvDq8ikWAM"; "ErXwobaYiN019PkySvjV"; "XrExE9yKIg1WjnnlVkGX";
   "TxGEqnHWrfWFTfGW9XjX"; "VR6AewLTigWG4xSOukaG"].

(** [FALLBACK_VOICES[fallbackIdx % FALLBACK_VOICES.length]] *)
Definition fallbackAt (fallbackIdx : nat) : string :=
  default "" (FALLBACK_VOICES !! (fallbackIdx mod List.length FALLBACK_VOICES)%nat).

(** [[l["description"], l["age"], l["accent"], l["gender"]]
       .filter(Boolean).join(", ")] *)
Definition describe (l : gmap string string) : string :=
  String.concat ", "
    (omap (fun key => match l !! key with
                      | Some EmptyString => None
                      | value => value
                      end)
       ["description"; "age"; "accent"; "gender"]).

(** The state of the casting loop: the writes [voiceMap[role] = ...] in
    order (a later write to a role replaces an earlier one), the set
    [usedIds] and [fallbackIdx]. *)
Record CastState : Type := mkCast {
  voiceMap : list (string * VoiceAssignment);
  usedIds : gset string;
  fallbackIdx : nat
}.

Section Cast.

(** [voiceById]: the premade voices by id.  [castingRaw]: the ids the model
    proposed by role; a role without a string value reads [None]. *)
Variable voiceById : gmap string Voice.
Variable castingRaw : gmap string string.

Definition resolveVoice (id : option string) (fallbackId : string)
    : VoiceAssignment :=
  let resolved :=
    match id with
    | Some id =>
        if bool_decide (id <> "" /\ is_Some (voiceById !! id))
        then id else fallbackId
    | None => fallbackId
    end in
  let v := voiceById !! resolved in
  let l := default ∅ (v ≫= labels) in
  let desc := describe l in
  {| voiceId := resolved;
     voiceName := default resolved (name <$> v);
     description := if bool_decide (desc = "") then "ElevenLabs voice"
                    else desc |}.

(** [while (usedIds.has(fallback)) { fallbackIdx++; fallback =
      FALLBACK_VOICES[fallbackIdx % FALLBACK_VOICES.length]; }]:
    the index on exit, or [None] when the loop is still running after [fuel]
    iterations. *)
Fixpoint skipUsed (usedIds : gset string) (fuel : nat) (fallbackIdx : nat)
    : option nat :=
  match fuel with
  | O => None
  | S fuel =>
      if bool_decide (fallbackAt fallbackIdx ∈ usedIds)
      then skipUsed usedIds fuel (S fallbackIdx)
      else Some fallbackIdx
  end.

(** The first loop of the book route,
    [while (usedIds.has(fallback)) fallbackIdx++;], which does not refresh
    [fallback]. *)
Fixpoint skipUsedStale (usedIds : gset string) (fallback : string)
    (fuel : nat) (fallbackIdx : nat) : option nat :=
  match fuel with
  | O => None
  | S fuel =>
      if bool_decide (fallback ∈ usedIds)
      then skipUsedStale usedIds fallback fuel (S fallbackIdx)
      else Some fallbackIdx
  end.

(** One iteration of [for (const character of characters)]; [firstLoop] is
    the first [while] of the body. *)
Definition castCharacter (firstLoop : gset string -> nat -> option nat)
    (fuel : nat) (st : CastState) (character : string) : option CastState :=
  fallbackIdx ← firstLoop (usedIds st) (fallbackIdx st);
  let fallback := fallbackAt fallbackIdx in
  let assigned := resolveVoice (castingRaw !! character) fallback in
  '(fallbackIdx, voice) ←
    (if bool_decide (voiceId assigned ∈ usedIds st)
     then fallbackIdx ← skipUsed (usedIds st) fuel fallbackIdx;
          Some (fallbackIdx,
                resolveVoice (Some (fallbackAt fallbackIdx))
                  (fallbackAt fallbackIdx))
     else Some (fallbackIdx, assigned));
  Some {| voiceMap := voiceMap st ++ [(character, voice)];
          usedIds := {[voiceId voice]} ∪ usedIds st;
          fallbackIdx := S fallbackIdx |}.

Fixpoint castAll (firstLoop : gset string -> nat -> option nat) (fuel : nat)
    (st : CastState) (characters : list string) : option CastState :=
  match characters with
  | [] => Some st
  | character :: characters =>
      st ← castCharacter firstLoop fuel st character;
      castAll firstLoop fuel st characters
  end.

Definition castNarrator : CastState :=
  let narrator := resolveVoice (castingRaw !! "narrator") FALLBACK_NARRATOR in
  {| voiceMap := [("narrator", narrator)];
     usedIds := {[voiceId narrator]};
     fallbackIdx := 0 |}.

(** The casting of the screenplay route. *)
Definition castVoices (fuel : nat) (characters : list string)
    : option CastState :=
  castAll (fun usedIds fallbackIdx => skipUsed usedIds fuel fallbackIdx)
    fuel castNarrator characters.

(** The casting of the book route. *)
Definition castVoicesBook (fuel : nat) (speakers : list string)
    : option CastState :=
  castAll (fun usedIds fallbackIdx =>
             skipUsedStale usedIds (fallbackAt fallbackIdx) fuel fallbackIdx)
    fuel castNarrator speakers.

End Cast.

(** The voice ids written to [voiceMap], in order. *)
Definition castIds (st : CastState) : list string :=
  (fun entry => voiceId (snd entry)) <$> voiceMap st.

End Casting.

(** ** Notions used to state the casting properties *)

Module CastingProps.
Import Casting.

(** How many voices of [l] are in use. *)
Fixpoint countUsed (used : gset string) (l : list string) : nat :=
  match l with
  | [] => 0
  | v :: l => (if bool_decide (v ∈ used) then 1 else 0) + countUsed used l
  end.

(** The number of fallback voices in use. *)
Definition fallbacksUsed (used : gset string) : nat :=
  countUsed used FALLBACK_VOICES.

(** The invariant of the casting loop: [usedIds] is the set of the ids
    written so far, and no id was written twice. *)
Definition cast_inv (st : CastState) : Prop :=
  NoDup (castIds st) /\ usedIds st ≡ list_to_set (castIds st).

End CastingProps.

Import CastingProps.

Module CastingExamples.
Import Casting.

(** A catalogue with one voice, and a proposal that gives it to the
    narrator. *)
Definition one_voice : gmap string Voice :=
  {[ "21m00Tcm4TlvDq8ikWAM" := mkVoice "Rachel" None ]}.

Definition narrator_rachel : gmap string string :=
  {[ "narrator" := "21m00Tcm4TlvDq8ikWAM" ]}.

Definition six_characters : list string :=
  ["Ann"; "Bob"; "Cy"; "Di"; "Ed"; "Flo"].

End CastingExamples.

Import CastingExamples.

(** ** The scene timeline of the screenplay route (route.ts, step 5) *)

Module Timeline.
Import Script Generate.

Record ScriptScene : Type := mkScene {
  index : Z;
  heading : string;
  action : string
}.

(** [dialogueLines.find(l => l.sceneIndex === scene.index)] *)
Definition firstLine (dialogueLines : list ScriptDialogueLine)
    (scene : ScriptScene) : option ScriptDialogueLine :=
  List.find (fun l => bool_decide (sceneIndex l = index scene)) dialogueLines.

(** [firstLine ? lineStartTimes[firstLine.lineIndex] : null].  A
    [lineIndex] outside [lineStartTimes] reads [undefined], which is neither
    a time nor [null]: the entry has no value in this model ([None]). *)
Definition rawTime (dialogueLines : list ScriptDialogueLine)
    (lineStartTimes : list Q) (scene : ScriptScene) : option (option Q) :=
  match firstLine dialogueLines scene with
  | Some firstLine =>
      t ← arr_get lineStartTimes (lineIndex firstLine); Some (Some t)
  | None => Some None
  end.

(** [scenes.map((scene) => ...)] *)
Definition rawTimes (scenes : list ScriptScene)
    (dialogueLines : list ScriptDialogueLine) (lineStartTimes : list Q)
    : option (list (option Q)) :=
  mapM (rawTime dialogueLines lineStartTimes) scenes.

(** Step 5 as a whole: the pair [(sceneStartTimes, cursor)]. *)
Definition sceneTimeline (scenes : list ScriptScene)
    (dialogueLines : list ScriptDialogueLine) (lineDurations : list Q)
    : option (list Q * Q) :=
  let '(lineStartTimes, cursor) := lineSchedule dialogueLines lineDurations in
  rawTimes ← rawTimes scenes dialogueLines lineStartTimes;
  Some (sceneStartTimes rawTimes cursor, cursor).

(** A script as the parser is asked to return it: lines numbered by
    position and grouped by scene in order, scenes in order, and no negative
    duration. *)
Definition well_formed (scenes : list ScriptScene)
    (dialogueLines : list ScriptDialogueLine) (lineDurations : list Q)
    : Prop :=
  (forall k l, dialogueLines !! k = Some l -> lineIndex l = Z.of_nat k)
  /\ (forall j k lj lk, (j <= k)%nat ->
        dialogueLines !! j = Some lj -> dialogueLines !! k = Some lk ->
        sceneIndex lj <= sceneIndex lk)
  /\ (forall p q sp sq, (p <= q)%nat ->
        scenes !! p = Some sp -> scenes !! q = Some sq ->
        index sp <= index sq)
  /\ Forall (fun d => (0 <= d)%Q) lineDurations.

End Timeline.

Module TimelineExamples.
Import Timeline.

(** Four scenes for the three [example_lines]: scenes 0 and 1 have dialogue,
    scenes 2 and 3 have none. *)
Definition example_scenes : list ScriptScene :=
  [mkScene 0 "INT. COFFEE SHOP - DAY" ""; mkScene 1 "EXT. CITY STREET" "";
   mkScene 2 "EXT. ROOFTOP" ""; mkScene 3 "INT. CAR" ""].

End TimelineExamples.

Import TimelineExamples.

(** ** Music for a scene (route.ts, step 6a and generateLyriaMusic) *)

Module Lyria.

(** An entry of [sceneStartTimes] as step 5 leaves it: a time; [NaN], for a
    scene without dialogue placed between anchors one of which is not a
    number; or [undefined], for a scene whose first line has a [lineIndex]
    outside [lineStartTimes]. *)
Inductive SceneTime : Type :=
| time (t : Q)
| notANumber
| undefined.

(** [arr[x]] for a number [x]: there is an element only at a whole index
    inside the array. *)
Definition arr_at {A : Type} (arr : list A) (x : Q) : option A :=
  if Qeq_bool x (inject_Z (Qfloor x)) then arr_get arr (Qfloor x) else None.

(** [sceneStartTimes[sceneIndex] ?? 0]: [??] replaces [undefined], and
    leaves NaN, which is [None] here. *)
Definition startTimeOf (sceneStartTimes : list SceneTime) (sceneIndex : Q)
    : option Q :=
  match arr_at sceneStartTimes sceneIndex with
  | Some (time t) => Some t
  | Some notANumber => None
  | Some undefined | None => Some 0%Q
  end.

(** [sceneIndex + 1 < sceneStartTimes.length
       ? sceneStartTimes[sceneIndex + 1] : cursor], as the subtraction
    reads it: [undefined], from an entry or from an index that is negative
    or not whole, is NaN there, which is [None] here. *)
Definition nextStartOf (sceneStartTimes : list SceneTime) (cursor : Q)
    (sceneIndex : Q) : option Q :=
  if Qltb (sceneIndex + 1)
       (inject_Z (Z.of_nat (List.length sceneStartTimes)))
  then match arr_at sceneStartTimes (sceneIndex + 1) with
       | Some (time t) => Some t
       | _ => None
       end
  else Some cursor.

(** [Math.max(6, Math.min(nextStart - startTime + 2, 25))]; [None] is
    NaN. *)
Definition musicDuration (sceneStartTimes : list SceneTime) (cursor : Q)
    (sceneIndex : Q) : option Q :=
  startTime ← startTimeOf sceneStartTimes sceneIndex;
  nextStart ← nextStartOf sceneStartTimes cursor sceneIndex;
  Some (Qmax 6 (Qmin (nextStart - startTime + 2) 25)).

(** [Math.ceil(Math.min(durationSeconds, 25) * 48000 * 4)] *)
Definition targetBytes (durationSeconds : Q) : Z :=
  Qceiling (Qmin durationSeconds 25 * 48000 * 4).

(** What reaches the socket's handlers.  A message carries the [data] of
    each entry of [serverContent.audioChunks]; a message without audio, or
    one that is not JSON, carries none. *)
Inductive Event : Type :=
| Message (audioChunks : list (option string))
| Timeout
| WsError
| Close.

(** [resolved]: [None] while the promise is pending, [Some None] once it
    resolved with [null], [Some (Some wav)] once it resolved with a file
    (the bytes that are then printed in base64). *)
Record State : Type := mkState {
  chunks : list (list Z);
  totalBytes : Z;
  finished : bool;
  resolved : option (option (list Z))
}.

Definition init : State :=
  {| chunks := []; totalBytes := 0; finished := false; resolved := None |}.

Section Stream.

(** [Buffer.from(data, "base64")] *)
Variable fromBase64 : string -> list Z.
Variable targetBytes : Z.

(** [finish]: a throwing [pcmToWav] leaves the promise pending. *)
Definition finish (st : State) : State :=
  if finished st then st
  else
    match chunks st with
    | [] =>
        {| chunks := chunks st; totalBytes := totalBytes st;
           finished := true; resolved := Some None |}
    | _ =>
        let pcm := concat (chunks st) in
        {| chunks := chunks st; totalBytes := totalBytes st;
           finished := true;
           resolved := match Generate.pcmToWav pcm 2 48000 with
                       | Some wav => Some (Some wav)
                       | None => resolved st
                       end |}
    end.

(** The body of [for (const chunk of audioChunks)]. *)
Definition onChunk (st : State) (data : option string) : State :=
  match data with
  | Some data =>
      if bool_decide (data <> "") && negb (finished st)
      then
        let buf := fromBase64 data in
        let st :=
          {| chunks := chunks st ++ [buf];
             totalBytes := totalBytes st + Z.of_nat (List.length buf);
             finished := finished st; resolved := resolved st |} in
        if targetBytes <=? totalBytes st then finish st else st
      else st
  | None => st
  end.

Definition step (st : State) (event : Event) : State :=
  match event with
  | Message audioChunks => foldl onChunk st audioChunks
  | Timeout | WsError | Close => finish st
  end.

Definition run (events : list Event) : State := foldl step init events.

End Stream.

End Lyria.

Module LyriaExamples.
Import Lyria.

(** A decoder for the examples: a payload of [k] characters gives [3 k]
    zero bytes. *)
Definition example_fromBase64 (data : string) : list Z :=
  replicate (3 * String.length data) 0.

End LyriaExamples.

Import LyriaExamples.

Module LyriaProps.
Import Lyria.

(** What holds of the collector after any events: the byte count is that of
    the chunks, an unfinished collector is below its target with the promise
    pending, the chunks before the last one are below the target, and the
    promise resolved with a file of the chunks, or with [null] without
    chunks. *)
Definition collecting (target : Z) (st : State) : Prop :=
  totalBytes st = Z.of_nat (List.length (concat (chunks st)))
  /\ (finished st = false -> resolved st = None /\ totalBytes st < target)
  /\ Z.of_nat (List.length (concat (removelast (chunks st)))) < target
  /\ (forall wav, resolved st = Some (Some wav) ->
        chunks st <> []
        /\ Generate.pcmToWav (concat (chunks st)) 2 48000 = Some wav)
  /\ (resolved st = Some None -> chunks st = []).

End LyriaProps.

Import LyriaProps.

(** ** The player of the screenplay page (app/upload/page.tsx) *)

Module Player.

(** [handleTimeUpdate]: the scene passed to [setCurrentScene],
    [[
      let scene = 0;
      for (let i = 0; i < times.length; i++) { if (t >= times[i]) scene = i; }
    ]] *)
Definition currentScene (times : list Q) (t : Q) : nat :=
  for_range (List.length times) (fun i scene =>
    match times !! i with
    | Some ti => if Qle_bool ti t then i else scene
    | None => scene
    end) 0%nat.

(** [seekToScene]: the value given to [audio.currentTime],
    [result.sceneStartTimes[i] ?? 0]. *)
Definition seekToScene (times : list Q) (i : nat) : Q :=
  default 0%Q (times !! i).

(** [sceneEndTime]:
    [[
      if (i + 1 < times.length) return times[i + 1];
      return totalDuration || (times[times.length - 1] ?? 0) + 5;
    ]] *)
Definition sceneEndTime (times : list Q) (totalDuration : Q) (i : nat) : Q :=
  match times !! (i + 1)%nat with
  | Some next => next
  | None =>
      if Qeq_bool totalDuration 0
      then (default 0 (arr_get times (Z.of_nat (List.length times) - 1)) + 5)%Q
      else totalDuration
  end.

End Player.

Module PlayerProps.

(** Scene start times in order. *)
Definition ascending (times : list Q) : Prop :=
  forall i j ti tj, (i <= j)%nat ->
    times !! i = Some ti -> times !! j = Some tj -> (ti <= tj)%Q.

End PlayerProps.

Import PlayerProps.

(** ** Time helpers of the screenplay page (app/upload/page.tsx) *)

Module TimeHelpers.

(** [a % b] on numbers: the remainder takes the sign of [a]. *)
Definition js_rem (a b : Q) : Q :=
  (a - b * inject_Z (Qtrunc (a / b)))%Q.


Fixpoint zeros (n : nat) : string :=
  match n with
  | O => ""
  | S n => String "0" (zeros n)
  end.

(** [String(n).padStart(width, "0")] for an integer [n]. *)
Definition padStart (width : nat) (n : Z) : string :=
  let s := pretty n in
  zeros (width - String.length s) +:+ s.



(** The two numbers [m] and [s] of [formatTime]. *)
Definition timeFields (seconds : Q) : Z * Z :=
  let m := Qfloor (seconds / 60) in
  let s := Qfloor (js_rem seconds 60) in
  (m, s).

Definition formatTime (seconds : Q) : string :=
  let '(m, s) := timeFields seconds in
  pretty m +:+ ":" +:+ padStart 2 s.

End TimeHelpers.

(** ** Bounded concurrency (route.ts, runWithConcurrency) *)

Module Pool.

Section Run.

Context {T : Type}.

(** What each task's promise does once it settles: [None] rejects,
    [Some r] resolves with [r], a value or [null]. *)
Variable outcomes : list (option (option T)).

(** [Math.min(concurrency, tasks.length)] workers. *)
Variable concurrency : nat.

(** [results] and [next] are the function's variables.  [workers] holds,
    for each worker, the task it awaits, or [None] once it has returned or
    thrown; [rejected] tells whether [Promise.all] has rejected; [started]
    lists the calls [tasks[i]()] in order. *)
Record State : Type := mkState {
  results : list (option T);
  next : nat;
  workers : list (option nat);
  rejected : bool;
  started : list nat
}.

(** A worker at the head of its loop:
    [while (next < tasks.length) { const i = next++; ... await tasks[i]()]. *)
Definition enter (st : State) (w : nat) : State :=
  if (next st <? List.length outcomes)%nat
  then {| results := results st; next := S (next st);
          workers := <[w := Some (next st)]> (workers st);
          rejected := rejected st;
          started := started st ++ [next st] |}
  else {| results := results st; next := next st;
          workers := <[w := None]> (workers st);
          rejected := rejected st; started := started st |}.

(** [new Array(tasks.length).fill(null)], [next = 0], and the workers each
    run up to their first [await]. *)
Definition init : State :=
  let count := Nat.min concurrency (List.length outcomes) in
  foldl enter
    {| results := replicate (List.length outcomes) None; next := 0;
       workers := replicate count None; rejected := false; started := [] |}
    (seq 0 count).

(** The promise awaited by worker [w] settles: [results[i] = ...] and the
    loop goes on, or the worker throws and [Promise.all] rejects.  For a
    worker that awaits nothing there is no such event. *)
Definition complete (st : State) (w : nat) : State :=
  match workers st !! w with
  | Some (Some i) =>
      match outcomes !! i with
      | Some (Some r) =>
          enter {| results := <[i := r]> (results st); next := next st;
                   workers := workers st; rejected := rejected st;
                   started := started st |} w
      | _ =>
          {| results := results st; next := next st;
             workers := <[w := None]> (workers st);
             rejected := true; started := started st |}
      end
  | _ => st
  end.

(** The state after the awaited promises settled in the given order of
    workers. *)
Definition run (schedule : list nat) : State := foldl complete init schedule.

(** The promise [runWithConcurrency] returns: pending ([None]), rejected
    ([Some None]) or resolved with [results]. *)
Definition settled (st : State) : option (option (list (option T))) :=
  if rejected st then Some None
  else if bool_decide (Forall (fun w => w = None) (workers st))
  then Some (Some (results st))
  else None.

(** The tasks that are awaited. *)
Definition inFlight (st : State) : list nat := omap id (workers st).

(** Every event of the schedule is the settling of a promise that is
    awaited. *)
Fixpoint enabled (st : State) (schedule : list nat) : Prop :=
  match schedule with
  | [] => True
  | w :: schedule =>
      (exists i, workers st !! w = Some (Some i))
      /\ enabled (complete st w) schedule
  end.

End Run.

Arguments State : clear implicits.

End Pool.

Module PoolProps.
Import Pool.

Section Props.

Context {T : Type}.
Variable outcomes : list (option (option T)).
Variable concurrency : nat.

(** The value task [i] leaves in [results]: what it resolved with, [null]
    otherwise. *)
Definition resolvedValue (i : nat) : option T :=
  match outcomes !! i with
  | Some (Some r) => r
  | _ => None
  end.

(** What holds between two events. *)
Definition pool_inv (st : State T) : Prop :=
  let n := List.length outcomes in
  (next st <= n)%nat
  /\ List.length (results st) = n
  /\ List.length (workers st) = Nat.min concurrency n
  /\ started st = seq 0 (next st)
  /\ (forall w i, workers st !! w = Some (Some i) -> (i < next st)%nat)
  /\ (forall w w' i, workers st !! w = Some (Some i) ->
        workers st !! w' = Some (Some i) -> w = w')
  /\ (forall i, (i < next st)%nat ->
        (exists w, workers st !! w = Some (Some i))
        \/ results st !! i = Some (resolvedValue i))
  /\ (forall i, (next st <= i < n)%nat -> results st !! i = Some None)
  /\ (forall w i, workers st !! w = Some (Some i) ->
        results st !! i = Some None)
  /\ (rejected st = false ->
      (forall w, workers st !! w = Some None -> next st = n)
      /\ (forall i, (i < next st)%nat ->
            (exists w, workers st !! w = Some (Some i))
            \/ exists r, outcomes !! i = Some (Some r))).

(** Workers that have returned or thrown. *)
Definition idle (st : State T) : nat :=
  (List.length (workers st) - List.length (inFlight st))%nat.

End Props.

End PoolProps.

Import PoolProps.

Module PoolExamples.

(** Three tasks: the second one resolves with [null]. *)
Definition three_tasks : list (option (option Z)) :=
  [Some (Some 10); Some None; Some (Some 30)].

End PoolExamples.

Import PoolExamples.

(** ** The fixed voice pool of the first audiobook route (buildVoiceMap) *)

Module VoicePool.
Import Page.

Record VoiceAssignment : Type := mkAssignment {
  voiceId : string;
  voiceName : string
}.

Definition VOICE_POOL : list (string * VoiceAssignment) :=
  [("narrator", mkAssignment "JBFqnCBsd6RMkjVDRZzb" "George");
   ("slot0", mkAssignment "21m00Tcm4TlvDq8ikWAM" "Rachel");
   ("slot1", mkAssignment "ErXwobaYiN019PkySvjV" "Antoni");
   ("slot2", mkAssignment "MF3mGyEYCl7XYWbV9V6O" "Elli");
   ("slot3", mkAssignment "TxGEqnHWrfWFTfGW9XjX" "Josh");
   ("slot4", mkAssignment "VR6AewLTigWG4xSOukaG" "Arnold");
   ("overflow", mkAssignment "AZnzlk1XvdvUeBnXmlld" "Domi")].

(** [VOICE_POOL[slotKey]]; reading [.id] of a missing entry throws
    ([None]). *)
Definition poolVoice (slotKey : string) : option VoiceAssignment :=
  snd <$> List.find (fun entry => String.eqb (fst entry) slotKey) VOICE_POOL.

(** The names every object inherits from [Object.prototype]; reading one of
    them from [voiceMap] gives a function or the prototype, which is
    truthy. *)
Definition inherited (key : string) : bool :=
  bool_decide (key ∈ ["constructor"; "__proto__"; "hasOwnProperty";
                      "isPrototypeOf"; "propertyIsEnumerable"; "toString";
                      "toLocaleString"; "valueOf"; "__defineGetter__";
                      "__defineSetter__"; "__lookupGetter__";
                      "__lookupSetter__"]).

(** Whether [voiceMap[key]] is truthy: an own entry, or an inherited
    name. *)
Definition has (voiceMap : gmap string VoiceAssignment) (key : string)
    : bool :=
  bool_decide (is_Some (voiceMap !! key)) || inherited key.

(** [slotIndex < 5 ? `slot${slotIndex}` : "overflow"] *)
Definition slotKey (slotIndex : nat) : string :=
  if (slotIndex <? 5)%nat then "slot" +:+ pretty slotIndex else "overflow".

(** The loop of [buildVoiceMap], from the segment list on. *)
Fixpoint assign (segments : list Segment)
    (voiceMap : gmap string VoiceAssignment) (slotIndex : nat)
    : option (gmap string VoiceAssignment) :=
  match segments with
  | [] => Some voiceMap
  | seg :: segments =>
      match type seg, speaker seg with
      | dialogue, Some speaker =>
          if negb (String.eqb speaker "") && negb (has voiceMap speaker)
          then
            voice ← poolVoice (slotKey slotIndex);
            assign segments (<[speaker := voice]> voiceMap)
              (if (slotIndex <? 5)%nat then S slotIndex else slotIndex)
          else assign segments voiceMap slotIndex
      | _, _ => assign segments voiceMap slotIndex
      end
  end.

Definition buildVoiceMap (segments : list Segment)
    : option (gmap string VoiceAssignment) :=
  narrator ← poolVoice "narrator";
  assign segments {[ "narrator" := narrator ]} 0.

End VoicePool.

Module VoicePoolProps.
Import Page VoicePool.

(** The speakers of the dialogue segments, in order. *)
Definition speakers (segments : list Segment) : list string :=
  omap (fun seg => match type seg with
                   | dialogue => speaker seg
                   | narration => None
                   end) segments.

(** A speaker that can get a voice of its own. *)
Definition eligible (speaker : string) : bool :=
  negb (String.eqb speaker "") && negb (String.eqb speaker "narrator")
  && negb (inherited speaker).

(** The names of [l] that are not in [seen], each once, in the order in
    which they first appear. *)
Fixpoint firstSeen (seen : list string) (l : list string) : list string :=
  match l with
  | [] => []
  | x :: l =>
      if bool_decide (x ∈ seen) then firstSeen seen l
      else x :: firstSeen (seen ++ [x]) l
  end.

(** The characters of a passage in the order in which they first speak. *)
Definition cast (segments : list Segment) : list string :=
  firstSeen [] (filter (fun s => eligible s = true) (speakers segments)).

(** The voice of the [k]-th character: five slots, then the overflow. *)
Definition slotVoice (k : nat) : option VoiceAssignment :=
  poolVoice (slotKey (Nat.min k 5)).

End VoicePoolProps.

Import VoicePoolProps.

Module VoicePoolExamples.
Import Page.

(** A passage with seven speakers, the first of them speaking twice. *)
Definition seven_speakers : list Segment :=
  [mkSegment narration "It was late." None;
   mkSegment dialogue "Hello." (Some "Ann");
   mkSegment dialogue "Hi." (Some "Bob");
   mkSegment dialogue "Well?" (Some "Ann");
   mkSegment dialogue "Yes." (Some "Cy");
   mkSegment dialogue "No." (Some "Di");
   mkSegment dialogue "Maybe." (Some "Ed");
   mkSegment dialogue "Never." (Some "Flo");
   mkSegment dialogue "Always." (Some "Gus")].

End VoicePoolExamples.

Import VoicePoolExamples.

(** ** Segment timings and effects of the book route (steps 4 and 5) *)

Module BookRoute.

Record SegmentTiming : Type := mkTiming {
  segmentIndex : Z;
  startTime : Q;
  endTime : Q
}.

(** [endTimes.length > 0 ? endTimes[endTimes.length - 1] : 0] *)
Definition segDuration (endTimes : list Q) : Q :=
  default 0%Q (last endTimes).

(** The pair [(segmentTimings, timeOffset)] after the loop of step 4;
    [alignments] holds, for each segment, the
    [character_end_times_seconds] of its speech ([[]] when missing). *)
Definition segmentTimings (alignments : list (list Q))
    : list SegmentTiming * Q :=
  for_range (List.length alignments) (fun i '(timings, timeOffset) =>
    let segDuration := segDuration (default [] (alignments !! i)) in
    (timings ++ [mkTiming (Z.of_nat i) timeOffset
                   (timeOffset + segDuration)%Q],
     (timeOffset + segDuration)%Q)) ([], 0%Q).

(** One task of step 5 for a suggestion with a prompt: [audio] is the
    generated effect, [None] when the generation failed.  A segment index
    without timing makes [timing.startTime] throw; either way the task is
    rejected and the effect left out ([None]). *)
Definition sfxTask (timings : list SegmentTiming) (segmentIndex : Z)
    (prompt : string) (audio : option string) : option Page.SfxItem.t :=
  audioBase64 ← audio;
  timing ← List.find (fun t => bool_decide (BookRoute.segmentIndex t
                                            = segmentIndex)) timings;
  Some (Page.SfxItem.mk segmentIndex prompt (startTime timing) audioBase64).

End BookRoute.

Module BookRouteProps.
Import BookRoute.

(** The time the first [i] segments take. *)
Definition offset (alignments : list (list Q)) (i : nat) : Q :=
  foldr Qplus 0%Q (segDuration <$> take i alignments).

End BookRouteProps.

Import BookRouteProps.

(** ** The scene timeline of the earlier screenplay route (route.ts, first
    POST, step 5) *)

Module TimelineV1.
Import Script Generate Timeline.

(** [[...dialogueLines].reverse().find(l =>
       l.sceneIndex === scene.index - 1)] *)
Definition prevSceneLastLine (dialogueLines : list ScriptDialogueLine)
    (scene : ScriptScene) : option ScriptDialogueLine :=
  List.find (fun l => bool_decide (sceneIndex l = index scene - 1))
    (reverse dialogueLines).

(** The value pushed for one scene; [None] when it is not a number (a line
    index outside [lineStartTimes]). *)
Definition sceneStart (dialogueLines : list ScriptDialogueLine)
    (lineStartTimes lineDurations sceneStartTimes : list Q)
    (scene : ScriptScene) : option Q :=
  match firstLine dialogueLines scene with
  | Some firstLine => arr_get lineStartTimes (lineIndex firstLine)
  | None =>
      prevEnd ←
        match prevSceneLastLine dialogueLines scene with
        | Some prevSceneLastLine =>
            t ← arr_get lineStartTimes (lineIndex prevSceneLastLine);
            Some (t + default 0 (arr_get lineDurations
                                   (lineIndex prevSceneLastLine)))%Q
        | None => Some (default 0%Q (last sceneStartTimes))
        end;
      Some (prevEnd + 1.5)%Q
  end.

(** [for (const scene of scenes) { ... sceneStartTimes.push(...) }] *)
Fixpoint pushScenes (dialogueLines : list ScriptDialogueLine)
    (lineStartTimes lineDurations : list Q) (scenes : list ScriptScene)
    (sceneStartTimes : list Q) : option (list Q) :=
  match scenes with
  | [] => Some sceneStartTimes
  | scene :: scenes =>
      t ← sceneStart dialogueLines lineStartTimes lineDurations
             sceneStartTimes scene;
      pushScenes dialogueLines lineStartTimes lineDurations scenes
        (sceneStartTimes ++ [t])
  end.

Definition sceneStartTimes (scenes : list ScriptScene)
    (dialogueLines : list ScriptDialogueLine) (lineDurations : list Q)
    : option (list Q) :=
  let '(lineStartTimes, cursor) := lineSchedule dialogueLines lineDurations in
  pushScenes dialogueLines lineStartTimes lineDurations scenes [].

End TimelineV1.

Module TimelineV1Examples.
Import Timeline.

(** Three scenes, the middle one without dialogue. *)
Definition silent_middle_scenes : list ScriptScene :=
  [mkScene 0 "INT. COFFEE SHOP - DAY" ""; mkScene 1 "EXT. ROOFTOP" "";
   mkScene 2 "EXT. CITY STREET" ""].

Definition silent_middle_lines : list Script.ScriptDialogueLine :=
  [Script.mkLine 0 0 "MAYA" None "Who got there first?";
   Script.mkLine 0 1 "DANIEL" None "I don't know.";
   Script.mkLine 2 2 "MAYA" None "Then we wait."].

End TimelineV1Examples.

Import TimelineV1Examples.

(** * Proofs *)

(** ** Loops *)

Lemma for_range_S {S : Type} (n : nat) (body : nat -> S -> S) (s : S) :
  for_range (Datatypes.S n) body s = body n (for_range n body s).
Proof.
  unfold for_range. rewrite seq_S, foldl_app. reflexivity.
Qed.

(** Hoare-style rule: an invariant indexed by the iteration count. *)
Lemma for_range_ind {S : Type} (P : nat -> S -> Prop) (n : nat)
    (body : nat -> S -> S) (s : S) :
  P 0%nat s ->
  (forall i s, (i < n)%nat -> P i s -> P (Datatypes.S i) (body i s)) ->
  P n (for_range n body s).
Proof.
  intros H0 Hstep. induction n as [|n IH].
  - exact H0.
  - rewrite for_range_S. apply Hstep; [lia|].
    apply IH. intros i s' Hi. apply Hstep. lia.
Qed.

(** ** Numbers *)

Lemma Qltb_lt (x y : Q) : Qltb x y = true <-> (x < y)%Q.
Proof.
  unfold Qltb. rewrite negb_true_iff, <- not_true_iff_false, Qle_bool_iff.
  split; [apply Qnot_le_lt | apply Qlt_not_le].
Qed.

Lemma Qltb_ge (x y : Q) : Qltb x y = false <-> (y <= x)%Q.
Proof.
  unfold Qltb. rewrite negb_false_iff. apply Qle_bool_iff.
Qed.

#[export] Instance Qtrunc_comp : Proper (Qeq ==> eq) Qtrunc.
Proof.
  intros x y Hxy. unfold Qtrunc.
  rewrite (Qleb_comp 0%Q 0%Q (Qeq_refl 0%Q) x y Hxy).
  rewrite (Qfloor_comp x y Hxy), (Qceiling_comp x y Hxy). reflexivity.
Qed.

Lemma Qtrunc_bounds (x : Q) (lo hi : Z) :
  (inject_Z lo <= x)%Q -> (x <= inject_Z hi)%Q -> lo <= Qtrunc x <= hi.
Proof.
  intros Hlo Hhi. unfold Qtrunc. destruct (Qle_bool 0 x).
  - rewrite <- (Qfloor_Z lo), <- (Qfloor_Z hi).
    split; apply Qfloor_resp_le; assumption.
  - rewrite <- (Qceiling_Z lo), <- (Qceiling_Z hi).
    split; apply Qceiling_resp_le; assumption.
Qed.

(** ** The cadence loop *)

Section CadenceFacts.

Variable gapBefore : nat -> Q -> Q.
Variable durationOf : nat -> Q.

Local Abbreviation start := (startAt gapBefore durationOf).

Lemma cadence_S (n : nat) :
  cadence (S n) gapBefore durationOf
  = (fst (cadence n gapBefore durationOf) ++ [start n],
     (start n + durationOf n)%Q).
Proof.
  unfold startAt, cadence. rewrite for_range_S.
  destruct (for_range n _ _) as [startTimes cursor]. reflexivity.
Qed.

Lemma cadence_length (n : nat) :
  List.length (fst (cadence n gapBefore durationOf)) = n.
Proof.
  induction n as [|n IH]; [reflexivity|].
  rewrite cadence_S. cbn [fst]. rewrite length_app, IH. cbn. lia.
Qed.

(** Every unit below the bound receives the start time of its iteration. *)
Lemma cadence_lookup (n i : nat) :
  (i < n)%nat ->
  fst (cadence n gapBefore durationOf) !! i = Some (start i).
Proof.
  induction n as [|n IH]; [lia|]. intros Hi.
  rewrite cadence_S. cbn [fst].
  destruct (decide (i = n)) as [->|Hne].
  - rewrite lookup_app_r by (rewrite cadence_length; lia).
    rewrite cadence_length, Nat.sub_diag. reflexivity.
  - rewrite lookup_app_l by (rewrite cadence_length; lia). apply IH. lia.
Qed.

Lemma cadence_lookup_ge (n i : nat) :
  (n <= i)%nat -> fst (cadence n gapBefore durationOf) !! i = None.
Proof.
  intros. apply lookup_ge_None_2. rewrite cadence_length. lia.
Qed.

Lemma startAt_0 : start 0 = 0%Q.
Proof. reflexivity. Qed.

Lemma startAt_S (i : nat) :
  start (S i) = gapBefore (S i) (start i + durationOf i)%Q.
Proof.
  unfold startAt at 1. rewrite cadence_S. reflexivity.
Qed.

(** Speech never overlaps speech when no gap moves the cursor back. *)
Lemma startAt_no_overlap (i : nat) :
  (forall j c, (c <= gapBefore j c)%Q) ->
  (start i + durationOf i <= start (S i))%Q.
Proof.
  intros Hgap. rewrite startAt_S. apply Hgap.
Qed.

End CadenceFacts.

(** Changing one duration by [delta] leaves the start times up to that
    unit alone and moves every later start time, and the final cursor, by
    [delta]. *)
Section CadenceShift.

Variable gapBefore : nat -> Q -> Q.
Variables d1 d2 : nat -> Q.
Variable k : nat.
Variable delta : Q.

Hypothesis gap_add : forall i c, (gapBefore i c == c + gapBefore i 0)%Q.
Hypothesis d2_at : (d2 k == d1 k + delta)%Q.
Hypothesis d2_other : forall i, i <> k -> (d2 i == d1 i)%Q.

Lemma startAt_shift (i : nat) :
  (startAt gapBefore d2 i
   == startAt gapBefore d1 i + if (k <? i)%nat then delta else 0)%Q.
Proof.
  induction i as [|i IH].
  - rewrite !startAt_0. cbn. lra.
  - rewrite !startAt_S.
    rewrite (gap_add (S i) (startAt gapBefore d2 i + d2 i)).
    rewrite (gap_add (S i) (startAt gapBefore d1 i + d1 i)).
    rewrite IH.
    destruct (Nat.ltb_spec k i) as [Hki|Hki];
      destruct (Nat.ltb_spec k (S i)) as [Hks|Hks]; try lia.
    + rewrite (d2_other i) by lia. lra.
    + assert (i = k) as -> by lia. rewrite d2_at. lra.
    + rewrite (d2_other i) by lia. lra.
Qed.

Lemma cursor_shift (n : nat) :
  (k < n)%nat ->
  (snd (cadence n gapBefore d2) == snd (cadence n gapBefore d1) + delta)%Q.
Proof.
  intros Hk. destruct n as [|n]; [lia|].
  rewrite !cadence_S. cbn [snd]. rewrite startAt_shift.
  destruct (Nat.ltb_spec k n) as [Hkn|Hkn].
  - rewrite (d2_other n) by lia. lra.
  - assert (n = k) as -> by lia. rewrite d2_at. lra.
Qed.

End CadenceShift.

(** ** The book-narration page: cadence *)

Module PageFacts.
Import Page.


(** No branch of the gap chain moves the cursor back. *)
Lemma gapBefore_mono (segments : list Segment) (i : nat) (cursor : Q) :
  (cursor <= gapBefore segments i cursor)%Q.
Proof.
  unfold gapBefore.
  destruct (segments !! (i - 1)%nat) as [prev|]; [|lra].
  destruct (segments !! i) as [curr|]; [|lra].
  repeat case_bool_decide; unfold GAP_NAR_TO_DLG, GAP_DLG_TO_NAR,
    GAP_DLG_TO_DLG; lra.
Qed.

Lemma duration_nonneg (buf : AudioBuffer) : (0 <= duration buf)%Q.
Proof.
  unfold duration, Qle. cbn. lia.
Qed.

Lemma durationOf_nonneg (segBuffers : list AudioBuffer) (i : nat) :
  (0 <= durationOf segBuffers i)%Q.
Proof.
  unfold durationOf. destruct (segBuffers !! i) as [buf|]; cbn; [|lra].
  apply duration_nonneg.
Qed.


Lemma gapBefore_add (segments : list Segment) (i : nat) (cursor : Q) :
  (gapBefore segments i cursor == cursor + gapBefore segments i 0)%Q.
Proof.
  unfold gapBefore.
  destruct (segments !! (i - 1)%nat) as [prev|]; [|lra].
  destruct (segments !! i) as [curr|]; [|lra].
  repeat case_bool_decide; lra.
Qed.


End PageFacts.

(** ** The screenplay cadence *)

Module ScriptFacts.
Import Script.

Lemma sceneGap_mono (dialogueLines : list ScriptDialogueLine) (i : nat)
    (cursor : Q) :
  (cursor <= gapBefore dialogueLines i cursor)%Q.
Proof.
  unfold gapBefore.
  destruct (dialogueLines !! (i - 1)%nat) as [prev|]; [|lra].
  destruct (dialogueLines !! i) as [curr|]; [|lra].
  case_bool_decide; unfold GAP_BETWEEN_SCENES, GAP_DLG_TO_DLG; lra.
Qed.

Lemma lineDuration_nonneg (lineDurations : list Q) (i : nat) :
  Forall (fun d => (0 <= d)%Q) lineDurations ->
  (0 <= Generate.durationOf lineDurations i)%Q.
Proof.
  intros Hall. unfold Generate.durationOf.
  destruct (lineDurations !! i) as [d|] eqn:Hd; cbn; [|lra].
  exact (Forall_lookup_1 _ _ _ _ Hall Hd).
Qed.

End ScriptFacts.

(** Every speech buffer is started on the context, at its start time. *)
Lemma startSegments_sources (segBuffers : list AudioBuffer)
    (startTimes : list Q) (offCtx : Offline.OfflineAudioContext) :
  Offline.ctx_sources (Page.startSegments segBuffers startTimes offCtx)
  = Offline.ctx_sources offCtx
    ++ imap (fun i buf =>
               Offline.mkSource buf (Some 1%Q) (default 0%Q (startTimes !! i)))
         segBuffers.
Proof.
  unfold Page.startSegments.
  rewrite <- (firstn_all segBuffers) at 2.
  generalize (le_n (List.length segBuffers)).
  generalize (List.length segBuffers) at 1 3 4 as n.
  induction n as [|n IH]; intros Hn.
  - cbn. now rewrite app_nil_r.
  - rewrite for_range_S.
    destruct (lookup_lt_is_Some_2 segBuffers n) as [buf Hbuf]; [lia|].
    rewrite Hbuf. cbn [Offline.start Offline.ctx_sources].
    rewrite IH by lia. rewrite (take_S_r _ _ _ Hbuf), imap_app, <- app_assoc.
    cbn [imap]. rewrite length_take_le by lia. now rewrite Nat.add_0_r.
Qed.

(** C2 (speech non-overlap).  In the page's schedule each clip, measured
    by the duration of its own decoded buffer, ends no later than the next
    unit starts, and the start times never decrease; the same holds of the
    sources the page starts for the clips of consecutive segments, each
    with the buffer it plays and the time it is started at; and in the
    route's line schedule each line, measured by its own entry of
    [lineDurations], ends no later than the next line starts, the start
    times never decreasing when no line duration is negative. *)
Theorem speech_non_overlap :
  (forall (segments : list Page.Segment) (segBuffers : list AudioBuffer)
          (i : nat) (t t' : Q),
     fst (Page.schedule segments segBuffers) !! i = Some t ->
     fst (Page.schedule segments segBuffers) !! S i = Some t' ->
     (forall buf : AudioBuffer,
        segBuffers !! i = Some buf -> (t + duration buf <= t')%Q)
     /\ (t <= t')%Q)
  /\ (forall (segments : list Page.Segment) (segBuffers : list AudioBuffer)
             (offCtx : Offline.OfflineAudioContext) (i : nat)
             (src src' : Offline.Source),
        (S i < List.length segments)%nat ->
        drop (List.length (Offline.ctx_sources offCtx))
          (Offline.ctx_sources
             (Page.startSegments segBuffers
                (fst (Page.schedule segments segBuffers)) offCtx)) !! i
        = Some src ->
        drop (List.length (Offline.ctx_sources offCtx))
          (Offline.ctx_sources
             (Page.startSegments segBuffers
                (fst (Page.schedule segments segBuffers)) offCtx)) !! S i
        = Some src' ->
        (Offline.src_when src + duration (Offline.src_buffer src)
         <= Offline.src_when src')%Q)
  /\ (forall (dialogueLines : list Script.ScriptDialogueLine)
             (lineDurations : list Q) (i : nat) (t t' : Q),
        fst (Generate.lineSchedule dialogueLines lineDurations) !! i = Some t ->
        fst (Generate.lineSchedule dialogueLines lineDurations) !! S i
        = Some t' ->
        (forall d : Q, lineDurations !! i = Some d -> (t + d <= t')%Q)
        /\ (Forall (fun d => (0 <= d)%Q) lineDurations -> (t <= t')%Q)).
Proof.
  assert (Hpage : forall (segments : list Page.Segment)
                         (segBuffers : list AudioBuffer) (i : nat),
             (forall buf : AudioBuffer,
                segBuffers !! i = Some buf ->
                (startAt (Page.gapBefore segments)
                   (Page.durationOf segBuffers) i + duration buf
                 <= startAt (Page.gapBefore segments)
                      (Page.durationOf segBuffers) (S i))%Q)
             /\ (startAt (Page.gapBefore segments)
                   (Page.durationOf segBuffers) i
                 <= startAt (Page.gapBefore segments)
                      (Page.durationOf segBuffers) (S i))%Q).
  { intros segments segBuffers i.
    pose proof (startAt_no_overlap (Page.gapBefore segments)
                  (Page.durationOf segBuffers) i
                  (PageFacts.gapBefore_mono segments)) as Hno.
    pose proof (PageFacts.durationOf_nonneg segBuffers i) as Hd.
    split; [|lra].
    intros buf Hbuf. unfold Page.durationOf in Hno at 2.
    rewrite Hbuf in Hno. exact Hno. }
  split; [|split].
  - intros segments segBuffers i t t' Ht Ht'. unfold Page.schedule in *.
    pose proof (lookup_lt_Some _ _ _ Ht') as Hlt.
    rewrite cadence_length in Hlt.
    rewrite cadence_lookup in Ht, Ht' by lia.
    injection Ht as <-. injection Ht' as <-.
    apply Hpage.
  - intros segments segBuffers offCtx i src src' Hlt.
    rewrite startSegments_sources, drop_app_length, !list_lookup_imap.
    unfold Page.schedule. rewrite !cadence_lookup by lia.
    destruct (segBuffers !! i) as [buf|] eqn:Hbuf; [|discriminate].
    destruct (segBuffers !! S i) as [buf'|]; [|discriminate].
    cbn. intros [= <-] [= <-]. cbn.
    exact (proj1 (Hpage segments segBuffers i) buf Hbuf).
  - intros dialogueLines lineDurations i t t' Ht Ht'.
    unfold Generate.lineSchedule in *.
    pose proof (lookup_lt_Some _ _ _ Ht') as Hlt.
    rewrite cadence_length in Hlt.
    rewrite cadence_lookup in Ht, Ht' by lia.
    injection Ht as <-. injection Ht' as <-.
    pose proof (startAt_no_overlap (Script.gapBefore dialogueLines)
                  (Generate.durationOf lineDurations) i
                  (ScriptFacts.sceneGap_mono dialogueLines)) as Hno.
    split.
    + intros d Hd. unfold Generate.durationOf in Hno at 2.
      rewrite Hd in Hno. exact Hno.
    + intros Hall.
      pose proof (ScriptFacts.lineDuration_nonneg lineDurations i Hall) as Hd.
      lra.
Qed.

Lemma speech_non_overlap_witness :
  (0 + duration (clip 8000) <= 0 + duration (clip 8000) + 0.22)%Q
  /\ (0 + duration (clip 8000) <= 0 + duration (clip 8000) + 0.22)%Q
  /\ (0 + 1 <= 0 + 1 + 0.12)%Q.
Proof.
  split; [|split].
  - exact (proj1 (proj1 speech_non_overlap example_segments example_buffers
                    0%nat 0%Q (0 + duration (clip 8000) + 0.22)%Q
                    eq_refl eq_refl)
             (clip 8000) eq_refl).
  - refine (proj1 (proj2 speech_non_overlap) example_segments example_buffers
              (Offline.mkContext 1 1 44100 []) 0%nat
              (Offline.mkSource (clip 8000) (Some 1%Q) 0%Q)
              (Offline.mkSource (clip 16000) (Some 1%Q)
                 (0 + duration (clip 8000) + 0.22)%Q)
              _ eq_refl eq_refl).
    vm_compute. lia.
  - exact (proj1 (proj2 (proj2 speech_non_overlap) example_lines
                    example_durations 0%nat 0%Q (0 + 1 + 0.12)%Q
                    eq_refl eq_refl)
             1%Q eq_refl).
Defined.

(** ** Decode failures of speech clips *)

Lemma decodeSegments_lookup decodeB64Audio (segmentsAudio : list string)
    (j : nat) :
  Page.decodeSegments decodeB64Audio segmentsAudio !! j
  = (fun b64 => default (createBuffer 1 1 44100) (decodeB64Audio b64))
    <$> segmentsAudio !! j.
Proof.
  unfold Page.decodeSegments. rewrite list_lookup_fmap.
  destruct (segmentsAudio !! j) as [b64|]; cbn; [|reflexivity].
  destruct (decodeB64Audio b64); reflexivity.
Qed.

(** C7, as the code has it (decode-failure isolation).  A speech clip that
    fails to decode is replaced by a one-frame silent buffer at 44100 Hz.
    The unit still gets its start time, the same one as if the clip were
    silence of length 0; it advances the cursor by 1/44100 s, so every later
    start time and the final cursor are 1/44100 s later than with silence of
    length 0; every clip that decodes is used as decoded and started on the
    rendering context at its start time. *)
Theorem decode_failure_isolation
    (decodeB64Audio : string -> option AudioBuffer)
    (segmentsAudio : list string) (segments : list Page.Segment)
    (k : nat) (b64 : string) :
  segmentsAudio !! k = Some b64 ->
  decodeB64Audio b64 = None ->
  let segBuffers := Page.decodeSegments decodeB64Audio segmentsAudio in
  let silent := <[k := createBuffer 1 0 44100]> segBuffers in
  segBuffers !! k = Some (createBuffer 1 1 44100)
  /\ (Page.durationOf segBuffers k == 1 # 44100)%Q
  /\ (forall j a buf,
        segmentsAudio !! j = Some a -> decodeB64Audio a = Some buf ->
        segBuffers !! j = Some buf
        /\ forall offCtx,
             Offline.mkSource buf (Some 1%Q)
               (default 0%Q (fst (Page.schedule segments segBuffers) !! j))
             ∈ Offline.ctx_sources
                 (Page.startSegments segBuffers
                    (fst (Page.schedule segments segBuffers)) offCtx))
  /\ (forall i, (i < List.length segments)%nat ->
        exists t t0,
          fst (Page.schedule segments segBuffers) !! i = Some t
          /\ fst (Page.schedule segments silent) !! i = Some t0
          /\ (t == t0 + if (k <? i)%nat then 1 # 44100 else 0)%Q)
  /\ ((k < List.length segments)%nat ->
      (snd (Page.schedule segments segBuffers)
       == snd (Page.schedule segments silent) + (1 # 44100))%Q).
Proof.
  intros Hk Hfail segBuffers silent.
  assert (Hat : segBuffers !! k = Some (createBuffer 1 1 44100)).
  { subst segBuffers. rewrite decodeSegments_lookup, Hk. cbn.
    now rewrite Hfail. }
  assert (Hd2 : (Page.durationOf segBuffers k
                 == Page.durationOf silent k + (1 # 44100))%Q).
  { unfold Page.durationOf. subst silent.
    rewrite list_lookup_insert_eq by (eapply lookup_lt_Some; exact Hat).
    rewrite Hat. reflexivity. }
  assert (Hother : forall i, i <> k ->
            (Page.durationOf segBuffers i == Page.durationOf silent i)%Q).
  { intros i Hi. unfold Page.durationOf. subst silent.
    rewrite list_lookup_insert_ne by congruence. reflexivity. }
  repeat apply conj.
  - exact Hat.
  - unfold Page.durationOf. rewrite Hat. reflexivity.
  - intros j a buf Ha Hbuf.
    assert (Hj : segBuffers !! j = Some buf).
    { subst segBuffers. rewrite decodeSegments_lookup, Ha. cbn.
      now rewrite Hbuf. }
    split; [exact Hj|]. intros offCtx.
    rewrite startSegments_sources, elem_of_app. right.
    apply elem_of_lookup_imap. exists j, buf. split; [reflexivity | exact Hj].
  - intros i Hi. unfold Page.schedule.
    rewrite !cadence_lookup by exact Hi. eexists _, _.
    split; [reflexivity|]. split; [reflexivity|].
    apply (startAt_shift (Page.gapBefore segments)
             (Page.durationOf silent) (Page.durationOf segBuffers) k
             (1 # 44100) (PageFacts.gapBefore_add segments) Hd2 Hother).
  - intros Hlt. unfold Page.schedule.
    apply (cursor_shift (Page.gapBefore segments)
             (Page.durationOf silent) (Page.durationOf segBuffers) k
             (1 # 44100) (PageFacts.gapBefore_add segments) Hd2 Hother).
    exact Hlt.
Qed.

(** With one corrupt clip among five the speech timeline is not as long as
    with silence of length 0 in its place. *)
Lemma decode_failure_not_zero_length :
  ~ (Page.totalDuration (snd (Page.schedule five_segments five_buffers)) []
     == Page.totalDuration
          (snd (Page.schedule five_segments
                  (<[2%nat := createBuffer 1 0 44100]> five_buffers))) [])%Q.
Proof.
  apply (bool_decide_unpack _). vm_compute. exact I.
Qed.

Lemma decode_failure_isolation_witness :
  (snd (Page.schedule five_segments five_buffers)
   == snd (Page.schedule five_segments
             (<[2%nat := createBuffer 1 0 44100]> five_buffers))
      + (1 # 44100))%Q.
Proof.
  refine (proj2 (proj2 (proj2 (proj2
    (decode_failure_isolation example_decode five_clips five_segments
       2%nat "!corrupt!" eq_refl eq_refl)))) _).
  vm_compute. lia.
Defined.

(** ** Render length *)

(** The screenplay page floors the length at one frame. *)
Lemma upload_renderLength_floor (totalDuration : Q) (sampleRate : positive) :
  1 <= Upload.renderLength totalDuration sampleRate.
Proof. unfold Upload.renderLength. lia. Qed.

Lemma upload_empty_input decodeB64Audio :
  Upload.mixAudio decodeB64Audio [] [] [] [] []
  = Some (Offline.mkContext 1 1 44100 []).
Proof. reflexivity. Qed.

(** C6 (empty-input floor), on the book-narration page.  With no segment
    and no effect the requested render length is [Math.ceil(0 * 44100) = 0]
    frames, and the rendering context cannot be created. *)
Theorem page_empty_input_no_floor
    (decodeB64Audio : string -> option AudioBuffer) :
  let segBuffers := Page.decodeSegments decodeB64Audio [] in
  let '(startTimes, cursor) := Page.schedule [] segBuffers in
  let sfxDecoded := Page.decodeSfx decodeB64Audio startTimes [] in
  Page.renderLength (Page.totalDuration cursor sfxDecoded)
    (Page.renderSampleRate segBuffers) = 0
  /\ Page.mixAudio decodeB64Audio [] [] [] = None.
Proof. split; reflexivity. Qed.

(** ** Effect normalisation *)

Lemma peakOf_nonneg (buffer : AudioBuffer) : (0 <= peakOf buffer)%Q.
Proof.
  unfold peakOf.
  apply (for_range_ind (fun _ peak => (0 <= peak)%Q)); [lra|].
  intros ch peak _ Hpeak.
  apply (for_range_ind (fun _ peak => (0 <= peak)%Q)); [exact Hpeak|].
  intros s peak' _ Hpeak'.
  destruct (Qltb peak' _) eqn:Hlt; [|exact Hpeak'].
  apply Qabs_nonneg.
Qed.

(** The peak is at least the magnitude of every sample. *)
Lemma peakOf_upper (buffer : AudioBuffer) (ch s : nat) (x : Q) :
  (ch < numberOfChannels buffer)%nat ->
  getChannelData buffer ch !! s = Some x ->
  (Qabs x <= peakOf buffer)%Q.
Proof.
  intros Hch Hx. unfold peakOf.
  refine (for_range_ind
    (fun n peak => (ch < n)%nat -> (Qabs x <= peak)%Q)
    (numberOfChannels buffer) _ _ _ _ Hch); [lia|].
  intros c peak Hc IH Hlt.
  set (data := getChannelData buffer c).
  assert (Hgrow : forall m p0,
            (p0 <= for_range m (fun s0 peak0 =>
                     let abs := Qabs (default 0%Q (data !! s0)) in
                     if Qltb peak0 abs then abs else peak0) p0)%Q).
  { intros m p0. apply (for_range_ind (fun _ p => (p0 <= p)%Q)); [lra|].
    intros s0 p _ Hp. cbv zeta. destruct (Qltb p _) eqn:Hlt0; [|exact Hp].
    apply Qltb_lt in Hlt0. lra. }
  destruct (decide (ch = c)) as [->|Hne].
  - pose proof (lookup_lt_Some _ _ _ Hx) as Hs. fold data in Hx, Hs.
    refine (for_range_ind
      (fun m p => (s < m)%nat -> (Qabs x <= p)%Q)
      (List.length data) _ _ _ _ Hs); [lia|].
    intros s0 p Hs0 IHs Hlt0. cbv zeta.
    destruct (decide (s = s0)) as [<-|Hne].
    + rewrite Hx. cbn [default from_option id].
      destruct (Qltb p (Qabs x)) eqn:Hcmp; [lra|].
      apply Qltb_ge in Hcmp. exact Hcmp.
    + assert (Hprev : (Qabs x <= p)%Q) by (apply IHs; lia).
      destruct (Qltb p _) eqn:Hcmp; [|exact Hprev].
      apply Qltb_lt in Hcmp. lra.
  - assert (Hprev : (Qabs x <= peak)%Q) by (apply IH; lia).
    eapply Qle_trans; [exact Hprev | apply Hgrow].
Qed.

(** C8 (silent-clip normalisation).  The peak is never negative; the gain
    is [TARGET_PEAK / peak] when the peak is positive and the fallback
    [TARGET_PEAK] when the peak is 0, when no sample is non-zero; no clip
    reaches the division with a zero divisor, so the gain is always a
    finite, positive number. *)
Theorem gain_never_divides_by_zero (buffer : AudioBuffer) :
  (0 <= peakOf buffer)%Q
  /\ ((0 < peakOf buffer)%Q ->
      gainValue buffer = Some (TARGET_PEAK / peakOf buffer)%Q)
  /\ ((peakOf buffer == 0)%Q -> gainValue buffer = Some TARGET_PEAK)
  /\ ((forall ch s x, (ch < numberOfChannels buffer)%nat ->
         getChannelData buffer ch !! s = Some x -> (x == 0)%Q) ->
      gainValue buffer = Some TARGET_PEAK)
  /\ exists gain, gainValue buffer = Some gain /\ (0 < gain)%Q.
Proof.
  pose proof (peakOf_nonneg buffer) as Hnn.
  assert (Hpos : (0 < peakOf buffer)%Q ->
                 gainValue buffer = Some (TARGET_PEAK / peakOf buffer)%Q).
  { intros Hp. unfold gainValue, js_div.
    rewrite (proj2 (Qltb_lt 0 (peakOf buffer)) Hp).
    destruct (Qeq_bool (peakOf buffer) 0) eqn:Heq; [|reflexivity].
    apply Qeq_bool_iff in Heq. lra. }
  assert (Hzero : (peakOf buffer == 0)%Q ->
                  gainValue buffer = Some TARGET_PEAK).
  { intros Hz. unfold gainValue.
    rewrite (proj2 (Qltb_ge 0 (peakOf buffer))); [reflexivity | lra]. }
  repeat apply conj; try assumption.
  - intros Hsilent. apply Hzero. apply Qle_antisym; [|exact Hnn].
    unfold peakOf.
    apply (for_range_ind (fun _ peak => (peak <= 0)%Q)); [lra|].
    intros ch peak Hch Hpeak.
    apply (for_range_ind (fun _ peak => (peak <= 0)%Q)); [exact Hpeak|].
    intros s peak' Hs Hpeak'.
    destruct (lookup_lt_is_Some_2 _ _ Hs) as [x Hx].
    rewrite Hx. cbn [default from_option id].
    destruct (Qltb peak' (Qabs x)) eqn:Hlt; [|exact Hpeak'].
    rewrite (Hsilent ch s x Hch Hx). change (Qabs 0) with 0%Q. lra.
  - destruct (Qlt_le_dec 0 (peakOf buffer)) as [Hp|Hz].
    + exists (TARGET_PEAK / peakOf buffer)%Q. split; [exact (Hpos Hp)|].
      apply Qlt_shift_div_l; [exact Hp|]. unfold TARGET_PEAK. lra.
    + exists TARGET_PEAK. split; [apply Hzero; lra|].
      unfold TARGET_PEAK. lra.
Qed.

Lemma gain_never_divides_by_zero_witness :
  gainValue (createBuffer 1 4 8000) = Some TARGET_PEAK
  /\ gainValue test_buf = Some (TARGET_PEAK / peakOf test_buf)%Q.
Proof.
  split.
  - apply (proj1 (proj2 (proj2
             (gain_never_divides_by_zero (createBuffer 1 4 8000))))).
    vm_compute. reflexivity.
  - apply (proj1 (proj2 (gain_never_divides_by_zero test_buf))).
    vm_compute. reflexivity.
Defined.

(** ** Render format *)

(** The screenplay page reads the format the same way. *)
Lemma upload_render_format decodeB64Audio (linesAudio : list string) :
  Upload.renderSampleRate (Upload.decodeLines decodeB64Audio linesAudio)
  = Page.renderSampleRate (Page.decodeSegments decodeB64Audio linesAudio)
  /\ Upload.renderChannels (Upload.decodeLines decodeB64Audio linesAudio)
     = Page.renderChannels (Page.decodeSegments decodeB64Audio linesAudio).
Proof. split; reflexivity. Qed.

(** C9, as the code has it (render format provenance).  The sample rate and
    channel count of the mixdown are those of the buffer in slot 0 of the
    speech buffers: the first clip's own values when it decodes, the
    placeholder's 44100 Hz mono when it does not, whatever the later clips
    decode to; 44100 Hz mono is also the format when there is no speech
    clip. *)
Theorem render_format_from_first_slot
    (decodeB64Audio : string -> option AudioBuffer) :
  let format audio :=
    (Page.renderSampleRate (Page.decodeSegments decodeB64Audio audio),
     Page.renderChannels (Page.decodeSegments decodeB64Audio audio)) in
  format [] = (44100%positive, 1%nat)
  /\ (forall first rest buf,
        decodeB64Audio first = Some buf ->
        format (first :: rest) = (sampleRate buf, numberOfChannels buf))
  /\ (forall first rest,
        decodeB64Audio first = None ->
        format (first :: rest) = (44100%positive, 1%nat)).
Proof.
  cbv zeta. repeat apply conj.
  - reflexivity.
  - intros first rest buf Hbuf.
    unfold Page.renderSampleRate, Page.renderChannels, Page.decodeSegments.
    cbn. rewrite Hbuf. reflexivity.
  - intros first rest Hfail.
    unfold Page.renderSampleRate, Page.renderChannels, Page.decodeSegments.
    cbn. rewrite Hfail. reflexivity.
Qed.

(** The first clip corrupt, the second one 48000 Hz stereo: the mixdown
    does not take the format of the clip that decoded. *)
Lemma render_format_not_from_later_clip :
  example_decode "!corrupt!" = None
  /\ example_decode "c3RlcmVv" = Some (createBuffer 2 (Z.to_nat 48000) 48000)
  /\ ~ (Page.renderSampleRate
          (Page.decodeSegments example_decode ["!corrupt!"; "c3RlcmVv"]%string)
        = sampleRate (createBuffer 2 (Z.to_nat 48000) 48000)
        /\ Page.renderChannels
             (Page.decodeSegments example_decode
                ["!corrupt!"; "c3RlcmVv"]%string)
           = numberOfChannels (createBuffer 2 (Z.to_nat 48000) 48000)).
Proof.
  repeat apply conj; try reflexivity. intros [Hrate _]. vm_compute in Hrate.
  discriminate.
Qed.

Lemma render_format_from_first_slot_witness :
  (Page.renderSampleRate
     (Page.decodeSegments example_decode ["c3RlcmVv"; "c2hvcnQ="]%string),
   Page.renderChannels
     (Page.decodeSegments example_decode ["c3RlcmVv"; "c2hvcnQ="]%string))
  = (48000%positive, 2%nat)
  /\ (Page.renderSampleRate
        (Page.decodeSegments example_decode ["!corrupt!"; "c3RlcmVv"]%string),
      Page.renderChannels
        (Page.decodeSegments example_decode ["!corrupt!"; "c3RlcmVv"]%string))
     = (44100%positive, 1%nat).
Proof.
  destruct (render_format_from_first_slot example_decode) as (_ & Hok & Hfail).
  split.
  - exact (Hok "c3RlcmVv"%string ["c2hvcnQ="%string]
             (createBuffer 2 (Z.to_nat 48000) 48000) eq_refl).
  - exact (Hfail "!corrupt!"%string ["c3RlcmVv"%string] eq_refl).
Defined.

(** ** Decode failures of overlays *)

(** C10 (failed overlays are skipped).  An effect, on either page, or a
    music cue that fails to decode adds no entry to the decoded overlays:
    they, and with them the render length and every source of the mix, are
    those of the list without it; no silent buffer stands in for it.  A
    speech clip that fails keeps its slot, filled by the placeholder
    buffer. *)
Theorem failed_overlay_is_skipped
    (decodeB64Audio : string -> option AudioBuffer) :
  (forall startTimes before sfx after,
     decodeB64Audio (Page.SfxItem.audioBase64 sfx) = None ->
     Page.decodeSfx decodeB64Audio startTimes (before ++ sfx :: after)
     = Page.decodeSfx decodeB64Audio startTimes (before ++ after))
  /\ (forall segmentsAudio segments before sfx after,
        decodeB64Audio (Page.SfxItem.audioBase64 sfx) = None ->
        Page.mixAudio decodeB64Audio segmentsAudio segments
          (before ++ sfx :: after)
        = Page.mixAudio decodeB64Audio segmentsAudio segments
            (before ++ after))
  /\ (forall sceneStartTimes before item after,
        decodeB64Audio (Script.ov_audioBase64 item) = None ->
        Upload.decodeOverlays decodeB64Audio sceneStartTimes
          (before ++ item :: after)
        = Upload.decodeOverlays decodeB64Audio sceneStartTimes
            (before ++ after))
  /\ (forall linesAudio dialogueLines sfxList musicList sceneStartTimes
             before item after,
        decodeB64Audio (Script.ov_audioBase64 item) = None ->
        Upload.mixAudio decodeB64Audio linesAudio dialogueLines
          (before ++ item :: after) musicList sceneStartTimes
        = Upload.mixAudio decodeB64Audio linesAudio dialogueLines
            (before ++ after) musicList sceneStartTimes
        /\ Upload.mixAudio decodeB64Audio linesAudio dialogueLines
             sfxList (before ++ item :: after) sceneStartTimes
           = Upload.mixAudio decodeB64Audio linesAudio dialogueLines
               sfxList (before ++ after) sceneStartTimes)
  /\ (forall before b64 after,
        decodeB64Audio b64 = None ->
        Page.decodeSegments decodeB64Audio (before ++ b64 :: after)
        = Page.decodeSegments decodeB64Audio before
          ++ createBuffer 1 1 44100
          :: Page.decodeSegments decodeB64Audio after).
Proof.
  assert (Hsfx : forall startTimes before sfx after,
            decodeB64Audio (Page.SfxItem.audioBase64 sfx) = None ->
            Page.decodeSfx decodeB64Audio startTimes (before ++ sfx :: after)
            = Page.decodeSfx decodeB64Audio startTimes (before ++ after)).
  { intros startTimes before sfx after Hfail. unfold Page.decodeSfx.
    rewrite !omap_app. cbn. rewrite Hfail. reflexivity. }
  assert (Hov : forall sceneStartTimes before item after,
            decodeB64Audio (Script.ov_audioBase64 item) = None ->
            Upload.decodeOverlays decodeB64Audio sceneStartTimes
              (before ++ item :: after)
            = Upload.decodeOverlays decodeB64Audio sceneStartTimes
                (before ++ after)).
  { intros sceneStartTimes before item after Hfail.
    unfold Upload.decodeOverlays.
    rewrite !omap_app. cbn. rewrite Hfail. reflexivity. }
  repeat apply conj.
  - exact Hsfx.
  - intros segmentsAudio segments before sfx after Hfail.
    unfold Page.mixAudio.
    destruct (Page.schedule segments _) as [startTimes cursor].
    rewrite (Hsfx startTimes before sfx after Hfail). reflexivity.
  - exact Hov.
  - intros linesAudio dialogueLines sfxList musicList sceneStartTimes
      before item after Hfail.
    unfold Upload.mixAudio.
    rewrite !(Hov sceneStartTimes before item after Hfail).
    split; reflexivity.
  - intros before b64 after Hfail. unfold Page.decodeSegments.
    rewrite fmap_app. cbn. rewrite Hfail. reflexivity.
Qed.

Lemma failed_overlay_is_skipped_witness :
  Page.decodeSfx example_decode [0; 1.22]%Q
    ([example_sfx 0 "c2hvcnQ="] ++ example_sfx 1 "!corrupt!"
       :: [example_sfx 7 "bG9uZw=="])
  = Page.decodeSfx example_decode [0; 1.22]%Q
      ([example_sfx 0 "c2hvcnQ="] ++ [example_sfx 7 "bG9uZw=="]).
Proof.
  apply (proj1 (failed_overlay_is_skipped example_decode)). reflexivity.
Defined.

(** ** Anchor interpolation *)

Module GenerateFacts.
Import Generate.

Lemma arr_get_nat {A : Type} (arr : list A) (i : nat) :
  arr_get arr (Z.of_nat i) = arr !! i.
Proof.
  unfold arr_get. destruct (Z.ltb_spec (Z.of_nat i) 0); [lia|].
  now rewrite Nat2Z.id.
Qed.

Lemma isNull_null (rawTimes : list (option Q)) (j : nat) :
  rawTimes !! j = Some None -> isNull rawTimes (Z.of_nat j) = true.
Proof. intros H. unfold isNull. now rewrite arr_get_nat, H. Qed.

Lemma isNull_anchor (rawTimes : list (option Q)) (j : nat) (t : Q) :
  rawTimes !! j = Some (Some t) -> isNull rawTimes (Z.of_nat j) = false.
Proof. intros H. unfold isNull. now rewrite arr_get_nat, H. Qed.

Lemma timeAt_anchor (rawTimes : list (option Q)) (j : nat) (t : Q) :
  rawTimes !! j = Some (Some t) -> timeAt rawTimes (Z.of_nat j) = t.
Proof. intros H. unfold timeAt. now rewrite arr_get_nat, H. Qed.

(** The backward scan stops on the nearest anchor before its start. *)
Lemma scanPrev_anchor (rawTimes : list (option Q)) (p : nat) (a : Q)
    (fuel m : nat) :
  rawTimes !! p = Some (Some a) ->
  (forall j, (p < j <= m)%nat -> rawTimes !! j = Some None) ->
  (p <= m)%nat -> (m - p < fuel)%nat ->
  scanPrev rawTimes fuel (Z.of_nat m) = Z.of_nat p.
Proof.
  intros Hp. revert m. induction fuel as [|fuel IH]; intros m Hnull Hpm Hfuel.
  - lia.
  - cbn [scanPrev]. destruct (decide (m = p)) as [->|Hne].
    + rewrite (isNull_anchor _ _ _ Hp), andb_false_r. reflexivity.
    + rewrite (isNull_null _ m) by (apply Hnull; lia).
      destruct (Z.leb_spec 0 (Z.of_nat m)); [|lia]. cbn [andb].
      replace (Z.of_nat m - 1) with (Z.of_nat (m - 1)) by lia.
      apply IH; [|lia|lia]. intros j Hj. apply Hnull. lia.
Qed.

(** With no anchor before its start it runs down to [-1]. *)
Lemma scanPrev_none (rawTimes : list (option Q)) (fuel : nat) (m : Z) :
  (forall j, (Z.of_nat j <= m) -> rawTimes !! j = Some None) ->
  -1 <= m -> m + 1 < Z.of_nat fuel ->
  scanPrev rawTimes fuel m = -1.
Proof.
  revert m. induction fuel as [|fuel IH]; intros m Hnull Hm Hfuel.
  - lia.
  - cbn [scanPrev]. destruct (Z.leb_spec 0 m) as [H0|H0].
    + replace m with (Z.of_nat (Z.to_nat m)) at 1 by lia.
      rewrite isNull_null by (apply Hnull; lia). cbn [andb].
      apply IH; [|lia|lia]. intros j Hj. apply Hnull. lia.
    + cbn [andb]. lia.
Qed.

(** The forward scan stops on the nearest anchor after its start. *)
Lemma scanNext_anchor (rawTimes : list (option Q)) (q : nat) (b : Q)
    (fuel m : nat) :
  rawTimes !! q = Some (Some b) ->
  (forall j, (m <= j < q)%nat -> rawTimes !! j = Some None) ->
  (m <= q)%nat -> (q - m < fuel)%nat ->
  scanNext rawTimes fuel (Z.of_nat m) = Z.of_nat q.
Proof.
  intros Hq. revert m. induction fuel as [|fuel IH]; intros m Hnull Hmq Hfuel.
  - lia.
  - cbn [scanNext]. destruct (decide (m = q)) as [->|Hne].
    + rewrite (isNull_anchor _ _ _ Hq), andb_false_r. reflexivity.
    + rewrite (isNull_null _ m) by (apply Hnull; lia).
      pose proof (lookup_lt_Some _ _ _ Hq) as Hlen.
      destruct (Z.ltb_spec (Z.of_nat m) (Z.of_nat (List.length rawTimes)));
        [|lia]. cbn [andb].
      replace (Z.of_nat m + 1) with (Z.of_nat (S m)) by lia.
      apply IH; [|lia|lia]. intros j Hj. apply Hnull. lia.
Qed.

(** With no anchor after its start it runs up to [rawTimes.length]. *)
Lemma scanNext_none (rawTimes : list (option Q)) (fuel m : nat) :
  (forall j, (m <= j < List.length rawTimes)%nat ->
     rawTimes !! j = Some None) ->
  (m <= List.length rawTimes)%nat -> (List.length rawTimes - m < fuel)%nat ->
  scanNext rawTimes fuel (Z.of_nat m) = Z.of_nat (List.length rawTimes).
Proof.
  revert m. induction fuel as [|fuel IH]; intros m Hnull Hm Hfuel.
  - lia.
  - cbn [scanNext].
    destruct (Z.ltb_spec (Z.of_nat m) (Z.of_nat (List.length rawTimes)))
      as [Hlt|Hge].
    + rewrite isNull_null by (apply Hnull; lia). cbn [andb].
      replace (Z.of_nat m + 1) with (Z.of_nat (S m)) by lia.
      apply IH; [|lia|lia]. intros j Hj. apply Hnull. lia.
    + cbn [andb]. lia.
Qed.

(** The scans leave their loops within the fuel [interpolate] gives them:
    on exit the loop condition is false. *)
Lemma scanPrev_exit (rawTimes : list (option Q)) (fuel : nat) (m : Z) :
  -1 <= m -> m + 1 < Z.of_nat fuel ->
  (0 <=? scanPrev rawTimes fuel m) && isNull rawTimes (scanPrev rawTimes fuel m)
  = false
  /\ -1 <= scanPrev rawTimes fuel m <= m.
Proof.
  revert m. induction fuel as [|fuel IH]; intros m Hm Hfuel; [lia|].
  cbn [scanPrev].
  destruct ((0 <=? m) && isNull rawTimes m) eqn:Hcond.
  - apply andb_true_iff in Hcond as [H0 _]. apply Z.leb_le in H0.
    destruct (IH (m - 1)) as [Hexit Hr]; [lia|lia|]. split; [exact Hexit|lia].
  - split; [exact Hcond|lia].
Qed.

Lemma scanNext_exit (rawTimes : list (option Q)) (fuel : nat) (m : Z) :
  m <= Z.of_nat (List.length rawTimes) ->
  Z.of_nat (List.length rawTimes) - m < Z.of_nat fuel ->
  (scanNext rawTimes fuel m <? Z.of_nat (List.length rawTimes))
  && isNull rawTimes (scanNext rawTimes fuel m) = false
  /\ m <= scanNext rawTimes fuel m <= Z.of_nat (List.length rawTimes).
Proof.
  revert m. induction fuel as [|fuel IH]; intros m Hm Hfuel; [lia|].
  cbn [scanNext].
  destruct ((m <? Z.of_nat (List.length rawTimes)) && isNull rawTimes m)
    eqn:Hcond.
  - apply andb_true_iff in Hcond as [Hlt _]. apply Z.ltb_lt in Hlt.
    destruct (IH (m + 1)) as [Hexit Hr]; [lia|lia|]. split; [exact Hexit|lia].
  - split; [exact Hcond|lia].
Qed.

(** The divisor of the interpolation is at least 2. *)
Lemma interpolate_span (rawTimes : list (option Q)) (i : nat) :
  (i < List.length rawTimes)%nat ->
  2 <= scanNext rawTimes (S (List.length rawTimes)) (Z.of_nat i + 1)
       - scanPrev rawTimes (S (List.length rawTimes)) (Z.of_nat i - 1).
Proof.
  intros Hi.
  destruct (scanPrev_exit rawTimes (S (List.length rawTimes)) (Z.of_nat i - 1))
    as [_ Hp]; [lia|lia|].
  destruct (scanNext_exit rawTimes (S (List.length rawTimes)) (Z.of_nat i + 1))
    as [_ Hn]; [lia|lia|].
  lia.
Qed.

Lemma sceneStartTimes_lookup (rawTimes : list (option Q)) (cursor : Q)
    (i : nat) :
  sceneStartTimes rawTimes cursor !! i
  = (fun t => match t with
              | Some t => t
              | None => interpolate rawTimes cursor i
              end) <$> rawTimes !! i.
Proof. unfold sceneStartTimes. apply list_lookup_imap. Qed.

(** C4 (interpolation between two anchors).  A scene without dialogue at
    position [i], whose nearest anchored scenes are at [p] before it and [q]
    after it, starts at
    [anchor(p) + ((i - p) / (q - p)) * (anchor(q) - anchor(p))];
    the scenes [anchored 0, none, none, anchored 9] start at [0, 3, 6, 9]. *)
Theorem interpolation_between_anchors :
  (forall (rawTimes : list (option Q)) (cursor : Q) (p i q : nat) (a b : Q),
     (p < i < q)%nat ->
     rawTimes !! p = Some (Some a) ->
     rawTimes !! q = Some (Some b) ->
     (forall j, (p < j < q)%nat -> rawTimes !! j = Some None) ->
     sceneStartTimes rawTimes cursor !! i
     = Some (a + (inject_Z (Z.of_nat i - Z.of_nat p)
                  / inject_Z (Z.of_nat q - Z.of_nat p)) * (b - a))%Q)
  /\ (forall cursor : Q,
        Qlist_eq (sceneStartTimes [Some 0; None; None; Some 9]%Q cursor)
          [0; 3; 6; 9]%Q).
Proof.
  split.
  - intros rawTimes cursor p i q a b Hi Hp Hq Hnull.
    pose proof (lookup_lt_Some _ _ _ Hq) as Hlen.
    rewrite sceneStartTimes_lookup, (Hnull i Hi).
    cbn [fmap option_fmap option_map].
    unfold interpolate.
    replace (Z.of_nat i - 1) with (Z.of_nat (i - 1)) by lia.
    replace (Z.of_nat i + 1) with (Z.of_nat (S i)) by lia.
    rewrite (scanPrev_anchor rawTimes p a) by
      (try assumption; try lia; intros j Hj; apply Hnull; lia).
    rewrite (scanNext_anchor rawTimes q b) by
      (try assumption; try lia; intros j Hj; apply Hnull; lia).
    destruct (Z.leb_spec 0 (Z.of_nat p)); [|lia].
    destruct (Z.ltb_spec (Z.of_nat q) (Z.of_nat (List.length rawTimes)));
      [|lia].
    rewrite (timeAt_anchor _ _ _ Hp), (timeAt_anchor _ _ _ Hq). reflexivity.
  - intros cursor. unfold Qlist_eq. vm_compute. repeat constructor.
Qed.

(** With no anchor before it a scene is interpolated from time 0 placed at
    position [-1]. *)
Lemma interpolation_no_leading_anchor (rawTimes : list (option Q))
    (cursor : Q) (i q : nat) (b : Q) :
  (i < q)%nat ->
  rawTimes !! q = Some (Some b) ->
  (forall j, (j < q)%nat -> rawTimes !! j = Some None) ->
  sceneStartTimes rawTimes cursor !! i
  = Some (0 + (inject_Z (Z.of_nat i - -1) / inject_Z (Z.of_nat q - -1))
              * (b - 0))%Q.
Proof.
  intros Hi Hq Hnull.
  pose proof (lookup_lt_Some _ _ _ Hq) as Hlen.
  rewrite sceneStartTimes_lookup, (Hnull i Hi).
  cbn [fmap option_fmap option_map]. unfold interpolate.
  replace (Z.of_nat i + 1) with (Z.of_nat (S i)) by lia.
  rewrite scanPrev_none by
    (try lia; intros j Hj; apply Hnull; lia).
  rewrite (scanNext_anchor rawTimes q b) by
    (try assumption; try lia; intros j Hj; apply Hnull; lia).
  destruct (Z.ltb_spec (Z.of_nat q) (Z.of_nat (List.length rawTimes)));
    [|lia].
  rewrite (timeAt_anchor _ _ _ Hq). reflexivity.
Qed.

(** C3, as the code has it (no trailing anchor).  A scene without dialogue
    at position [i] with its nearest anchor at [p] before it and no anchor
    after it is interpolated toward the final cursor placed one position
    past the last scene: with [n] scenes it starts at
    [anchor(p) + ((i - p) / (n - p)) * (cursor - anchor(p))].  The scenes
    [anchored 2, none] with the timeline ending at 10 start at [2, 6]. *)
Theorem interpolation_no_trailing_anchor :
  (forall (rawTimes : list (option Q)) (cursor : Q) (p i : nat) (a : Q),
     (p < i < List.length rawTimes)%nat ->
     rawTimes !! p = Some (Some a) ->
     (forall j, (p < j < List.length rawTimes)%nat ->
        rawTimes !! j = Some None) ->
     sceneStartTimes rawTimes cursor !! i
     = Some (a + (inject_Z (Z.of_nat i - Z.of_nat p)
                  / inject_Z (Z.of_nat (List.length rawTimes) - Z.of_nat p))
                 * (cursor - a))%Q)
  /\ Qlist_eq (sceneStartTimes [Some 2; None]%Q 10%Q) [2; 6]%Q.
Proof.
  split.
  - intros rawTimes cursor p i a Hi Hp Hnull.
    rewrite sceneStartTimes_lookup, (Hnull i Hi).
    cbn [fmap option_fmap option_map].
    unfold interpolate.
    replace (Z.of_nat i - 1) with (Z.of_nat (i - 1)) by lia.
    replace (Z.of_nat i + 1) with (Z.of_nat (S i)) by lia.
    rewrite (scanPrev_anchor rawTimes p a) by
      (try assumption; try lia; intros j Hj; apply Hnull; lia).
    rewrite scanNext_none by
      (try lia; intros j Hj; apply Hnull; lia).
    destruct (Z.leb_spec 0 (Z.of_nat p)); [|lia].
    rewrite Z.ltb_irrefl.
    rewrite (timeAt_anchor _ _ _ Hp). reflexivity.
  - apply (bool_decide_unpack _). vm_compute. exact I.
Qed.

(** The second scene of [anchored 2, none] does not start at 10. *)
Lemma interpolation_no_trailing_anchor_not_end :
  ~ Qlist_eq (sceneStartTimes [Some 2; None]%Q 10%Q) [2; 10]%Q.
Proof.
  apply (bool_decide_unpack _). vm_compute. exact I.
Qed.

Lemma interpolation_between_anchors_witness :
  sceneStartTimes [Some 0; None; None; Some 9]%Q 20%Q !! 1%nat
  = Some (0 + (inject_Z (Z.of_nat 1 - Z.of_nat 0)
               / inject_Z (Z.of_nat 3 - Z.of_nat 0)) * (9 - 0))%Q.
Proof.
  apply (proj1 interpolation_between_anchors
           [Some 0; None; None; Some 9]%Q 20%Q 0%nat 1%nat 3%nat 0%Q 9%Q);
    [lia | reflexivity | reflexivity |].
  intros j Hj. assert (j = 1 \/ j = 2)%nat as [-> | ->] by lia; reflexivity.
Defined.

Lemma interpolation_no_trailing_anchor_witness :
  sceneStartTimes [Some 2; None]%Q 10%Q !! 1%nat
  = Some (2 + (inject_Z (Z.of_nat 1 - Z.of_nat 0)
               / inject_Z (Z.of_nat 2 - Z.of_nat 0)) * (10 - 2))%Q.
Proof.
  apply (proj1 interpolation_no_trailing_anchor
           [Some 2; None]%Q 10%Q 0%nat 1%nat 2%Q);
    [cbn; lia | reflexivity |].
  intros j Hj. cbn in Hj. assert (j = 1)%nat as -> by lia. reflexivity.
Defined.

End GenerateFacts.

(** ** Bytes *)

Lemma le16_recompose (x : Z) :
  0 <= x < 65536 -> x mod 256 + 256 * ((x / 256) mod 256) = x.
Proof. intros. Z.to_euclidean_division_equations. lia. Qed.

Lemma le32_recompose (x : Z) :
  0 <= x < 4294967296 ->
  x mod 256 + 256 * ((x / 256) mod 256) + 65536 * ((x / 65536) mod 256)
  + 16777216 * ((x / 16777216) mod 256) = x.
Proof. intros. Z.to_euclidean_division_equations. lia. Qed.

Module DataViewFacts.

Lemma length_setUint8 v off x :
  List.length (setUint8 v off x) = List.length v.
Proof. apply length_insert. Qed.

Lemma length_setUint16 v off x :
  List.length (setUint16 v off x) = List.length v.
Proof. unfold setUint16. now rewrite !length_setUint8. Qed.

Lemma length_setUint32 v off x :
  List.length (setUint32 v off x) = List.length v.
Proof. unfold setUint32. now rewrite !length_setUint8. Qed.

Lemma length_setInt16 v off x :
  List.length (setInt16 v off x) = List.length v.
Proof. apply length_setUint16. Qed.

Lemma getUint8_setUint8_ne v off x j :
  off <> j -> getUint8 (setUint8 v off x) j = getUint8 v j.
Proof.
  intros. unfold getUint8, setUint8. now rewrite list_lookup_insert_ne.
Qed.

Lemma getUint8_setUint8_eq v off x :
  (off < List.length v)%nat -> getUint8 (setUint8 v off x) off = x mod 256.
Proof.
  intros. unfold getUint8, setUint8. now rewrite list_lookup_insert_eq.
Qed.

(** A 16-bit write leaves every byte outside its two cells alone. *)
Lemma getUint8_setUint16_ne v off x j :
  j <> off -> j <> (off + 1)%nat ->
  getUint8 (setUint16 v off x) j = getUint8 v j.
Proof.
  intros. unfold setUint16. rewrite !getUint8_setUint8_ne; auto.
Qed.

Lemma getUint16_setUint16_eq v off x :
  (off + 1 < List.length v)%nat ->
  getUint16 (setUint16 v off x) off = x mod 65536.
Proof.
  intros Hlen. unfold getUint16, setUint16.
  rewrite getUint8_setUint8_ne by lia.
  rewrite !getUint8_setUint8_eq by (rewrite ?length_setUint8; lia).
  apply le16_recompose. apply Z.mod_pos_bound. lia.
Qed.

Lemma getUint16_setUint16_ne v off x j :
  (j + 1 < off)%nat \/ (off + 1 < j)%nat ->
  getUint16 (setUint16 v off x) j = getUint16 v j.
Proof.
  intros. unfold getUint16. rewrite !getUint8_setUint16_ne by lia. reflexivity.
Qed.

End DataViewFacts.

(** ** The encoder: header and samples *)

Module WavFacts.
Import DataViewFacts Wav.

(** The header writes, run on the fresh buffer. *)
Lemma header_written (buf : AudioBuffer) :
  let numCh := numberOfChannels buf in
  let sr := Z.pos (sampleRate buf) in
  let dataSize := (WebAudio.length buf * numCh * 2)%nat in
  exists v0,
    audioBufferToWav buf
    = snd (for_range (WebAudio.length buf) (fun f st =>
             for_range numCh (fun ch st => writeSample buf f ch st) st)
           (44%nat, v0))
    /\ v0 = header (Z.of_nat numCh) sr (Z.of_nat dataSize)
            ++ replicate dataSize 0.
Proof.
  intros numCh sr dataSize. eexists. split.
  - unfold audioBufferToWav. reflexivity.
  - reflexivity.
Qed.

(** A frame/channel pair is determined by its interleaved position. *)
Lemma interleave_inj (f' ch' f ch C : nat) :
  (ch' < C)%nat -> (ch < C)%nat -> (f' * C + ch' = f * C + ch)%nat ->
  f' = f /\ ch' = ch.
Proof.
  intros H' H Heq.
  assert (f' = f) as ->.
  { destruct (Nat.lt_trichotomy f' f) as [Hlt|[He|Hgt]];
      [exfalso; nia | exact He | exfalso; nia]. }
  split; [reflexivity | lia].
Qed.

Lemma written_step buf v0 f ch st :
  (ch < numberOfChannels buf)%nat ->
  (44 + 2 * (f * numberOfChannels buf + ch) + 1 < List.length v0)%nat ->
  written buf v0 (f * numberOfChannels buf + ch) st ->
  written buf v0 (f * numberOfChannels buf + Datatypes.S ch)
    (writeSample buf f ch st).
Proof.
  unfold written. generalize (numberOfChannels buf) as C.
  intros C Hch Hlen (Hoff & Hl & Htake & Hs). destruct st as [off v].
  cbn [fst snd] in *. subst off. unfold writeSample. cbn [fst snd].
  split; [lia|]. split; [now rewrite length_setInt16|].
  split.
  { unfold setInt16, setUint16, setUint8.
    rewrite !take_insert_ge by lia. exact Htake. }
  intros f' ch' Hch' Hk.
  destruct (decide (f' * C + ch' = f * C + ch)%nat) as [Heq|Hne].
  - destruct (interleave_inj f' ch' f ch C Hch' Hch Heq) as [-> ->].
    unfold setInt16. rewrite getUint16_setUint16_eq by lia.
    destruct (getChannelData buf ch !! f); reflexivity.
  - unfold setInt16. rewrite getUint16_setUint16_ne by lia.
    apply Hs; [assumption | lia].
Qed.

Lemma written_all buf v0 :
  List.length v0
  = (44 + WebAudio.length buf * numberOfChannels buf * 2)%nat ->
  written buf v0 (WebAudio.length buf * numberOfChannels buf)
    (for_range (WebAudio.length buf) (fun f st =>
       for_range (numberOfChannels buf)
         (fun ch st => writeSample buf f ch st) st) (44%nat, v0)).
Proof.
  intros Hlen.
  apply (for_range_ind
           (fun f st => written buf v0 (f * numberOfChannels buf) st)).
  - repeat split; intros; cbn [fst snd] in *; lia.
  - intros f st Hf Hinv.
    replace (Datatypes.S f * numberOfChannels buf)%nat
      with (f * numberOfChannels buf + numberOfChannels buf)%nat by lia.
    apply (for_range_ind
             (fun ch st => written buf v0 (f * numberOfChannels buf + ch) st)).
    + now rewrite Nat.add_0_r.
    + intros ch st' Hch Hinv'. apply written_step; [exact Hch| |exact Hinv'].
      nia.
Qed.

(** [clamp] written with comparisons; the two agree up to [==]. *)
Lemma clamp_cases (x : Q) :
  (clamp x == if Qltb x (-1) then -1 else if Qltb 1 x then 1 else x)%Q.
Proof.
  unfold clamp.
  destruct (Qltb x (-1)) eqn:Hlo; [apply Qltb_lt in Hlo | apply Qltb_ge in Hlo];
  (destruct (Qltb 1 x) eqn:Hhi; [apply Qltb_lt in Hhi | apply Qltb_ge in Hhi]);
  destruct (Q.min_spec 1 x) as [[? ->]|[? ->]];
  match goal with |- (Qmax ?a ?b == _)%Q =>
    destruct (Q.max_spec a b) as [[? ->]|[? ->]] end; lra.
Qed.

Lemma clamp_bounds (x : Q) : (-1 <= clamp x <= 1)%Q.
Proof.
  rewrite clamp_cases.
  destruct (Qltb x (-1)) eqn:Hlo; [lra | apply Qltb_ge in Hlo].
  destruct (Qltb 1 x) eqn:Hhi; [lra | apply Qltb_ge in Hhi]. lra.
Qed.

Lemma scale_comp (x y : Q) : (x == y)%Q -> (scale x == scale y)%Q.
Proof.
  intros Hxy. unfold scale, Qltb.
  rewrite (Qleb_comp 0%Q 0%Q (Qeq_refl 0%Q) x y Hxy).
  destruct (negb _); now rewrite Hxy.
Qed.

(** The code's sample conversion is the one the spec words describe. *)
Lemma sample16_spec (x : Q) : Qtrunc (scale (clamp x)) = spec_sample16 x.
Proof.
  unfold spec_sample16.
  rewrite (scale_comp _ _ (clamp_cases x)). unfold scale.
  destruct (Qltb _ 0); reflexivity.
Qed.

Lemma sample16_range (x : Q) : -32768 <= Qtrunc (scale (clamp x)) <= 32767.
Proof.
  pose proof (clamp_bounds x) as Hc. apply Qtrunc_bounds; unfold scale;
    (destruct (Qltb (clamp x) 0) eqn:Hneg;
       [apply Qltb_lt in Hneg | apply Qltb_ge in Hneg]);
    change (inject_Z (-32768)) with (-32768)%Q;
    change (inject_Z 32767) with 32767%Q; lra.
Qed.

Lemma getUint8_take (v : list Z) (n j : nat) :
  (j < n)%nat -> getUint8 (take n v) j = getUint8 v j.
Proof. intros. unfold getUint8. now rewrite lookup_take_lt. Qed.

Lemma getUint16_take (v : list Z) (n j : nat) :
  (j + 1 < n)%nat -> getUint16 (take n v) j = getUint16 v j.
Proof.
  intros. unfold getUint16. rewrite !getUint8_take by lia. reflexivity.
Qed.

Lemma getUint32_take (v : list Z) (n j : nat) :
  (j + 3 < n)%nat -> getUint32 (take n v) j = getUint32 v j.
Proof.
  intros. unfold getUint32. rewrite !getUint8_take by lia. reflexivity.
Qed.

Lemma getString_take (v : list Z) (n off len : nat) :
  (off + len <= n)%nat -> getString (take n v) off len = getString v off len.
Proof.
  intros. unfold getString.
  replace n with (off + (n - off))%nat by lia.
  rewrite <- take_drop_commute, take_take. f_equal. lia.
Qed.

Lemma getUint8_app_r (pre l : list Z) (k : nat) :
  getUint8 (pre ++ l) (List.length pre + k) = getUint8 l k.
Proof.
  unfold getUint8. rewrite (lookup_app_r pre) by lia.
  replace (List.length pre + k - List.length pre)%nat with k by lia.
  reflexivity.
Qed.

Lemma le16_read (x : Z) (pre post : list Z) (off : nat) :
  List.length pre = off -> 0 <= x < 65536 ->
  getUint16 (pre ++ le16 x ++ post) off = x.
Proof.
  intros <- Hx. unfold getUint16.
  rewrite <- (Nat.add_0_r (List.length pre)) at 1.
  rewrite !getUint8_app_r. unfold le16, getUint8.
  cbn [app lookup list_lookup default from_option id].
  rewrite (Z.mod_small x) by lia. apply le16_recompose. exact Hx.
Qed.

Lemma le32_read (x : Z) (pre post : list Z) (off : nat) :
  List.length pre = off -> 0 <= x < 4294967296 ->
  getUint32 (pre ++ le32 x ++ post) off = x.
Proof.
  intros <- Hx. unfold getUint32.
  rewrite <- (Nat.add_0_r (List.length pre)) at 1.
  rewrite !getUint8_app_r. unfold le32, getUint8.
  cbn [app lookup list_lookup default from_option id].
  rewrite (Z.mod_small x) by lia. apply le32_recompose. exact Hx.
Qed.

(** C5 (container encoding).  For a buffer of [L] frames, [C] channels and
    sample rate [R] the encoder returns exactly [44 + L*C*2] bytes.  The
    first 44 are the header: the four tags, fmt size 16, PCM tag 1 and bit
    depth 16, and, each read back whenever the value fits the width of its
    field, RIFF size [36 + L*C*2], data size [L*C*2], channel count [C],
    block align [C*2], sample rate [R] and byte rate [R*C*2].  The
    interleaved samples follow, sample [f] of channel [ch] at byte
    [44 + 2*(f*C + ch)], each clamped to [-1, 1] and converted to a signed
    16-bit integer with scale 32768 below zero and 32767 otherwise. *)
Theorem audioBufferToWav_container (buf : AudioBuffer) :
  let C := Z.of_nat (numberOfChannels buf) in
  let R := Z.pos (sampleRate buf) in
  let L := Z.of_nat (WebAudio.length buf) in
  let out := audioBufferToWav buf in
  Z.of_nat (List.length out) = 44 + L * C * 2
  /\ getString out 0 4 = charCodes "RIFF"
  /\ getString out 8 4 = charCodes "WAVE"
  /\ getString out 12 4 = charCodes "fmt "
  /\ getString out 36 4 = charCodes "data"
  /\ getUint32 out 16 = 16
  /\ getUint16 out 20 = 1
  /\ getUint16 out 34 = 16
  /\ (36 + L * C * 2 < 4294967296 ->
      getUint32 out 4 = 36 + L * C * 2 /\ getUint32 out 40 = L * C * 2)
  /\ (C * 2 < 65536 -> getUint16 out 22 = C /\ getUint16 out 32 = C * 2)
  /\ (R < 4294967296 -> getUint32 out 24 = R)
  /\ (R * C * 2 < 4294967296 -> getUint32 out 28 = R * C * 2)
  /\ forall (f ch : nat) (x : Q),
       (f < WebAudio.length buf)%nat -> (ch < numberOfChannels buf)%nat ->
       getChannelData buf ch !! f = Some x ->
       getInt16 out (44 + 2 * (f * numberOfChannels buf + ch)) = spec_sample16 x
       /\ -32768 <= spec_sample16 x <= 32767.
Proof.
  intros C R L out.
  destruct (header_written buf) as (v0 & Hout & Hv0).
  cbv zeta in Hout, Hv0.
  assert (Hlen0 : List.length v0
                  = (44 + WebAudio.length buf * numberOfChannels buf * 2)%nat).
  { rewrite Hv0, length_app, length_replicate. reflexivity. }
  destruct (written_all buf v0 Hlen0) as (_ & Hlen & Htake & Hsamples).
  rewrite <- Hout in Hlen, Htake, Hsamples. fold out in Hlen, Htake, Hsamples.
  assert (Hhdr : take 44 out
                 = header C R (Z.of_nat (WebAudio.length buf
                                         * numberOfChannels buf * 2))).
  { rewrite Htake, Hv0. now apply take_app_length'. }
  assert (Hds : Z.of_nat (WebAudio.length buf * numberOfChannels buf * 2)
                = L * C * 2) by (subst L C; lia).
  rewrite Hds in Hhdr. clear Hds.
  assert (0 <= C) by (subst C; lia). assert (0 <= L) by (subst L; lia).
  assert (0 < R) by (subst R; lia).
  assert (0 <= L * C) by nia. assert (0 <= R * C) by nia.
  split; [rewrite Hlen, Hlen0; subst L C; lia|].
  repeat apply conj.
  - rewrite <- (getString_take out 44) by lia. now rewrite Hhdr.
  - rewrite <- (getString_take out 44) by lia. now rewrite Hhdr.
  - rewrite <- (getString_take out 44) by lia. now rewrite Hhdr.
  - rewrite <- (getString_take out 44) by lia. now rewrite Hhdr.
  - rewrite <- (getUint32_take out 44) by lia. now rewrite Hhdr.
  - rewrite <- (getUint16_take out 44) by lia. now rewrite Hhdr.
  - rewrite <- (getUint16_take out 44) by lia. now rewrite Hhdr.
  - intros Hfit. rewrite <- !(getUint32_take out 44) by lia. rewrite Hhdr.
    split.
    + refine (le32_read (36 + L * C * 2) [82; 73; 70; 70] _ 4 eq_refl _). lia.
    + refine (le32_read (L * C * 2) ([82; 73; 70; 70] ++ le32 (36 + L * C * 2)
                ++ [87; 65; 86; 69; 102; 109; 116; 32] ++ le32 16 ++ le16 1
                ++ le16 C ++ le32 R ++ le32 (R * C * 2) ++ le16 (C * 2)
                ++ le16 16 ++ [100; 97; 116; 97]) [] 40 eq_refl _). lia.
  - intros Hfit. rewrite <- !(getUint16_take out 44) by lia. rewrite Hhdr.
    split.
    + refine (le16_read C ([82; 73; 70; 70] ++ le32 (36 + L * C * 2)
                ++ [87; 65; 86; 69; 102; 109; 116; 32] ++ le32 16 ++ le16 1)
                _ 22 eq_refl _). lia.
    + refine (le16_read (C * 2) ([82; 73; 70; 70] ++ le32 (36 + L * C * 2)
                ++ [87; 65; 86; 69; 102; 109; 116; 32] ++ le32 16 ++ le16 1
                ++ le16 C ++ le32 R ++ le32 (R * C * 2)) _ 32 eq_refl _). lia.
  - intros Hfit. rewrite <- (getUint32_take out 44) by lia. rewrite Hhdr.
    refine (le32_read R ([82; 73; 70; 70] ++ le32 (36 + L * C * 2)
              ++ [87; 65; 86; 69; 102; 109; 116; 32] ++ le32 16 ++ le16 1
              ++ le16 C) _ 24 eq_refl _). lia.
  - intros Hfit. rewrite <- (getUint32_take out 44) by lia. rewrite Hhdr.
    refine (le32_read (R * C * 2) ([82; 73; 70; 70] ++ le32 (36 + L * C * 2)
              ++ [87; 65; 86; 69; 102; 109; 116; 32] ++ le32 16 ++ le16 1
              ++ le16 C ++ le32 R) _ 28 eq_refl _). lia.
  - intros f ch x Hf Hch Hx.
    pose proof (sample16_range x) as Hr. rewrite sample16_spec in Hr.
    split; [|exact Hr].
    unfold getInt16. rewrite Hsamples by (try assumption; nia).
    rewrite Hx. cbn [from_option]. rewrite sample16_spec.
    destruct (Z.ltb_spec (spec_sample16 x mod 65536) 32768);
      Z.to_euclidean_division_equations; lia.
Qed.

Lemma audioBufferToWav_container_witness :
  Z.of_nat (List.length (audioBufferToWav test_buf)) = 44 + 3 * 2 * 2
  /\ getUint32 (audioBufferToWav test_buf) 4 = 36 + 3 * 2 * 2
  /\ getUint16 (audioBufferToWav test_buf) 22 = 2
  /\ getUint32 (audioBufferToWav test_buf) 24 = 44100
  /\ getUint32 (audioBufferToWav test_buf) 28 = 44100 * 2 * 2
  /\ getInt16 (audioBufferToWav test_buf) (44 + 2 * (2 * 2 + 1))
     = spec_sample16 (-7).
Proof.
  destruct (audioBufferToWav_container test_buf)
    as (Hlen & _ & _ & _ & _ & _ & _ & _ & Hsize & Hch & Hsr & Hrate & Hs).
  repeat apply conj.
  - exact Hlen.
  - apply Hsize. vm_compute. reflexivity.
  - apply Hch. vm_compute. reflexivity.
  - apply Hsr. vm_compute. reflexivity.
  - apply Hrate. vm_compute. reflexivity.
  - apply (Hs 2%nat 1%nat (-7)%Q); [cbn; lia | cbn; lia | reflexivity].
Defined.

(** The route's encoder puts the same header in front of the PCM bytes it is
    given: stereo, 48000 Hz, for the music stream. *)
Lemma pcmToWav_music (pcm : list Z) :
  36 + Z.of_nat (List.length pcm) < 4294967296 ->
  Generate.pcmToWav pcm 2 48000
  = Some (header 2 48000 (Z.of_nat (List.length pcm)) ++ pcm).
Proof.
  intros Hfit. unfold Generate.pcmToWav, Generate.writeUInt32LE,
    Generate.writeUInt16LE.
  rewrite (bool_decide_eq_true_2 (0 <= 36 + Z.of_nat (List.length pcm)
                                  < 4294967296)) by lia.
  rewrite (bool_decide_eq_true_2 (0 <= Z.of_nat (List.length pcm)
                                  < 4294967296)) by lia.
  reflexivity.
Qed.

End WavFacts.

(** * Further properties *)

(** ** Anchor interpolation: bounds and order *)

Module InterpolationFacts.
Import Generate GenerateFacts.

Lemma isNull_true_inv (rawTimes : list (option Q)) (j : Z) :
  isNull rawTimes j = true -> 0 <= j /\ rawTimes !! Z.to_nat j = Some None.
Proof.
  unfold isNull, arr_get. destruct (Z.ltb_spec j 0); [discriminate|].
  destruct (rawTimes !! Z.to_nat j) as [[t|]|]; try discriminate.
  intros _. split; [lia | reflexivity].
Qed.

Lemma isNull_false_inv (rawTimes : list (option Q)) (j : Z) :
  isNull rawTimes j = false -> 0 <= j < Z.of_nat (List.length rawTimes) ->
  exists t, rawTimes !! Z.to_nat j = Some (Some t).
Proof.
  unfold isNull, arr_get. intros Hn Hj.
  destruct (Z.ltb_spec j 0); [lia|].
  destruct (lookup_lt_is_Some_2 rawTimes (Z.to_nat j)) as [x Hx]; [lia|].
  rewrite Hx in Hn |- *. destruct x as [t|]; [eauto | discriminate].
Qed.

(** What the backward scan returns: the nearest position at or below its
    start that holds an anchor, or [-1]; every position it passed is [null]. *)
Lemma scanPrev_spec (rawTimes : list (option Q)) (fuel : nat) (m : Z) :
  -1 <= m < Z.of_nat (List.length rawTimes) -> m + 1 < Z.of_nat fuel ->
  -1 <= scanPrev rawTimes fuel m <= m
  /\ (forall j : nat, scanPrev rawTimes fuel m < Z.of_nat j <= m ->
        rawTimes !! j = Some None)
  /\ (scanPrev rawTimes fuel m = -1
      \/ exists a, rawTimes !! Z.to_nat (scanPrev rawTimes fuel m)
                   = Some (Some a)
                   /\ 0 <= scanPrev rawTimes fuel m).
Proof.
  revert m. induction fuel as [|fuel IH]; intros m Hm Hfuel; [lia|].
  cbn [scanPrev].
  destruct ((0 <=? m) && isNull rawTimes m) eqn:Hcond.
  - apply andb_true_iff in Hcond as [H0 Hnull]. apply Z.leb_le in H0.
    apply isNull_true_inv in Hnull as [_ Hnull].
    destruct (IH (m - 1)) as (Hr & Hbetween & Hend); [lia|lia|].
    repeat apply conj; [lia|lia| |exact Hend].
    intros j Hj. destruct (decide (Z.of_nat j = m)) as [<-|Hne].
    + now rewrite Nat2Z.id in Hnull.
    + apply Hbetween. lia.
  - repeat apply conj; [lia|lia|intros j Hj; lia|].
    apply andb_false_iff in Hcond as [H0|Hnull].
    + left. apply Z.leb_gt in H0. lia.
    + destruct (Z.leb_spec 0 m) as [Hpos|Hneg]; [right | left; lia].
      destruct (isNull_false_inv _ _ Hnull) as [a Ha]; [lia|]. eauto.
Qed.

(** What the forward scan returns: the nearest position at or above its
    start that holds an anchor, or the array length. *)
Lemma scanNext_spec (rawTimes : list (option Q)) (fuel : nat) (m : Z) :
  0 <= m <= Z.of_nat (List.length rawTimes) ->
  Z.of_nat (List.length rawTimes) - m < Z.of_nat fuel ->
  m <= scanNext rawTimes fuel m <= Z.of_nat (List.length rawTimes)
  /\ (forall j : nat, m <= Z.of_nat j < scanNext rawTimes fuel m ->
        rawTimes !! j = Some None)
  /\ (scanNext rawTimes fuel m = Z.of_nat (List.length rawTimes)
      \/ exists b, rawTimes !! Z.to_nat (scanNext rawTimes fuel m)
                   = Some (Some b)
                   /\ scanNext rawTimes fuel m
                      < Z.of_nat (List.length rawTimes)).
Proof.
  revert m. induction fuel as [|fuel IH]; intros m Hm Hfuel; [lia|].
  cbn [scanNext].
  destruct ((m <? Z.of_nat (List.length rawTimes)) && isNull rawTimes m)
    eqn:Hcond.
  - apply andb_true_iff in Hcond as [Hlt Hnull]. apply Z.ltb_lt in Hlt.
    apply isNull_true_inv in Hnull as [_ Hnull].
    destruct (IH (m + 1)) as (Hr & Hbetween & Hend); [lia|lia|].
    repeat apply conj; [lia|lia| |exact Hend].
    intros j Hj. destruct (decide (Z.of_nat j = m)) as [<-|Hne].
    + now rewrite Nat2Z.id in Hnull.
    + apply Hbetween. lia.
  - repeat apply conj; [lia|lia|intros j Hj; lia|].
    apply andb_false_iff in Hcond as [Hlt|Hnull].
    + left. apply Z.ltb_ge in Hlt. lia.
    + destruct (Z.ltb_spec m (Z.of_nat (List.length rawTimes)))
        as [Hin|Hout]; [right | left; lia].
      destruct (isNull_false_inv _ _ Hnull) as [b Hb]; [lia|]. eauto.
Qed.

(** More fuel than a scan needs does not change its result. *)
Lemma scanPrev_fuel (rawTimes : list (option Q)) (fuel fuel' : nat) (m : Z) :
  -1 <= m -> m + 1 < Z.of_nat fuel -> m + 1 < Z.of_nat fuel' ->
  scanPrev rawTimes fuel m = scanPrev rawTimes fuel' m.
Proof.
  revert fuel' m. induction fuel as [|fuel IH]; intros fuel' m Hm H1 H2; [lia|].
  destruct fuel' as [|fuel']; [lia|]. cbn [scanPrev].
  destruct ((0 <=? m) && isNull rawTimes m) eqn:Hcond; [|reflexivity].
  apply andb_true_iff in Hcond as [H0 _]. apply Z.leb_le in H0.
  apply IH; lia.
Qed.

Lemma scanNext_fuel (rawTimes : list (option Q)) (fuel fuel' : nat) (m : Z) :
  m <= Z.of_nat (List.length rawTimes) ->
  Z.of_nat (List.length rawTimes) - m < Z.of_nat fuel ->
  Z.of_nat (List.length rawTimes) - m < Z.of_nat fuel' ->
  scanNext rawTimes fuel m = scanNext rawTimes fuel' m.
Proof.
  revert fuel' m. induction fuel as [|fuel IH]; intros fuel' m Hm H1 H2; [lia|].
  destruct fuel' as [|fuel']; [lia|]. cbn [scanNext].
  destruct ((m <? Z.of_nat (List.length rawTimes)) && isNull rawTimes m)
    eqn:Hcond; [|reflexivity].
  apply andb_true_iff in Hcond as [Hlt _]. apply Z.ltb_lt in Hlt.
  apply IH; lia.
Qed.

Lemma inject_Z_pos (s : Z) : 0 < s -> (0 < inject_Z s)%Q.
Proof. intros. unfold Qlt. cbn. lia. Qed.

Lemma frac_bounds (k s : Z) :
  0 <= k <= s -> 0 < s -> (0 <= inject_Z k / inject_Z s <= 1)%Q.
Proof.
  intros Hk Hs. pose proof (inject_Z_pos s Hs) as Hpos. split.
  - apply Qle_shift_div_l; [exact Hpos|]. rewrite Qmult_0_l.
    unfold Qle. cbn. lia.
  - apply Qle_shift_div_r; [exact Hpos|]. rewrite Qmult_1_l.
    unfold Qle. cbn. lia.
Qed.

(** A linear interpolation stays between its end points. *)
Lemma lerp_bounds (P N : Q) (k s : Z) :
  0 <= k <= s -> 0 < s -> (P <= N)%Q ->
  (P <= P + (inject_Z k / inject_Z s) * (N - P) <= N)%Q.
Proof.
  intros Hk Hs HPN. destruct (frac_bounds k s Hk Hs) as [H0 H1].
  set (f := (inject_Z k / inject_Z s)%Q) in *. nra.
Qed.

(** It does not decrease from one position to the next. *)
Lemma lerp_step (P N : Q) (k s : Z) :
  0 < s -> (P <= N)%Q ->
  (P + (inject_Z k / inject_Z s) * (N - P)
   <= P + (inject_Z (k + 1) / inject_Z s) * (N - P))%Q.
Proof.
  intros Hs HPN. pose proof (inject_Z_pos s Hs) as Hpos.
  assert (Hinv : (0 < / inject_Z s)%Q) by (apply Qinv_lt_0_compat; exact Hpos).
  unfold Qdiv. rewrite inject_Z_plus.
  set (inv := (/ inject_Z s)%Q) in *. set (x := inject_Z k).
  change (inject_Z 1) with 1%Q. nra.
Qed.

(** The interpolated value in terms of the two nearest anchors. *)
Lemma interpolate_form (rawTimes : list (option Q)) (cursor : Q) (i : nat) :
  (i < List.length rawTimes)%nat ->
  exists (p q : Z) (P N : Q),
    interpolate rawTimes cursor i
    = (P + (inject_Z (Z.of_nat i - p) / inject_Z (q - p)) * (N - P))%Q
    /\ p = scanPrev rawTimes (S (List.length rawTimes)) (Z.of_nat i - 1)
    /\ q = scanNext rawTimes (S (List.length rawTimes)) (Z.of_nat i + 1)
    /\ -1 <= p < Z.of_nat i
    /\ Z.of_nat i < q <= Z.of_nat (List.length rawTimes)
    /\ (forall j : nat, p < Z.of_nat j < q -> j <> i ->
          rawTimes !! j = Some None)
    /\ (p = -1 /\ P = 0%Q
        \/ 0 <= p /\ rawTimes !! Z.to_nat p = Some (Some P))
    /\ (q = Z.of_nat (List.length rawTimes) /\ N = cursor
        \/ q < Z.of_nat (List.length rawTimes)
           /\ rawTimes !! Z.to_nat q = Some (Some N)).
Proof.
  intros Hi. unfold interpolate.
  set (len := List.length rawTimes) in *.
  destruct (scanPrev_spec rawTimes (S len) (Z.of_nat i - 1))
    as (Hp & Hpnull & Hpend); [lia|lia|].
  destruct (scanNext_spec rawTimes (S len) (Z.of_nat i + 1))
    as (Hq & Hqnull & Hqend); [lia|lia|].
  set (p := scanPrev rawTimes (S len) (Z.of_nat i - 1)) in *.
  set (q := scanNext rawTimes (S len) (Z.of_nat i + 1)) in *.
  exists p, q,
    (if 0 <=? p then timeAt rawTimes p else 0%Q),
    (if q <? Z.of_nat len then timeAt rawTimes q else cursor).
  repeat apply conj; try reflexivity; try lia.
  - intros j Hj Hne.
    destruct (Z.lt_ge_cases (Z.of_nat j) (Z.of_nat i));
      [apply Hpnull | apply Hqnull]; lia.
  - destruct Hpend as [Hm1 | (a & Ha & H0)].
    + left. rewrite Hm1. split; reflexivity.
    + right. destruct (Z.leb_spec 0 p); [|lia]. split; [lia|].
      rewrite Ha. f_equal. f_equal.
      rewrite <- (Z2Nat.id p) at 1 by lia. symmetry. now apply timeAt_anchor.
  - destruct Hqend as [Hlen | (b & Hb & Hlt)].
    + left. rewrite Hlen, Z.ltb_irrefl. split; reflexivity.
    + right. destruct (Z.ltb_spec q (Z.of_nat len)); [|lia]. split; [lia|].
      rewrite Hb. f_equal. f_equal.
      rewrite <- (Z2Nat.id q) at 1 by lia. symmetry. now apply timeAt_anchor.
Qed.

Lemma form_ordered (rawTimes : list (option Q)) (cursor : Q) (p q : Z)
    (P N : Q) :
  anchors_ordered rawTimes cursor -> p < q ->
  (p = -1 /\ P = 0%Q \/ 0 <= p /\ rawTimes !! Z.to_nat p = Some (Some P)) ->
  (q = Z.of_nat (List.length rawTimes) /\ N = cursor
   \/ q < Z.of_nat (List.length rawTimes)
      /\ rawTimes !! Z.to_nat q = Some (Some N)) ->
  (0 <= P)%Q /\ (P <= N)%Q /\ (N <= cursor)%Q.
Proof.
  intros (Hc & Hrange & Hord) Hpq [[-> ->]|[Hp HP]] [[-> ->]|[Hq HN]].
  - repeat split; lra.
  - pose proof (Hrange _ _ HN). repeat split; lra.
  - pose proof (Hrange _ _ HP). repeat split; lra.
  - pose proof (Hrange _ _ HP). pose proof (Hrange _ _ HN).
    assert (P <= N)%Q by (apply (Hord (Z.to_nat p) (Z.to_nat q)); [lia|auto..]).
    repeat split; lra.
Qed.

(** Where a scene starts, relative to the timeline and to every anchor. *)
Lemma start_between_anchors (rawTimes : list (option Q)) (cursor : Q)
    (i : nat) (t : Q) :
  anchors_ordered rawTimes cursor ->
  sceneStartTimes rawTimes cursor !! i = Some t ->
  (0 <= t <= cursor)%Q
  /\ (forall p a, (p < i)%nat -> rawTimes !! p = Some (Some a) -> (a <= t)%Q)
  /\ (forall q b, (i < q)%nat -> rawTimes !! q = Some (Some b) -> (t <= b)%Q).
Proof.
  intros Hanch Ht. pose proof Hanch as (Hc & Hrange & Hord).
  rewrite sceneStartTimes_lookup in Ht.
  destruct (rawTimes !! i) as [[a|]|] eqn:Hi; cbn in Ht; [| |discriminate];
    injection Ht as <-.
  - repeat apply conj.
    + apply (Hrange _ _ Hi).
    + apply (Hrange _ _ Hi).
    + intros p a' Hp Ha'. exact (Hord _ _ _ _ Hp Ha' Hi).
    + intros q b Hq Hb. exact (Hord _ _ _ _ Hq Hi Hb).
  - pose proof (lookup_lt_Some _ _ _ Hi) as Hlen.
    destruct (interpolate_form rawTimes cursor i Hlen)
      as (p & q & P & N & -> & _ & _ & Hp & Hq & Hnull & HP & HN).
    destruct (form_ordered rawTimes cursor p q P N Hanch) as (H0 & HPN & HNc);
      [lia | exact HP | exact HN |].
    destruct (lerp_bounds P N (Z.of_nat i - p) (q - p)) as [Hlo Hhi];
      [lia | lia | exact HPN |].
    repeat apply conj; try lra.
    + intros p' a Hp' Ha.
      assert (Z.of_nat p' <= p) as Hle.
      { destruct (Z.le_gt_cases (Z.of_nat p') p) as [|Hgt]; [assumption|].
        rewrite (Hnull p') in Ha by lia. discriminate. }
      destruct HP as [[-> _]|[Hp0 HP]]; [lia|].
      destruct (decide (Z.of_nat p' = p)) as [Heq|Hne].
      * rewrite <- Heq, Nat2Z.id, Ha in HP. injection HP as ->. exact Hlo.
      * assert (a <= P)%Q by (apply (Hord p' (Z.to_nat p)); [lia|auto..]).
        lra.
    + intros q' b Hq' Hb.
      assert (q <= Z.of_nat q') as Hle.
      { destruct (Z.le_gt_cases q (Z.of_nat q')) as [|Hgt]; [assumption|].
        rewrite (Hnull q') in Hb by lia. discriminate. }
      pose proof (lookup_lt_Some _ _ _ Hb) as Hq'len.
      destruct HN as [[-> _]|[Hqlen HN]]; [lia|].
      destruct (decide (Z.of_nat q' = q)) as [Heq|Hne].
      * rewrite <- Heq, Nat2Z.id, Hb in HN. injection HN as ->. exact Hhi.
      * assert (N <= b)%Q by (apply (Hord (Z.to_nat q) q'); [lia|auto..]).
        lra.
Qed.

(** Two neighbouring scenes without dialogue share their nearest anchors. *)
Lemma scans_shared (rawTimes : list (option Q)) (i : nat) :
  rawTimes !! i = Some None -> rawTimes !! S i = Some None ->
  scanPrev rawTimes (S (List.length rawTimes)) (Z.of_nat (S i) - 1)
  = scanPrev rawTimes (S (List.length rawTimes)) (Z.of_nat i - 1)
  /\ scanNext rawTimes (S (List.length rawTimes)) (Z.of_nat i + 1)
     = scanNext rawTimes (S (List.length rawTimes)) (Z.of_nat (S i) + 1).
Proof.
  intros Hi Hsi. pose proof (lookup_lt_Some _ _ _ Hsi) as Hlen. split.
  - replace (Z.of_nat (S i) - 1) with (Z.of_nat i) by lia.
    rewrite (scanPrev_fuel rawTimes (S (List.length rawTimes))
               (List.length rawTimes) (Z.of_nat i - 1)) by lia.
    cbn [scanPrev]. rewrite (isNull_null _ _ Hi).
    destruct (Z.leb_spec 0 (Z.of_nat i)); [|lia]. reflexivity.
  - replace (Z.of_nat i + 1) with (Z.of_nat (S i)) by lia.
    rewrite (scanNext_fuel rawTimes (S (List.length rawTimes))
               (List.length rawTimes) (Z.of_nat (S i) + 1)) by lia.
    cbn [scanNext]. rewrite (isNull_null _ _ Hsi).
    destruct (Z.ltb_spec (Z.of_nat (S i)) (Z.of_nat (List.length rawTimes)));
      [|lia]. reflexivity.
Qed.

(** X1.  With the anchors on the timeline and in scene order, every scene
    start lies on the timeline, no earlier than any anchor before the scene
    and no later than any anchor after it. *)
Theorem sceneStartTimes_between_anchors (rawTimes : list (option Q))
    (cursor : Q) (i : nat) (t : Q) :
  anchors_ordered rawTimes cursor ->
  sceneStartTimes rawTimes cursor !! i = Some t ->
  (0 <= t <= cursor)%Q
  /\ (forall p a, (p < i)%nat -> rawTimes !! p = Some (Some a) -> (a <= t)%Q)
  /\ (forall q b, (i < q)%nat -> rawTimes !! q = Some (Some b) -> (t <= b)%Q).
Proof. apply start_between_anchors. Qed.

(** Neighbouring scene starts are in order. *)
Lemma starts_monotone (rawTimes : list (option Q)) (cursor : Q)
    (i : nat) (t t' : Q) :
  anchors_ordered rawTimes cursor ->
  sceneStartTimes rawTimes cursor !! i = Some t ->
  sceneStartTimes rawTimes cursor !! S i = Some t' ->
  (t <= t')%Q.
Proof.
  intros Hanch Ht Ht'.
  destruct (rawTimes !! S i) as [[b|]|] eqn:Hsi.
  - destruct (start_between_anchors _ _ _ _ Hanch Ht) as (_ & _ & Hnext).
    rewrite sceneStartTimes_lookup, Hsi in Ht'. injection Ht' as <-.
    apply (Hnext (S i)); [lia | exact Hsi].
  - destruct (rawTimes !! i) as [[a|]|] eqn:Hi.
    + destruct (start_between_anchors _ _ _ _ Hanch Ht') as (_ & Hprev & _).
      rewrite sceneStartTimes_lookup, Hi in Ht. injection Ht as <-.
      apply (Hprev i); [lia | exact Hi].
    + pose proof (lookup_lt_Some _ _ _ Hsi) as Hlen.
      rewrite sceneStartTimes_lookup, Hi in Ht. injection Ht as <-.
      rewrite sceneStartTimes_lookup, Hsi in Ht'. injection Ht' as <-.
      destruct (scans_shared rawTimes i Hi Hsi) as [Hsp Hsn].
      destruct (interpolate_form rawTimes cursor i)
        as (p & q & P & N & -> & Hpe & Hqe & Hp & Hq & _ & HP & HN); [lia|].
      destruct (interpolate_form rawTimes cursor (S i))
        as (p' & q' & P' & N' & -> & Hpe' & Hqe' & _ & _ & _ & HP' & HN');
        [lia|].
      assert (p' = p) as -> by congruence.
      assert (q' = q) as -> by congruence.
      assert (P' = P) as ->.
      { destruct HP as [[-> ->]|[H0 HP]], HP' as [[? ->]|[H0' HP']];
          try lia; congruence. }
      assert (N' = N) as ->.
      { destruct HN as [[-> ->]|[H0 HN]], HN' as [[? ->]|[H0' HN']];
          try lia; congruence. }
      destruct (form_ordered rawTimes cursor p q P N Hanch) as (_ & HPN & _);
        [lia | exact HP | exact HN |].
      replace (Z.of_nat (S i) - p) with (Z.of_nat i - p + 1) by lia.
      apply lerp_step; [lia | exact HPN].
    + rewrite sceneStartTimes_lookup, Hi in Ht. discriminate.
  - rewrite sceneStartTimes_lookup, Hsi in Ht'. discriminate.
Qed.

(** X2.  With the anchors on the timeline and in scene order, the scene
    start times never decrease from one scene to the next. *)
Theorem sceneStartTimes_monotone (rawTimes : list (option Q)) (cursor : Q)
    (i : nat) (t t' : Q) :
  anchors_ordered rawTimes cursor ->
  sceneStartTimes rawTimes cursor !! i = Some t ->
  sceneStartTimes rawTimes cursor !! S i = Some t' ->
  (t <= t')%Q.
Proof. apply starts_monotone. Qed.

Lemma four_scenes_ordered : anchors_ordered four_scenes 10.
Proof.
  unfold anchors_ordered, four_scenes. repeat apply conj.
  - lra.
  - intros [|[|[|[|p]]]] a Ha; cbn in Ha; try discriminate;
      injection Ha as <-; lra.
  - intros [|[|[|[|p]]]] [|[|[|[|q]]]] a b Hpq Ha Hb; cbn in Ha, Hb;
      try discriminate; try lia;
      injection Ha as <-; injection Hb as <-; lra.
Qed.

Lemma sceneStartTimes_between_anchors_witness :
  exists t, sceneStartTimes four_scenes 10 !! 2%nat = Some t
            /\ (0 <= t <= 10)%Q /\ (0 <= t)%Q /\ (t <= 9)%Q.
Proof.
  eexists. split; [reflexivity|].
  destruct (sceneStartTimes_between_anchors four_scenes 10 2%nat _
              four_scenes_ordered eq_refl) as (Hrange & Hprev & Hnext).
  split; [exact Hrange|]. split.
  - apply (Hprev 0%nat); [lia | reflexivity].
  - apply (Hnext 3%nat); [lia | reflexivity].
Defined.

Lemma sceneStartTimes_monotone_witness :
  exists t t',
    sceneStartTimes four_scenes 10 !! 1%nat = Some t
    /\ sceneStartTimes four_scenes 10 !! 2%nat = Some t'
    /\ (t <= t')%Q.
Proof.
  eexists _, _. split; [reflexivity|]. split; [reflexivity|].
  exact (sceneStartTimes_monotone four_scenes 10 1%nat _ _
           four_scenes_ordered eq_refl eq_refl).
Defined.

End InterpolationFacts.

(** ** The cadence loop: order of the cursor *)

Section CadenceOrder.

Variable gapBefore : nat -> Q -> Q.
Variable durationOf : nat -> Q.

Hypothesis gap_mono : forall j c, (c <= gapBefore j c)%Q.
Hypothesis duration_nonneg : forall i, (0 <= durationOf i)%Q.

Lemma cursor_le_startAt (i : nat) :
  (snd (cadence i gapBefore durationOf) <= startAt gapBefore durationOf i)%Q.
Proof.
  unfold startAt. destruct (0 <? i)%nat; [apply gap_mono | lra].
Qed.

Lemma cursor_step (n : nat) :
  (snd (cadence n gapBefore durationOf)
   <= snd (cadence (S n) gapBefore durationOf))%Q.
Proof.
  rewrite cadence_S. cbn [snd].
  pose proof (cursor_le_startAt n). pose proof (duration_nonneg n). lra.
Qed.

Lemma cursor_mono (n m : nat) :
  (n <= m)%nat ->
  (snd (cadence n gapBefore durationOf)
   <= snd (cadence m gapBefore durationOf))%Q.
Proof.
  induction 1 as [|m _ IH]; [lra|].
  pose proof (cursor_step m). lra.
Qed.

Lemma cursor_nonneg (n : nat) :
  (0 <= snd (cadence n gapBefore durationOf))%Q.
Proof.
  apply (cursor_mono 0 n). lia.
Qed.

(** A unit has ended by the time the cursor has passed it. *)
Lemma unit_end_le_cursor (i n : nat) :
  (i < n)%nat ->
  (startAt gapBefore durationOf i + durationOf i
   <= snd (cadence n gapBefore durationOf))%Q.
Proof.
  intros Hi. pose proof (cursor_mono (S i) n Hi) as Hm.
  rewrite cadence_S in Hm. exact Hm.
Qed.

Lemma startAt_nonneg (i : nat) : (0 <= startAt gapBefore durationOf i)%Q.
Proof.
  pose proof (cursor_nonneg i). pose proof (cursor_le_startAt i). lra.
Qed.

Lemma startAt_mono (i j : nat) :
  (i <= j)%nat ->
  (startAt gapBefore durationOf i <= startAt gapBefore durationOf j)%Q.
Proof.
  intros Hij. destruct (decide (i = j)) as [->|Hne]; [lra|].
  pose proof (unit_end_le_cursor i j ltac:(lia)).
  pose proof (cursor_le_startAt j). pose proof (duration_nonneg i). lra.
Qed.

End CadenceOrder.

(** ** The mix: total duration *)

Module MixFacts.

Lemma latestEnd_from (decoded : list Decoded) (m : Q) :
  (m <= foldl (fun m d => Qmax m (startTime d + duration (buffer d))) m
          decoded)%Q
  /\ forall d, d ∈ decoded ->
       (startTime d + duration (buffer d)
        <= foldl (fun m d => Qmax m (startTime d + duration (buffer d))) m
             decoded)%Q.
Proof.
  revert m. induction decoded as [|d0 decoded IH]; intros m; cbn [foldl].
  - split; [lra|]. intros d Hd. inversion Hd.
  - destruct (IH (Qmax m (startTime d0 + duration (buffer d0)))) as [Hm Hin].
    pose proof (Q.le_max_l m (startTime d0 + duration (buffer d0))).
    pose proof (Q.le_max_r m (startTime d0 + duration (buffer d0))).
    split; [lra|]. intros d Hd. apply elem_of_cons in Hd as [->|Hd].
    + lra.
    + apply Hin. exact Hd.
Qed.

(** No decoded overlay ends after [latestEnd]. *)
Lemma latestEnd_upper (decoded : list Decoded) (d : Decoded) :
  d ∈ decoded -> (startTime d + duration (buffer d) <= latestEnd decoded)%Q.
Proof. apply latestEnd_from. Qed.

Lemma latestEnd_nonneg (decoded : list Decoded) : (0 <= latestEnd decoded)%Q.
Proof. apply latestEnd_from. Qed.

(** X3.  On the book-narration page the total duration, from which the
    length of the render is taken, covers everything the page schedules:
    every clip that has a start time ends, by the duration of its own
    buffer, no later than the total duration, and so does every decoded
    effect, wherever it is placed; the total duration is never below the
    final cursor and never negative. *)
Theorem page_total_covers_sources (segments : list Page.Segment)
    (segBuffers : list AudioBuffer) (sfxDecoded : list Decoded) :
  (forall (i : nat) (t : Q) (buf : AudioBuffer),
     fst (Page.schedule segments segBuffers) !! i = Some t ->
     segBuffers !! i = Some buf ->
     (t + duration buf
      <= Page.totalDuration (snd (Page.schedule segments segBuffers))
           sfxDecoded)%Q)
  /\ (forall d : Decoded,
        d ∈ sfxDecoded ->
        (startTime d + duration (buffer d)
         <= Page.totalDuration (snd (Page.schedule segments segBuffers))
              sfxDecoded)%Q)
  /\ (snd (Page.schedule segments segBuffers)
      <= Page.totalDuration (snd (Page.schedule segments segBuffers))
           sfxDecoded)%Q
  /\ (0 <= Page.totalDuration (snd (Page.schedule segments segBuffers))
             sfxDecoded)%Q.
Proof.
  unfold Page.totalDuration.
  pose proof (Q.le_max_l (snd (Page.schedule segments segBuffers))
                (latestEnd sfxDecoded)) as Hl.
  pose proof (Q.le_max_r (snd (Page.schedule segments segBuffers))
                (latestEnd sfxDecoded)) as Hr.
  repeat split.
  - intros i t buf Ht Hbuf.
    pose proof (lookup_lt_Some _ _ _ Ht) as Hi.
    unfold Page.schedule in *. rewrite cadence_length in Hi.
    rewrite cadence_lookup in Ht by lia. injection Ht as <-.
    pose proof (unit_end_le_cursor (Page.gapBefore segments)
                  (Page.durationOf segBuffers)
                  (PageFacts.gapBefore_mono segments)
                  (PageFacts.durationOf_nonneg segBuffers)
                  i (List.length segments) Hi) as Hend.
    unfold Page.durationOf in Hend at 2. rewrite Hbuf in Hend.
    cbn [fmap option_fmap option_map default from_option id] in Hend.
    lra.
  - intros d Hd. pose proof (latestEnd_upper _ _ Hd). lra.
  - exact Hl.
  - pose proof (latestEnd_nonneg sfxDecoded). lra.
Qed.

Lemma uploadDurationOf_nonneg (lineBuffers : list AudioBuffer) (i : nat) :
  (0 <= Upload.durationOf lineBuffers i)%Q.
Proof.
  unfold Upload.durationOf.
  destruct (lineBuffers !! i) as [buf|]; cbn; [|lra].
  apply PageFacts.duration_nonneg.
Qed.

(** X5.  On the screenplay page the total duration, from which the length
    of the render is taken, covers everything the page schedules: every
    line clip that has a start time ends, by the duration of its own
    buffer, no later than the total duration, and so does every decoded
    effect and every decoded music bed, wherever it is placed; the total
    duration is never below the final cursor and never negative. *)
Theorem upload_total_covers_sources
    (dialogueLines : list Script.ScriptDialogueLine)
    (lineBuffers : list AudioBuffer) (sfxDecoded musicDecoded : list Decoded) :
  (forall (i : nat) (t : Q) (buf : AudioBuffer),
     fst (Upload.schedule dialogueLines lineBuffers) !! i = Some t ->
     lineBuffers !! i = Some buf ->
     (t + duration buf
      <= Upload.totalDuration (snd (Upload.schedule dialogueLines lineBuffers))
           sfxDecoded musicDecoded)%Q)
  /\ (forall d : Decoded,
        d ∈ sfxDecoded \/ d ∈ musicDecoded ->
        (startTime d + duration (buffer d)
         <= Upload.totalDuration
              (snd (Upload.schedule dialogueLines lineBuffers))
              sfxDecoded musicDecoded)%Q)
  /\ (snd (Upload.schedule dialogueLines lineBuffers)
      <= Upload.totalDuration (snd (Upload.schedule dialogueLines lineBuffers))
           sfxDecoded musicDecoded)%Q
  /\ (0 <= Upload.totalDuration
             (snd (Upload.schedule dialogueLines lineBuffers))
             sfxDecoded musicDecoded)%Q.
Proof.
  unfold Upload.totalDuration.
  set (cursor := snd (Upload.schedule dialogueLines lineBuffers)).
  pose proof (Q.le_max_l (Qmax cursor (latestEnd sfxDecoded))
                (latestEnd musicDecoded)) as Hl.
  pose proof (Q.le_max_r (Qmax cursor (latestEnd sfxDecoded))
                (latestEnd musicDecoded)) as Hr.
  pose proof (Q.le_max_l cursor (latestEnd sfxDecoded)) as Hl'.
  pose proof (Q.le_max_r cursor (latestEnd sfxDecoded)) as Hr'.
  repeat split.
  - intros i t buf Ht Hbuf.
    pose proof (lookup_lt_Some _ _ _ Ht) as Hi.
    subst cursor. unfold Upload.schedule in *. rewrite cadence_length in Hi.
    rewrite cadence_lookup in Ht by lia. injection Ht as <-.
    pose proof (unit_end_le_cursor (Script.gapBefore dialogueLines)
                  (Upload.durationOf lineBuffers)
                  (ScriptFacts.sceneGap_mono dialogueLines)
                  (uploadDurationOf_nonneg lineBuffers)
                  i (List.length dialogueLines) Hi) as Hend.
    unfold Upload.durationOf in Hend at 2. rewrite Hbuf in Hend.
    cbn [fmap option_fmap option_map default from_option id] in Hend.
    lra.
  - intros d [Hd|Hd]; pose proof (latestEnd_upper _ _ Hd); lra.
  - lra.
  - pose proof (latestEnd_nonneg musicDecoded). lra.
Qed.

(** X6.  The book-narration page's mix fails whenever the total duration it
    computes is zero, not only for an empty input: the requested render
    then has no frame, and no context is made for it.  One narration
    segment without a clip is enough. *)
Theorem page_mix_fails_on_empty_timeline decodeB64Audio
    (segmentsAudio : list string) (segments : list Page.Segment)
    (sfxList : list Page.SfxItem.t) :
  (Page.totalDuration
     (snd (Page.schedule segments
             (Page.decodeSegments decodeB64Audio segmentsAudio)))
     (Page.decodeSfx decodeB64Audio
        (fst (Page.schedule segments
                (Page.decodeSegments decodeB64Audio segmentsAudio)))
        sfxList) == 0)%Q ->
  Page.mixAudio decodeB64Audio segmentsAudio segments sfxList = None.
Proof.
  unfold Page.mixAudio.
  destruct (Page.schedule segments _) as [startTimes cursor]. cbn [fst snd].
  intros Hzero. unfold Page.renderLength, Offline.create.
  assert (Hlen : Qceiling
                   (Page.totalDuration cursor
                      (Page.decodeSfx decodeB64Audio startTimes sfxList)
                    * inject_Z
                        (Z.pos
                           (Page.renderSampleRate
                              (Page.decodeSegments decodeB64Audio
                                 segmentsAudio)))) = 0).
  { rewrite Hzero, Qmult_0_l. reflexivity. }
  rewrite Hlen. case_bool_decide as Hok; [lia | reflexivity].
Qed.

Lemma page_mix_fails_on_empty_timeline_witness :
  Page.mixAudio example_decode [] [unit Page.narration; unit Page.narration]
    [example_sfx 0 "!corrupt!"]
  = None.
Proof.
  apply page_mix_fails_on_empty_timeline. reflexivity.
Defined.

End MixFacts.

(** ** Effect normalisation: the scaled peak *)

Module NormaliseFacts.

(** A positive peak is the magnitude of one of the samples. *)
Lemma peakOf_attained (buffer : AudioBuffer) :
  peakOf buffer = 0%Q
  \/ exists ch s x,
       (ch < numberOfChannels buffer)%nat
       /\ getChannelData buffer ch !! s = Some x
       /\ Qabs x = peakOf buffer.
Proof.
  unfold peakOf.
  apply (for_range_ind (fun n peak =>
    peak = 0%Q
    \/ exists ch s x, (ch < n)%nat
         /\ getChannelData buffer ch !! s = Some x /\ Qabs x = peak));
    [now left|].
  intros ch peak Hch IH.
  apply (for_range_ind (fun _ peak =>
    peak = 0%Q
    \/ exists ch' s x, (ch' < S ch)%nat
         /\ getChannelData buffer ch' !! s = Some x /\ Qabs x = peak)).
  - destruct IH as [->|(ch' & s & x & Hlt & Hx & Hp)]; [now left|].
    right. exists ch', s, x. repeat split; [lia|assumption..].
  - intros s peak' Hs IH'. cbv zeta.
    destruct (lookup_lt_is_Some_2 _ _ Hs) as [x Hx]. rewrite Hx.
    cbn [default from_option id].
    destruct (Qltb peak' (Qabs x)); [|exact IH'].
    right. exists ch, s, x. repeat split; [lia|assumption].
Qed.

(** X7.  An effect with a non-zero sample is scaled so that its peak is the
    target: the gain times the peak is [TARGET_PEAK], no scaled sample
    exceeds it in magnitude and one reaches it; an effect whose peak is
    already the target keeps its samples (gain 1). *)
Theorem effect_peak_normalised (buffer : AudioBuffer) :
  (0 < peakOf buffer)%Q ->
  exists gain,
    gainValue buffer = Some gain
    /\ (gain * peakOf buffer == TARGET_PEAK)%Q
    /\ (forall ch s x, (ch < numberOfChannels buffer)%nat ->
          getChannelData buffer ch !! s = Some x ->
          (Qabs (x * gain) <= TARGET_PEAK)%Q)
    /\ (exists ch s x, (ch < numberOfChannels buffer)%nat
          /\ getChannelData buffer ch !! s = Some x
          /\ (Qabs (x * gain) == TARGET_PEAK)%Q)
    /\ ((peakOf buffer == TARGET_PEAK)%Q -> (gain == 1)%Q).
Proof.
  intros Hpos. exists (TARGET_PEAK / peakOf buffer)%Q.
  assert (Hgain : gainValue buffer = Some (TARGET_PEAK / peakOf buffer)%Q).
  { unfold gainValue, js_div. rewrite (proj2 (Qltb_lt 0 (peakOf buffer)) Hpos).
    destruct (Qeq_bool (peakOf buffer) 0) eqn:Heq; [|reflexivity].
    apply Qeq_bool_iff in Heq. lra. }
  assert (Hmul : (TARGET_PEAK / peakOf buffer * peakOf buffer == TARGET_PEAK)%Q).
  { rewrite Qmult_comm. apply Qmult_div_r. lra. }
  assert (Hg : (0 < TARGET_PEAK / peakOf buffer)%Q).
  { apply Qlt_shift_div_l; [exact Hpos|]. unfold TARGET_PEAK. lra. }
  assert (Habs : forall x,
            (Qabs (x * (TARGET_PEAK / peakOf buffer))
             == Qabs x * (TARGET_PEAK / peakOf buffer))%Q).
  { intros x. rewrite Qabs_Qmult.
    rewrite (Qabs_pos (TARGET_PEAK / peakOf buffer)) by lra. reflexivity. }
  repeat apply conj.
  - exact Hgain.
  - exact Hmul.
  - intros ch s x Hch Hx. rewrite Habs.
    apply Qle_trans with (peakOf buffer * (TARGET_PEAK / peakOf buffer))%Q.
    + apply Qmult_le_compat_r; [|lra].
      exact (peakOf_upper buffer ch s x Hch Hx).
    + rewrite Qmult_comm, Hmul. apply Qle_refl.
  - destruct (peakOf_attained buffer) as [Hz|(ch & s & x & Hch & Hx & Hp)];
      [rewrite Hz in Hpos; lra|].
    exists ch, s, x. repeat split; [assumption..|].
    rewrite Habs, Hp, Qmult_comm. exact Hmul.
  - intros Heq. rewrite Heq. reflexivity.
Qed.

Lemma effect_peak_normalised_witness :
  exists gain,
    gainValue test_buf = Some gain
    /\ (gain * peakOf test_buf == TARGET_PEAK)%Q.
Proof.
  destruct (effect_peak_normalised test_buf) as (gain & Hgain & Hmul & _).
  - vm_compute. reflexivity.
  - exists gain. split; assumption.
Defined.

End NormaliseFacts.

(** ** The encoders: quantisation, errors, agreement *)

Module EncoderFacts.
Import Wav WavFacts DataViewFacts.

Lemma Qle_bool_false (a b : Q) : Qle_bool a b = false -> (b < a)%Q.
Proof.
  intros Hb. apply Qnot_le_lt. rewrite <- Qle_bool_iff. congruence.
Qed.

Lemma Qtrunc_mono (x y : Q) : (x <= y)%Q -> Qtrunc x <= Qtrunc y.
Proof.
  intros Hxy. unfold Qtrunc.
  destruct (Qle_bool 0 x) eqn:Hx, (Qle_bool 0 y) eqn:Hy.
  - now apply Qfloor_resp_le.
  - apply Qle_bool_iff in Hx. apply Qle_bool_false in Hy. lra.
  - apply Qle_bool_iff in Hy. apply Qle_bool_false in Hx.
    apply Z.le_trans with 0.
    + change 0 with (Qceiling 0%Q). apply Qceiling_resp_le. lra.
    + change 0 with (Qfloor 0%Q). now apply Qfloor_resp_le.
  - now apply Qceiling_resp_le.
Qed.

Lemma clamp_mono (x y : Q) : (x <= y)%Q -> (clamp x <= clamp y)%Q.
Proof.
  intros Hxy. rewrite (clamp_cases x), (clamp_cases y).
  destruct (Qltb x (-1)) eqn:Hx1; [apply Qltb_lt in Hx1|apply Qltb_ge in Hx1];
  destruct (Qltb y (-1)) eqn:Hy1; [apply Qltb_lt in Hy1|apply Qltb_ge in Hy1|
                                   apply Qltb_lt in Hy1|apply Qltb_ge in Hy1];
  destruct (Qltb 1 x) eqn:Hx2; [apply Qltb_lt in Hx2|apply Qltb_ge in Hx2|
                                apply Qltb_lt in Hx2|apply Qltb_ge in Hx2|
                                apply Qltb_lt in Hx2|apply Qltb_ge in Hx2|
                                apply Qltb_lt in Hx2|apply Qltb_ge in Hx2];
  destruct (Qltb 1 y) eqn:Hy2;
    (apply Qltb_lt in Hy2 || apply Qltb_ge in Hy2); lra.
Qed.

Lemma scale_mono (x y : Q) : (x <= y)%Q -> (scale x <= scale y)%Q.
Proof.
  intros Hxy. unfold scale.
  destruct (Qltb x 0) eqn:Hx; [apply Qltb_lt in Hx|apply Qltb_ge in Hx];
  destruct (Qltb y 0) eqn:Hy;
    (apply Qltb_lt in Hy || apply Qltb_ge in Hy); lra.
Qed.

(** The 16-bit value stored for a sample of the buffer. *)
Lemma encoded_sample (buf : AudioBuffer) (f ch : nat) (x : Q) :
  (f < WebAudio.length buf)%nat -> (ch < numberOfChannels buf)%nat ->
  getChannelData buf ch !! f = Some x ->
  getInt16 (audioBufferToWav buf) (44 + 2 * (f * numberOfChannels buf + ch))
  = pcm16 x.
Proof.
  intros Hf Hch Hx.
  destruct (header_written buf) as (v0 & Hout & Hv0). cbv zeta in Hout, Hv0.
  assert (Hlen0 : List.length v0
                  = (44 + WebAudio.length buf * numberOfChannels buf * 2)%nat).
  { rewrite Hv0, length_app, length_replicate. reflexivity. }
  destruct (written_all buf v0 Hlen0) as (_ & _ & _ & Hsamples).
  rewrite <- Hout in Hsamples.
  unfold getInt16. rewrite Hsamples by (try assumption; nia).
  rewrite Hx. cbn [from_option]. fold (pcm16 x).
  pose proof (sample16_range x) as Hr. fold (pcm16 x) in Hr.
  destruct (Z.ltb_spec (pcm16 x mod 65536) 32768);
    Z.to_euclidean_division_equations; lia.
Qed.

(** X8.  The encoder stores [pcm16 x] for a sample [x], and this conversion
    keeps the order of the samples and never wraps: a larger sample never
    gets a smaller 16-bit value, every value lies in [-32768, 32767], a
    sample at or above 1 gets 32767, one at or below -1 gets -32768 and 0
    gets 0. *)
Theorem pcm16_monotone :
  (forall buf f ch x,
     (f < WebAudio.length buf)%nat -> (ch < numberOfChannels buf)%nat ->
     getChannelData buf ch !! f = Some x ->
     getInt16 (audioBufferToWav buf)
       (44 + 2 * (f * numberOfChannels buf + ch)) = pcm16 x)
  /\ (forall x y, (x <= y)%Q -> pcm16 x <= pcm16 y)
  /\ (forall x, -32768 <= pcm16 x <= 32767)
  /\ (forall x, (1 <= x)%Q -> pcm16 x = 32767)
  /\ (forall x, (x <= -1)%Q -> pcm16 x = -32768)
  /\ (forall x, (x == 0)%Q -> pcm16 x = 0).
Proof.
  assert (Hval : forall x c, (clamp x == c)%Q -> pcm16 x = Qtrunc (scale c)).
  { intros x c Hc. unfold pcm16. apply Qtrunc_comp. now apply scale_comp. }
  repeat apply conj.
  - apply encoded_sample.
  - intros x y Hxy. unfold pcm16.
    apply Qtrunc_mono, scale_mono, clamp_mono, Hxy.
  - intros x. apply sample16_range.
  - intros x Hx. rewrite (Hval x 1%Q); [reflexivity|].
    rewrite clamp_cases.
    destruct (Qltb x (-1)) eqn:H1; [apply Qltb_lt in H1; lra|].
    destruct (Qltb 1 x) eqn:H2; [reflexivity|]. apply Qltb_ge in H2. lra.
  - intros x Hx. rewrite (Hval x (-1)%Q); [reflexivity|].
    rewrite clamp_cases.
    destruct (Qltb x (-1)) eqn:H1; [reflexivity|]. apply Qltb_ge in H1.
    destruct (Qltb 1 x) eqn:H2; [apply Qltb_lt in H2; lra|]. lra.
  - intros x Hx. rewrite (Hval x 0%Q); [reflexivity|].
    rewrite clamp_cases.
    destruct (Qltb x (-1)) eqn:H1; [apply Qltb_lt in H1; lra|].
    destruct (Qltb 1 x) eqn:H2; [apply Qltb_lt in H2; lra|]. exact Hx.
Qed.

Lemma Qtrunc_near (x : Q) :
  ((0 <= x)%Q -> (inject_Z (Qtrunc x) <= x < inject_Z (Qtrunc x) + 1)%Q)
  /\ ((x < 0)%Q -> (inject_Z (Qtrunc x) - 1 < x <= inject_Z (Qtrunc x))%Q).
Proof.
  unfold Qtrunc. split; intros Hx.
  - rewrite (proj2 (Qle_bool_iff 0 x) Hx).
    pose proof (Qfloor_le x). pose proof (Qlt_floor x) as Hlt.
    rewrite inject_Z_plus in Hlt. change (inject_Z 1) with 1%Q in Hlt. lra.
  - destruct (Qle_bool 0 x) eqn:Hb; [apply Qle_bool_iff in Hb; lra|].
    clear Hb. pose proof (Qle_ceiling x). pose proof (Qceiling_lt x) as Hlt.
    unfold Z.sub in Hlt. rewrite inject_Z_plus, inject_Z_opp in Hlt.
    change (inject_Z 1) with 1%Q in Hlt. lra.
Qed.

(** X9.  Within [-1, 1] the 16-bit value is the scaled sample cut toward
    zero, less than one step away from it: scale 32767 for a sample that is
    not negative, 32768 for a negative one. *)
Theorem pcm16_quantisation (x : Q) :
  (-1 <= x <= 1)%Q ->
  ((0 <= x)%Q ->
   (x * 32767 - 1 < inject_Z (pcm16 x) <= x * 32767)%Q)
  /\ ((x < 0)%Q ->
      (x * 32768 <= inject_Z (pcm16 x) < x * 32768 + 1)%Q).
Proof.
  intros Hx.
  assert (Hc : (clamp x == x)%Q).
  { rewrite clamp_cases.
    destruct (Qltb x (-1)) eqn:H1; [apply Qltb_lt in H1; lra|].
    destruct (Qltb 1 x) eqn:H2; [apply Qltb_lt in H2; lra|]. reflexivity. }
  assert (Hp : pcm16 x = Qtrunc (scale x)).
  { unfold pcm16. apply Qtrunc_comp. now apply scale_comp. }
  rewrite Hp. unfold scale. split; intros Hs.
  - rewrite (proj2 (Qltb_ge x 0) Hs).
    destruct (Qtrunc_near (x * 32767)) as [Hn _].
    assert (0 <= x * 32767)%Q by lra. specialize (Hn H). lra.
  - rewrite (proj2 (Qltb_lt x 0) Hs).
    destruct (Qtrunc_near (x * 32768)) as [_ Hn].
    assert (x * 32768 < 0)%Q by lra. specialize (Hn H). lra.
Qed.

(** The encoded buffer is its 44-byte header followed by its sample bytes. *)
Lemma audioBufferToWav_split (buf : AudioBuffer) :
  audioBufferToWav buf
  = header (Z.of_nat (numberOfChannels buf)) (Z.pos (sampleRate buf))
      (Z.of_nat (WebAudio.length buf * numberOfChannels buf * 2))
    ++ sampleBytes buf
  /\ List.length (sampleBytes buf)
     = (WebAudio.length buf * numberOfChannels buf * 2)%nat.
Proof.
  destruct (header_written buf) as (v0 & Hout & Hv0). cbv zeta in Hout, Hv0.
  assert (Hlen0 : List.length v0
                  = (44 + WebAudio.length buf * numberOfChannels buf * 2)%nat).
  { rewrite Hv0, length_app, length_replicate. reflexivity. }
  destruct (written_all buf v0 Hlen0) as (_ & Hlen & Htake & _).
  rewrite <- Hout in Hlen, Htake. unfold sampleBytes. split.
  - rewrite <- (take_drop 44 (audioBufferToWav buf)) at 1. f_equal.
    rewrite Htake, Hv0. now apply take_app_length'.
  - rewrite length_drop, Hlen, Hlen0. lia.
Qed.

Lemma pcmToWav_some (pcm : list Z) (channels sampleRate : Z) :
  0 <= channels -> 0 <= sampleRate ->
  36 + Z.of_nat (List.length pcm) < 4294967296 ->
  channels * 2 < 65536 -> sampleRate < 4294967296 ->
  sampleRate * channels * 2 < 4294967296 ->
  Generate.pcmToWav pcm channels sampleRate
  = Some (header channels sampleRate (Z.of_nat (List.length pcm)) ++ pcm).
Proof.
  intros Hc Hs Hlen Hc2 Hsr Hrate.
  unfold Generate.pcmToWav, Generate.writeUInt32LE, Generate.writeUInt16LE.
  rewrite (bool_decide_eq_true_2 (0 <= 36 + Z.of_nat (List.length pcm)
                                  < 4294967296)) by lia.
  rewrite (bool_decide_eq_true_2 (0 <= Z.of_nat (List.length pcm)
                                  < 4294967296)) by lia.
  rewrite (bool_decide_eq_true_2 (0 <= channels < 65536)) by lia.
  rewrite (bool_decide_eq_true_2 (0 <= channels * 2 < 65536)) by lia.
  rewrite (bool_decide_eq_true_2 (0 <= sampleRate < 4294967296)) by lia.
  rewrite (bool_decide_eq_true_2 (0 <= sampleRate * channels * 2
                                  < 4294967296)) by nia.
  reflexivity.
Qed.

(** X10.  The route's encoder succeeds exactly when every header value fits
    its field: then the result is the 44-byte header followed by the PCM
    bytes unchanged, [44 + pcm.length] bytes; otherwise a write throws. *)
Theorem pcmToWav_fits_or_throws (pcm : list Z) (channels sampleRate : Z) :
  let fits :=
    36 + Z.of_nat (List.length pcm) < 4294967296
    /\ 0 <= channels /\ channels * 2 < 65536
    /\ 0 <= sampleRate < 4294967296
    /\ 0 <= sampleRate * channels * 2 < 4294967296 in
  (fits ->
   exists out,
     Generate.pcmToWav pcm channels sampleRate = Some out
     /\ List.length out = (44 + List.length pcm)%nat
     /\ take 44 out
        = header channels sampleRate (Z.of_nat (List.length pcm))
     /\ drop 44 out = pcm
     /\ getUint16 out 22 = channels
     /\ getUint32 out 24 = sampleRate
     /\ getUint32 out 40 = Z.of_nat (List.length pcm))
  /\ (~ fits -> Generate.pcmToWav pcm channels sampleRate = None).
Proof.
  cbv zeta. split.
  - intros (Hlen & Hc & Hc2 & [Hs Hsr] & [_ Hrate]).
    exists (header channels sampleRate (Z.of_nat (List.length pcm)) ++ pcm).
    split; [apply pcmToWav_some; lia|].
    assert (Hh : List.length (header channels sampleRate
                                (Z.of_nat (List.length pcm))) = 44%nat)
      by reflexivity.
    repeat apply conj.
    + rewrite length_app, Hh. reflexivity.
    + now apply take_app_length'.
    + now apply drop_app_length'.
    + refine (le16_read channels
                ([82; 73; 70; 70]
                 ++ le32 (36 + Z.of_nat (List.length pcm))
                 ++ [87; 65; 86; 69; 102; 109; 116; 32] ++ le32 16 ++ le16 1)
                _ 22 eq_refl _). lia.
    + refine (le32_read sampleRate
                ([82; 73; 70; 70]
                 ++ le32 (36 + Z.of_nat (List.length pcm))
                 ++ [87; 65; 86; 69; 102; 109; 116; 32] ++ le32 16 ++ le16 1
                 ++ le16 channels) _ 24 eq_refl _). lia.
    + refine (le32_read (Z.of_nat (List.length pcm))
                ([82; 73; 70; 70]
                 ++ le32 (36 + Z.of_nat (List.length pcm))
                 ++ [87; 65; 86; 69; 102; 109; 116; 32] ++ le32 16 ++ le16 1
                 ++ le16 channels ++ le32 sampleRate
                 ++ le32 (sampleRate * channels * 2) ++ le16 (channels * 2)
                 ++ le16 16 ++ [100; 97; 116; 97]) pcm 40 eq_refl _). lia.
  - intros Hnot.
    unfold Generate.pcmToWav, Generate.writeUInt32LE, Generate.writeUInt16LE.
    cbv zeta.
    repeat lazymatch goal with
    | |- (if bool_decide ?P then _ else _) ≫= _ = None =>
        destruct (bool_decide_reflect P);
          [cbn [mbind option_bind] | reflexivity]
    end.
    exfalso. apply Hnot. lia.
Qed.

(** X11.  The two encoders agree: handing the sample bytes the page's
    encoder wrote, with the buffer's channel count and sample rate, to the
    route's encoder gives the page's file back, whenever the header values
    fit their fields. *)
Theorem encoders_agree (buf : AudioBuffer) :
  let C := Z.of_nat (numberOfChannels buf) in
  let R := Z.pos (sampleRate buf) in
  let L := Z.of_nat (WebAudio.length buf) in
  36 + L * C * 2 < 4294967296 -> C * 2 < 65536 ->
  R < 4294967296 -> R * C * 2 < 4294967296 ->
  Generate.pcmToWav (sampleBytes buf) C R = Some (audioBufferToWav buf).
Proof.
  intros C R L HL HC HR HRC.
  destruct (audioBufferToWav_split buf) as [Hsplit Hlen].
  rewrite pcmToWav_some by (rewrite ?Hlen; subst C R L; lia).
  subst C R L. rewrite Hlen. f_equal. symmetry. exact Hsplit.
Qed.

Lemma pcm16_quantisation_witness :
  (0.5 * 32767 - 1 < inject_Z (pcm16 0.5) <= 0.5 * 32767)%Q.
Proof.
  apply (proj1 (pcm16_quantisation 0.5 ltac:(lra))). lra.
Defined.

Lemma pcmToWav_fits_or_throws_witness :
  exists out,
    Generate.pcmToWav [1; 2; 3; 4] 2 48000 = Some out
    /\ List.length out = 48%nat /\ drop 44 out = [1; 2; 3; 4].
Proof.
  destruct (proj1 (pcmToWav_fits_or_throws [1; 2; 3; 4] 2 48000))
    as (out & Hout & Hlen & _ & Hdrop & _).
  - cbn. lia.
  - exists out. repeat apply conj; assumption.
Defined.

Lemma encoders_agree_witness :
  Generate.pcmToWav (sampleBytes test_buf) 2 44100
  = Some (Wav.audioBufferToWav test_buf).
Proof.
  apply (encoders_agree test_buf); cbn; lia.
Defined.

End EncoderFacts.

(** ** Voice casting *)

Module CastingFacts.
Import Casting.

Lemma residues (idx k : nat) :
  (k < 5 -> exists j, j < 5 /\ (idx + j) mod 5 = k)%nat.
Proof.
  intros Hk. exists ((k + 5 - idx mod 5) mod 5)%nat.
  split.
  - apply Nat.mod_upper_bound; lia.
  - pose proof (Nat.mod_upper_bound idx 5 ltac:(lia)).
    pose proof (Nat.div_mod_eq idx 5).
    pose proof (Nat.mod_upper_bound (k + 5 - idx mod 5) 5 ltac:(lia)).
    pose proof (Nat.div_mod_eq (k + 5 - idx mod 5) 5).
    pose proof (Nat.mod_upper_bound (idx + (k + 5 - idx mod 5) mod 5) 5
                  ltac:(lia)).
    pose proof (Nat.div_mod_eq (idx + (k + 5 - idx mod 5) mod 5) 5).
    lia.
Qed.

Lemma fallbackAt_elem (idx : nat) : fallbackAt idx ∈ FALLBACK_VOICES.
Proof.
  unfold fallbackAt.
  pose proof (Nat.mod_upper_bound idx (List.length FALLBACK_VOICES)
                ltac:(cbn; lia)) as Hlt.
  destruct (lookup_lt_is_Some_2 FALLBACK_VOICES _ Hlt) as [v Hv].
  rewrite Hv. cbn. eapply list_elem_of_lookup_2, Hv.
Qed.

Lemma fallback_covered (idx : nat) (v : string) :
  v ∈ FALLBACK_VOICES ->
  exists j, (j < 5)%nat /\ fallbackAt (idx + j) = v.
Proof.
  intros Hv. apply list_elem_of_lookup_1 in Hv as [k Hk].
  pose proof (lookup_lt_Some _ _ _ Hk) as Hlt. cbn in Hlt.
  destruct (residues idx k Hlt) as (j & Hj & Hmod).
  exists j. split; [exact Hj|].
  unfold fallbackAt.
  change (List.length FALLBACK_VOICES) with 5%nat.
  now rewrite Hmod, Hk.
Qed.

Lemma FALLBACK_VOICES_NoDup : NoDup FALLBACK_VOICES.
Proof. apply (bool_decide_unpack _). vm_compute. exact I. Qed.

(** The loop stops at an index whose fallback is free. *)
Lemma skipUsed_free used fuel idx r :
  skipUsed used fuel idx = Some r ->
  (fallbackAt r ∉ used) /\ (idx <= r)%nat.
Proof.
  revert idx. induction fuel as [|fuel IH]; intros idx; cbn; [discriminate|].
  case_bool_decide as Hin.
  - intros H. apply IH in H. split; [tauto | lia].
  - intros [= <-]. split; [exact Hin | lia].
Qed.

Lemma skipUsed_now used fuel idx :
  fallbackAt idx ∉ used -> skipUsed used (S fuel) idx = Some idx.
Proof. intros H. cbn. now rewrite bool_decide_eq_false_2. Qed.

(** It stops within [fuel] iterations when one of the next [fuel]
    fallbacks is free. *)
Lemma skipUsed_some used fuel idx j :
  (j < fuel)%nat -> fallbackAt (idx + j) ∉ used ->
  is_Some (skipUsed used fuel idx).
Proof.
  revert idx j. induction fuel as [|fuel IH]; intros idx j Hj Hfree; [lia|].
  cbn. case_bool_decide as Hin; [|eauto].
  destruct j as [|j].
  - exfalso. apply Hfree. now rewrite Nat.add_0_r.
  - apply (IH (S idx) j); [lia|].
    now replace (S idx + j)%nat with (idx + S j)%nat by lia.
Qed.

(** It never stops when every fallback is in use. *)
Lemma skipUsed_none used fuel idx :
  (forall v, v ∈ FALLBACK_VOICES -> v ∈ used) ->
  skipUsed used fuel idx = None.
Proof.
  intros Hall. revert idx.
  induction fuel as [|fuel IH]; intros idx; cbn; [reflexivity|].
  rewrite bool_decide_eq_true_2 by apply Hall, fallbackAt_elem.
  apply IH.
Qed.

Lemma skipUsedStale_none used fallback fuel idx :
  fallback ∈ used -> skipUsedStale used fallback fuel idx = None.
Proof.
  intros Hin. revert idx.
  induction fuel as [|fuel IH]; intros idx; cbn; [reflexivity|].
  rewrite bool_decide_eq_true_2 by exact Hin. apply IH.
Qed.

Lemma skipUsedStale_now used fallback fuel idx :
  fallback ∉ used -> skipUsedStale used fallback (S fuel) idx = Some idx.
Proof. intros H. cbn. now rewrite bool_decide_eq_false_2. Qed.

Lemma skipUsedStale_free used fallback fuel idx r :
  skipUsedStale used fallback fuel idx = Some r ->
  (fallback ∉ used) /\ r = idx.
Proof.
  destruct fuel as [|fuel]; cbn; [discriminate|].
  case_bool_decide as Hin.
  - now rewrite skipUsedStale_none.
  - now intros [= <-].
Qed.

Lemma countUsed_le used l : (countUsed used l <= List.length l)%nat.
Proof.
  induction l as [|v l IH]; cbn; [lia|]. case_bool_decide; lia.
Qed.

Lemma countUsed_ext (A B : gset string) l :
  (forall w, w ∈ l -> w ∈ A <-> w ∈ B) -> countUsed A l = countUsed B l.
Proof.
  induction l as [|v l IH]; intros H; cbn; [reflexivity|].
  rewrite IH by (intros w Hw; apply H; now right).
  rewrite (bool_decide_ext (v ∈ A) (v ∈ B)) by (apply H; now left).
  reflexivity.
Qed.

Lemma countUsed_add_other (used : gset string) v l :
  v ∉ l -> countUsed ({[v]} ∪ used) l = countUsed used l.
Proof.
  intros Hv. apply countUsed_ext. intros w Hw.
  rewrite elem_of_union, elem_of_singleton.
  split; [intros [->|H]; [contradiction | exact H] | now right].
Qed.

Lemma countUsed_add_fresh (used : gset string) v l :
  NoDup l -> v ∈ l -> v ∉ used ->
  countUsed ({[v]} ∪ used) l = S (countUsed used l).
Proof.
  intros Hnd Hin Hfresh.
  induction Hnd as [|w l Hw Hnd IH]; [now apply elem_of_nil in Hin|].
  cbn. apply elem_of_cons in Hin as [<-|Hin].
  - rewrite bool_decide_eq_true_2
      by (apply elem_of_union_l, elem_of_singleton; reflexivity).
    rewrite bool_decide_eq_false_2 by exact Hfresh.
    now rewrite countUsed_add_other.
  - rewrite IH by exact Hin.
    assert (Hne : w <> v) by (intros ->; contradiction).
    rewrite (bool_decide_ext (w ∈ {[v]} ∪ used) (w ∈ used)); [lia|].
    rewrite elem_of_union, elem_of_singleton.
    split; [intros [?|?]; [contradiction | assumption] | now right].
Qed.

Lemma countUsed_add_le (used : gset string) v l :
  NoDup l -> (countUsed ({[v]} ∪ used) l <= S (countUsed used l))%nat.
Proof.
  intros Hnd.
  destruct (decide (v ∈ used)) as [Hused|Hfresh].
  - rewrite (countUsed_ext _ used); [lia|].
    intros w _. rewrite elem_of_union, elem_of_singleton.
    split; [intros [->|?]; assumption | now right].
  - destruct (decide (v ∈ l)) as [Hin|Hout].
    + now rewrite countUsed_add_fresh.
    + rewrite countUsed_add_other by exact Hout. lia.
Qed.

Lemma countUsed_full used l :
  countUsed used l = List.length l <-> (forall v, v ∈ l -> v ∈ used).
Proof.
  induction l as [|v l IH]; cbn.
  - split; [intros _ w Hw; now apply elem_of_nil in Hw | reflexivity].
  - pose proof (countUsed_le used l) as Hle.
    case_bool_decide as Hv.
    + split.
      * intros H w Hw. apply elem_of_cons in Hw as [->|Hw]; [exact Hv|].
        apply IH; [lia | exact Hw].
      * intros H. f_equal. apply IH. intros w Hw. apply H. now right.
    + split; [lia|]. intros H. exfalso. apply Hv, H. now left.
Qed.

Lemma fallbacksUsed_le used : (fallbacksUsed used <= 5)%nat.
Proof. apply (countUsed_le used FALLBACK_VOICES). Qed.

Lemma fallbacksUsed_full used :
  fallbacksUsed used = 5%nat <-> (forall v, v ∈ FALLBACK_VOICES -> v ∈ used).
Proof. apply (countUsed_full used FALLBACK_VOICES). Qed.

(** While a fallback voice is free, one is found among any five consecutive
    indices. *)
Lemma free_fallback (used : gset string) (idx : nat) :
  (fallbacksUsed used < 5)%nat ->
  exists j, (j < 5)%nat /\ fallbackAt (idx + j) ∉ used.
Proof.
  intros Hcount.
  destruct (decide (Forall (fun v => v ∈ used) FALLBACK_VOICES)) as [Hall|Hnot].
  - exfalso. rewrite Forall_forall in Hall.
    apply fallbacksUsed_full in Hall. lia.
  - apply not_Forall_Exists in Hnot; [|intros v; apply _].
    apply Exists_exists in Hnot as (v & Hv & Hfree).
    destruct (fallback_covered idx v Hv) as (j & Hj & <-).
    now exists j.
Qed.

Section Facts.

Variable voiceById : gmap string Voice.
Variable castingRaw : gmap string string.

Lemma resolveVoice_fallback (fallbackId : string) :
  voiceId (resolveVoice voiceById (Some fallbackId) fallbackId) = fallbackId.
Proof. cbn. now case_bool_decide. Qed.

Lemma resolveVoice_missing (fallbackId : string) :
  voiceId (resolveVoice voiceById None fallbackId) = fallbackId.
Proof. reflexivity. Qed.

Lemma resolveVoice_known (id fallbackId : string) :
  id <> "" -> is_Some (voiceById !! id) ->
  voiceId (resolveVoice voiceById (Some id) fallbackId) = id.
Proof. intros Hne Hin. cbn. now rewrite bool_decide_eq_true_2. Qed.

Lemma castNarrator_inv : cast_inv (castNarrator voiceById castingRaw).
Proof.
  split; cbn.
  - apply NoDup_singleton.
  - now rewrite union_empty_r_L.
Qed.

Lemma cast_inv_size st :
  cast_inv st -> size (usedIds st) = List.length (voiceMap st).
Proof.
  intros [Hnd Hset]. rewrite Hset, size_list_to_set by exact Hnd.
  unfold castIds. now rewrite length_fmap.
Qed.

(** What one iteration does, for either first loop. *)
Lemma castCharacter_inv firstLoop fuel st character st' :
  castCharacter voiceById castingRaw firstLoop fuel st character = Some st' ->
  exists voice,
    voiceMap st' = voiceMap st ++ [(character, voice)]
    /\ usedIds st' = {[voiceId voice]} ∪ usedIds st
    /\ voiceId voice ∉ usedIds st.
Proof.
  unfold castCharacter. intros H.
  destruct (firstLoop (usedIds st) (fallbackIdx st)) as [idx|];
    [|discriminate].
  cbn [mbind option_bind] in H. cbv zeta in H.
  case_bool_decide as Hin.
  - destruct (skipUsed (usedIds st) fuel idx) as [idx'|] eqn:Hskip;
      [|discriminate].
    cbn in H. injection H as Hst. subst st'.
    apply skipUsed_free in Hskip as [Hfree _].
    eexists. repeat apply conj; try reflexivity.
    now rewrite resolveVoice_fallback.
  - cbn in H. injection H as Hst. subst st'.
    eexists. repeat apply conj; try reflexivity. exact Hin.
Qed.

Lemma castCharacter_keeps firstLoop fuel st character st' :
  cast_inv st ->
  castCharacter voiceById castingRaw firstLoop fuel st character = Some st' ->
  cast_inv st'
  /\ fst <$> voiceMap st' = (fst <$> voiceMap st) ++ [character].
Proof.
  intros [Hnd Hset] H.
  apply castCharacter_inv in H as (voice & Hmap & Hused & Hfresh).
  unfold cast_inv, castIds. rewrite Hmap, Hused, !fmap_app. cbn.
  repeat apply conj.
  - apply NoDup_app. repeat apply conj.
    + exact Hnd.
    + intros v Hv Hv'. apply list_elem_of_singleton in Hv' as ->.
      apply Hfresh. rewrite Hset. now apply elem_of_list_to_set.
    + apply NoDup_singleton.
  - rewrite list_to_set_app, Hset. cbn.
    now rewrite union_empty_r_L, (comm_L (∪)).
  - reflexivity.
Qed.

Lemma castAll_keeps firstLoop fuel characters :
  forall st st',
  cast_inv st ->
  castAll voiceById castingRaw firstLoop fuel st characters = Some st' ->
  cast_inv st'
  /\ fst <$> voiceMap st' = (fst <$> voiceMap st) ++ characters.
Proof.
  induction characters as [|c cs IH]; intros st st' Hinv; cbn [castAll].
  - intros [= <-]. now rewrite app_nil_r.
  - destruct (castCharacter _ _ _ _ st c) as [st1|] eqn:H1; [|discriminate].
    cbn. intros H2.
    destruct (castCharacter_keeps _ _ _ _ _ Hinv H1) as [Hinv1 Hn1].
    destruct (IH _ _ Hinv1 H2) as [Hinv' Hn'].
    split; [exact Hinv'|]. now rewrite Hn', Hn1, <- app_assoc.
Qed.

Lemma castCharacter_count firstLoop fuel st character st' :
  castCharacter voiceById castingRaw firstLoop fuel st character = Some st' ->
  (fallbacksUsed (usedIds st') <= S (fallbacksUsed (usedIds st)))%nat.
Proof.
  intros H. apply castCharacter_inv in H as (voice & _ & -> & _).
  apply countUsed_add_le, FALLBACK_VOICES_NoDup.
Qed.

(** One iteration of the screenplay loop ends while a fallback voice is
    free. *)
Lemma castCharacter_some fuel st character :
  (5 <= fuel)%nat -> (fallbacksUsed (usedIds st) < 5)%nat ->
  is_Some (castCharacter voiceById castingRaw
             (fun usedIds fallbackIdx => skipUsed usedIds fuel fallbackIdx)
             fuel st character).
Proof.
  intros Hfuel Hcount. unfold castCharacter.
  destruct (free_fallback (usedIds st) (fallbackIdx st) Hcount)
    as (j & Hj & Hfree).
  destruct (skipUsed_some (usedIds st) fuel (fallbackIdx st) j
              ltac:(lia) Hfree) as [idx Hidx].
  rewrite Hidx. cbn [mbind option_bind]. cbv zeta.
  destruct (skipUsed_free _ _ _ _ Hidx) as [Hfree' _].
  destruct fuel as [|fuel]; [lia|].
  rewrite (skipUsed_now _ fuel idx Hfree').
  case_bool_decide; cbn; eauto.
Qed.

Lemma castAll_some fuel characters :
  forall st,
  (5 <= fuel)%nat ->
  (fallbacksUsed (usedIds st) + List.length characters <= 5)%nat ->
  is_Some (castAll voiceById castingRaw
             (fun usedIds fallbackIdx => skipUsed usedIds fuel fallbackIdx)
             fuel st characters).
Proof.
  induction characters as [|c cs IH]; intros st Hfuel Hlen; cbn [castAll];
    [eauto|].
  cbn [List.length] in Hlen.
  destruct (castCharacter_some fuel st c Hfuel ltac:(lia)) as [st1 H1].
  rewrite H1. cbn.
  apply IH; [exact Hfuel|].
  apply castCharacter_count in H1. lia.
Qed.

(** Once every fallback voice is in use, the first loop of the next
    iteration never ends. *)
Lemma castCharacter_stuck fuel st character :
  fallbacksUsed (usedIds st) = 5%nat ->
  castCharacter voiceById castingRaw
    (fun usedIds fallbackIdx => skipUsed usedIds fuel fallbackIdx)
    fuel st character = None.
Proof.
  intros Hfull. unfold castCharacter.
  now rewrite skipUsed_none by now apply fallbacksUsed_full.
Qed.

(** A character without a usable proposal takes a fallback voice. *)
Lemma castCharacter_uncast fuel st character st' :
  castingRaw !! character = None ->
  castCharacter voiceById castingRaw
    (fun usedIds fallbackIdx => skipUsed usedIds fuel fallbackIdx)
    fuel st character = Some st' ->
  fallbacksUsed (usedIds st') = S (fallbacksUsed (usedIds st)).
Proof.
  intros Hraw H. unfold castCharacter in H. rewrite Hraw in H.
  destruct (skipUsed (usedIds st) fuel (fallbackIdx st)) as [idx|] eqn:Hidx;
    [|discriminate].
  cbn [mbind option_bind] in H. cbv zeta in H.
  destruct (skipUsed_free _ _ _ _ Hidx) as [Hfree _].
  rewrite resolveVoice_missing in H.
  rewrite bool_decide_eq_false_2 in H by exact Hfree.
  cbn in H. injection H as Hst. subst st'. cbn [usedIds].
  apply countUsed_add_fresh;
    [apply FALLBACK_VOICES_NoDup | apply fallbackAt_elem | exact Hfree].
Qed.

Lemma castAll_uncast_stuck characters :
  forall fuel st,
  (forall c, c ∈ characters -> castingRaw !! c = None) ->
  (5 < fallbacksUsed (usedIds st) + List.length characters)%nat ->
  castAll voiceById castingRaw
    (fun usedIds fallbackIdx => skipUsed usedIds fuel fallbackIdx)
    fuel st characters = None.
Proof.
  induction characters as [|c cs IH]; intros fuel st Hraw Hlen; cbn [castAll].
  - pose proof (fallbacksUsed_le (usedIds st)). cbn [List.length] in Hlen.
    lia.
  - destruct (castCharacter _ _ _ _ st c) as [st1|] eqn:H1; [|reflexivity].
    cbn. apply IH; [intros c' Hc'; apply Hraw; now right|].
    apply castCharacter_uncast in H1; [|apply Hraw; now left].
    cbn [List.length] in Hlen. lia.
Qed.

Lemma castNarrator_count :
  fallbacksUsed (usedIds (castNarrator voiceById castingRaw))
  = if bool_decide
         (voiceId (resolveVoice voiceById (castingRaw !! "narrator")
                     FALLBACK_NARRATOR) ∈ FALLBACK_VOICES)
    then 1%nat else 0%nat.
Proof.
  cbn [castNarrator usedIds]. cbv zeta. unfold fallbacksUsed.
  set (v := voiceId _).
  replace ({[v]} : gset string) with ({[v]} ∪ ∅ : gset string)
    by apply union_empty_r_L.
  case_bool_decide as Hin.
  - now rewrite (countUsed_add_fresh ∅ v FALLBACK_VOICES
                   FALLBACK_VOICES_NoDup Hin (not_elem_of_empty v)).
  - now rewrite countUsed_add_other by exact Hin.
Qed.

(** X12.  Whenever the casting loop ends, in the screenplay route or in the
    book route, the roles were written in order after the narrator and no
    two writes carry the same voice id, whatever the model proposed. *)
Theorem cast_voices_distinct (fuel : nat) (characters : list string)
    (st : CastState) :
  castVoices voiceById castingRaw fuel characters = Some st
  \/ castVoicesBook voiceById castingRaw fuel characters = Some st ->
  fst <$> voiceMap st = "narrator" :: characters
  /\ NoDup (castIds st)
  /\ (forall id, id ∈ usedIds st <-> id ∈ castIds st).
Proof.
  intros H.
  assert (Hkeep : cast_inv st
                  /\ fst <$> voiceMap st = ["narrator"] ++ characters).
  { destruct H as [H|H];
      exact (castAll_keeps _ _ _ _ _ castNarrator_inv H). }
  destruct Hkeep as [[Hnd Hset] Hnames].
  repeat apply conj; [exact Hnames | exact Hnd |].
  intros id. rewrite Hset. apply elem_of_list_to_set.
Qed.

(** X13.  With at most four characters the screenplay route's casting loop
    always ends, whatever the model proposed: a fallback voice is then
    still free whenever one is looked for. *)
Theorem cast_voices_terminates (fuel : nat) (characters : list string) :
  (5 <= fuel)%nat -> (List.length characters <= 4)%nat ->
  is_Some (castVoices voiceById castingRaw fuel characters).
Proof.
  intros Hfuel Hlen. apply castAll_some; [exact Hfuel|].
  rewrite castNarrator_count. case_bool_decide; lia.
Qed.

(** X14.  When the model proposed nothing for the characters (the casting
    call failed, say), the screenplay route's loop ends exactly when the
    characters, plus the narrator if it holds a fallback voice, are at most
    five; with more it never ends, however long it runs. *)
Theorem cast_voices_uncast (characters : list string) :
  (forall c, c ∈ characters -> castingRaw !! c = None) ->
  let held :=
    if bool_decide
         (voiceId (resolveVoice voiceById (castingRaw !! "narrator")
                     FALLBACK_NARRATOR) ∈ FALLBACK_VOICES)
    then 1%nat else 0%nat in
  ((List.length characters + held <= 5)%nat ->
   forall fuel, (5 <= fuel)%nat ->
     is_Some (castVoices voiceById castingRaw fuel characters))
  /\ ((5 < List.length characters + held)%nat ->
      forall fuel, castVoices voiceById castingRaw fuel characters = None).
Proof.
  intros Hraw held. split.
  - intros Hlen fuel Hfuel. apply castAll_some; [exact Hfuel|].
    rewrite castNarrator_count. fold held. lia.
  - intros Hlen fuel. apply castAll_uncast_stuck; [exact Hraw|].
    rewrite castNarrator_count. fold held. lia.
Qed.

(** X15.  In the book route the first loop does not refresh [fallback]:
    when the fallback voice due for a speaker is already in use, the loop
    never ends.  So a narrator cast to the first fallback voice stalls the
    route at the first speaker. *)
Theorem cast_book_stalls (speakers : list string) :
  speakers <> [] ->
  voiceId (resolveVoice voiceById (castingRaw !! "narrator")
             FALLBACK_NARRATOR) = fallbackAt 0 ->
  forall fuel, castVoicesBook voiceById castingRaw fuel speakers = None.
Proof.
  intros Hne Hnarr fuel.
  destruct speakers as [|speaker rest]; [contradiction|].
  unfold castVoicesBook. cbn [castAll]. unfold castCharacter.
  rewrite skipUsedStale_none; [reflexivity|].
  cbn [castNarrator usedIds fallbackIdx]. cbv zeta.
  rewrite Hnarr. now apply elem_of_singleton.
Qed.

End Facts.

Lemma cast_voices_distinct_witness :
  exists st,
    castVoices one_voice narrator_rachel 5 ["Ann"; "Bob"] = Some st
    /\ fst <$> voiceMap st = ["narrator"; "Ann"; "Bob"]
    /\ NoDup (castIds st).
Proof.
  destruct (castAll_some one_voice narrator_rachel 5 ["Ann"; "Bob"]
              (castNarrator one_voice narrator_rachel) ltac:(lia))
    as [st Hst].
  { rewrite castNarrator_count. case_bool_decide; cbn; lia. }
  exists st. split; [exact Hst|].
  destruct (cast_voices_distinct one_voice narrator_rachel 5 ["Ann"; "Bob"]
              st (or_introl Hst)) as (Hnames & Hnd & _).
  split; assumption.
Defined.

Lemma cast_voices_terminates_witness :
  is_Some (castVoices one_voice narrator_rachel 5 ["Ann"; "Bob"; "Cy"; "Di"]).
Proof.
  apply (cast_voices_terminates one_voice narrator_rachel 5
           ["Ann"; "Bob"; "Cy"; "Di"]); cbn; lia.
Defined.

Lemma cast_voices_uncast_witness :
  castVoices ∅ ∅ 100 six_characters = None.
Proof.
  refine (proj2 (cast_voices_uncast ∅ ∅ six_characters _) _ 100%nat).
  - intros c _. apply lookup_empty.
  - cbn. lia.
Defined.

Lemma cast_book_stalls_witness :
  castVoicesBook one_voice narrator_rachel 100 ["Ann"] = None.
Proof.
  apply (cast_book_stalls one_voice narrator_rachel ["Ann"]).
  - discriminate.
  - vm_compute. reflexivity.
Defined.

End CastingFacts.

(** ** The scene timeline, end to end *)

Module TimelineFacts.
Import Script Generate GenerateFacts InterpolationFacts Timeline.

Lemma firstLine_some dialogueLines scene l :
  firstLine dialogueLines scene = Some l ->
  exists k, dialogueLines !! k = Some l /\ sceneIndex l = index scene.
Proof.
  intros H. apply find_some in H as [Hin Hidx].
  apply bool_decide_eq_true in Hidx.
  apply list_elem_of_In, list_elem_of_lookup_1 in Hin as [k Hk]. eauto.
Qed.

(** Scenes with the same index read the same line. *)
Lemma firstLine_index dialogueLines scene scene' :
  index scene = index scene' ->
  firstLine dialogueLines scene = firstLine dialogueLines scene'.
Proof. unfold firstLine. now intros ->. Qed.

Section WellFormed.

Variable scenes : list ScriptScene.
Variable dialogueLines : list ScriptDialogueLine.
Variable lineDurations : list Q.

Hypothesis Hwf : well_formed scenes dialogueLines lineDurations.

Local Abbreviation n := (List.length dialogueLines).
Local Abbreviation gap := (gapBefore dialogueLines).
Local Abbreviation dur := (durationOf lineDurations).
Local Abbreviation lineStartTimes :=
  (fst (lineSchedule dialogueLines lineDurations)).
Local Abbreviation cursor := (snd (lineSchedule dialogueLines lineDurations)).

Lemma dur_nonneg (i : nat) : (0 <= dur i)%Q.
Proof. apply ScriptFacts.lineDuration_nonneg, Hwf. Qed.

(** The line a scene is anchored on starts at its place in the cadence. *)
Lemma rawTime_anchor scene :
  exists r,
    rawTime dialogueLines lineStartTimes scene = Some r
    /\ forall a, r = Some a ->
         exists k l, dialogueLines !! k = Some l
                     /\ sceneIndex l = index scene
                     /\ a = startAt gap dur k.
Proof.
  unfold rawTime.
  destruct (firstLine dialogueLines scene) as [l|] eqn:Hfirst.
  - destruct (firstLine_some _ _ _ Hfirst) as (k & Hk & Hidx).
    destruct Hwf as (Hline & _).
    rewrite (Hline k l Hk), arr_get_nat.
    pose proof (lookup_lt_Some _ _ _ Hk) as Hlt.
    unfold lineSchedule. rewrite cadence_lookup by exact Hlt.
    eexists. split; [reflexivity|].
    intros a [= <-]. eauto.
  - eexists. split; [reflexivity|]. discriminate.
Qed.

Lemma rawTimes_some :
  exists raw,
    rawTimes scenes dialogueLines lineStartTimes = Some raw
    /\ Forall2 (fun scene r =>
                  rawTime dialogueLines lineStartTimes scene = Some r)
         scenes raw.
Proof.
  destruct (mapM_is_Some_2 (rawTime dialogueLines lineStartTimes) scenes)
    as [raw Hraw].
  - apply Forall_forall. intros scene _.
    destruct (rawTime_anchor scene) as (r & Hr & _).
    unfold compose. rewrite Hr. eauto.
  - exists raw. split; [exact Hraw|]. now apply mapM_Some_1.
Qed.

Lemma anchor_line raw p a :
  Forall2 (fun scene r => rawTime dialogueLines lineStartTimes scene = Some r)
    scenes raw ->
  raw !! p = Some (Some a) ->
  exists scene k l,
    scenes !! p = Some scene /\ dialogueLines !! k = Some l
    /\ sceneIndex l = index scene /\ a = startAt gap dur k.
Proof.
  intros Hall Hp.
  destruct (Forall2_lookup_r _ _ _ _ _ Hall Hp) as (scene & Hscene & Hraw).
  destruct (rawTime_anchor scene) as (r & Hr & Hanchor).
  rewrite Hr in Hraw. injection Hraw as ->.
  destruct (Hanchor a eq_refl) as (k & l & Hk & Hidx & Ha).
  exists scene, k, l. auto.
Qed.

Lemma rawTimes_ordered raw :
  Forall2 (fun scene r => rawTime dialogueLines lineStartTimes scene = Some r)
    scenes raw ->
  anchors_ordered raw cursor.
Proof.
  intros Hall.
  pose proof (sceneGap_mono_all := ScriptFacts.sceneGap_mono dialogueLines).
  split; [|split].
  - apply cursor_nonneg; [exact sceneGap_mono_all | exact dur_nonneg].
  - intros p a Hp.
    destruct (anchor_line raw p a Hall Hp) as (scene & k & l & _ & Hk & _ & ->).
    split.
    + apply startAt_nonneg; [exact sceneGap_mono_all | exact dur_nonneg].
    + pose proof (lookup_lt_Some _ _ _ Hk) as Hlt.
      pose proof (unit_end_le_cursor gap dur sceneGap_mono_all dur_nonneg
                    k n Hlt) as Hend.
      pose proof (dur_nonneg k). unfold lineSchedule. lra.
  - intros p q a b Hpq Hp Hq.
    destruct (anchor_line raw p a Hall Hp)
      as (sp & kp & lp & Hsp & Hkp & Hip & ->).
    destruct (anchor_line raw q b Hall Hq)
      as (sq & kq & lq & Hsq & Hkq & Hiq & ->).
    destruct Hwf as (_ & Hlines & Hscenes & _).
    pose proof (Hscenes p q sp sq ltac:(lia) Hsp Hsq) as Hle.
    destruct (decide (index sp = index sq)) as [Heq|Hne].
    + destruct (Forall2_lookup_r _ _ _ _ _ Hall Hp) as (sp' & Hsp' & Hrp).
      destruct (Forall2_lookup_r _ _ _ _ _ Hall Hq) as (sq' & Hsq' & Hrq).
      assert (sp' = sp) as -> by congruence.
      assert (sq' = sq) as -> by congruence.
      unfold rawTime in Hrp, Hrq.
      rewrite (firstLine_index dialogueLines sp sq Heq) in Hrp.
      rewrite Hrp in Hrq. injection Hrq as Hab. rewrite Hab. lra.
    + apply startAt_mono; [exact sceneGap_mono_all | exact dur_nonneg |].
      destruct (Nat.le_gt_cases kp kq) as [|Hgt]; [assumption|].
      pose proof (Hlines kq kp lq lp ltac:(lia) Hkq Hkp). lia.
Qed.

End WellFormed.

(** X16.  For a well-formed script (lines numbered by position and grouped
    by scene in order, scenes in order, no negative duration) the route
    computes one start time per scene; the times lie between 0 and the end
    of the speech, never decrease from a scene to the next, and a scene with
    dialogue starts where its first line starts. *)
Theorem scene_timeline_ordered (scenes : list ScriptScene)
    (dialogueLines : list ScriptDialogueLine) (lineDurations : list Q) :
  well_formed scenes dialogueLines lineDurations ->
  exists times cursor,
    sceneTimeline scenes dialogueLines lineDurations = Some (times, cursor)
    /\ List.length times = List.length scenes
    /\ (forall i t, times !! i = Some t -> (0 <= t <= cursor)%Q)
    /\ (forall i t t', times !! i = Some t -> times !! S i = Some t' ->
          (t <= t')%Q)
    /\ (forall i scene l,
          scenes !! i = Some scene ->
          firstLine dialogueLines scene = Some l ->
          times !! i
          = fst (lineSchedule dialogueLines lineDurations)
              !! Z.to_nat (lineIndex l)).
Proof.
  intros Hwf.
  destruct (rawTimes_some scenes dialogueLines lineDurations Hwf)
    as (raw & Hraw & Hall).
  pose proof (rawTimes_ordered scenes dialogueLines lineDurations Hwf raw Hall)
    as Hanch.
  unfold sceneTimeline.
  destruct (lineSchedule dialogueLines lineDurations)
    as [lineStartTimes cursor] eqn:Hsched.
  cbn [fst snd] in *. rewrite Hraw. cbn.
  eexists _, _. split; [reflexivity|].
  repeat apply conj.
  - unfold sceneStartTimes. rewrite length_imap.
    symmetry. exact (Forall2_length _ _ _ Hall).
  - intros i t Ht. exact (proj1 (start_between_anchors _ _ _ _ Hanch Ht)).
  - intros i t t'. exact (starts_monotone _ _ _ _ _ Hanch).
  - intros i scene l Hscene Hfirst.
    destruct (Forall2_lookup_l _ _ _ _ _ Hall Hscene) as (r & Hr & Hrt).
    rewrite sceneStartTimes_lookup, Hr. cbn.
    unfold rawTime in Hrt. rewrite Hfirst in Hrt.
    destruct (firstLine_some _ _ _ Hfirst) as (k & Hk & _).
    destruct Hwf as (Hline & _).
    rewrite (Hline k l Hk), arr_get_nat in Hrt.
    rewrite (Hline k l Hk), Nat2Z.id.
    destruct (lineStartTimes !! k) as [t|]; [|discriminate].
    cbn in Hrt. now injection Hrt as <-.
Qed.

Lemma example_script_well_formed :
  well_formed example_scenes example_lines example_durations.
Proof.
  repeat apply conj.
  - intros [|[|[|k]]] l; cbn; intros [= <-]; reflexivity.
  - intros j k lj lk Hjk Hj Hk.
    destruct j as [|[|[|j]]]; cbn in Hj; try discriminate;
      injection Hj as <-;
      destruct k as [|[|[|k]]]; cbn in Hk; try discriminate;
      injection Hk as <-; cbn; lia.
  - intros p q sp sq Hpq Hp Hq.
    destruct p as [|[|[|[|p]]]]; cbn in Hp; try discriminate;
      injection Hp as <-;
      destruct q as [|[|[|[|q]]]]; cbn in Hq; try discriminate;
      injection Hq as <-; cbn; lia.
  - repeat constructor; unfold Qle; cbn; lia.
Qed.

Lemma scene_timeline_ordered_witness :
  exists times cursor,
    sceneTimeline example_scenes example_lines example_durations
    = Some (times, cursor)
    /\ List.length times = 4%nat.
Proof.
  destruct (scene_timeline_ordered example_scenes example_lines
              example_durations example_script_well_formed)
    as (times & cursor & Htl & Hlen & _).
  exists times, cursor. split; assumption.
Defined.

End TimelineFacts.

(** ** Music for a scene *)

Module LyriaFacts.
Import Lyria EncoderFacts.

(** A file the encoder returned is the header in front of its input. *)
Lemma pcmToWav_inv (pcm : list Z) (channels sampleRate : Z) (out : list Z) :
  Generate.pcmToWav pcm channels sampleRate = Some out ->
  out = header channels sampleRate (Z.of_nat (List.length pcm)) ++ pcm.
Proof.
  intros H.
  destruct (decide (36 + Z.of_nat (List.length pcm) < 4294967296
                    /\ 0 <= channels /\ channels * 2 < 65536
                    /\ 0 <= sampleRate < 4294967296
                    /\ 0 <= sampleRate * channels * 2 < 4294967296))
    as [Hfits|Hnot].
  - rewrite pcmToWav_some in H by lia. congruence.
  - exfalso. revert H.
    unfold Generate.pcmToWav, Generate.writeUInt32LE, Generate.writeUInt16LE.
    cbv zeta.
    repeat lazymatch goal with
    | |- (if bool_decide ?P then _ else _) ≫= _ = Some _ -> False =>
        destruct (bool_decide_reflect P);
          [cbn [mbind option_bind] | discriminate]
    end.
    intros _. apply Hnot. lia.
Qed.

Section StreamFacts.

Variable fromBase64 : string -> list Z.
Variable target : Z.

Hypothesis target_pos : 0 < target.

Lemma init_collecting : collecting target init.
Proof.
  unfold collecting. cbn. repeat apply conj; try discriminate; auto; lia.
Qed.

Lemma finished_finish st : finished st = true -> finish st = st.
Proof. unfold finish. now intros ->. Qed.

Lemma finish_finished st : finished (finish st) = true.
Proof.
  unfold finish. destruct (finished st) eqn:Hf; [exact Hf|].
  now destruct (chunks st).
Qed.

(** [finish] settles a collector, also one that just reached its target. *)
Lemma finish_settles st :
  totalBytes st = Z.of_nat (List.length (concat (chunks st))) ->
  finished st = false -> resolved st = None ->
  Z.of_nat (List.length (concat (removelast (chunks st)))) < target ->
  collecting target (finish st).
Proof.
  intros Hbytes Hf Hres Hlast.
  unfold finish, collecting. rewrite Hf.
  destruct (chunks st) as [|c cs] eqn:Hchunks;
    cbn [chunks totalBytes finished resolved]; rewrite ?Hchunks.
  - repeat apply conj; try discriminate; auto.
  - rewrite Hres. repeat apply conj; try discriminate; auto.
    + intros wav Hw.
      destruct (Generate.pcmToWav (concat (c :: cs)) 2 48000) as [w|];
        [|discriminate].
      injection Hw as ->. split; [discriminate | reflexivity].
    + now destruct (Generate.pcmToWav (concat (c :: cs)) 2 48000).
Qed.

Lemma finish_collecting st :
  collecting target st -> collecting target (finish st).
Proof.
  intros Hst. destruct (finished st) eqn:Hf.
  { now rewrite finished_finish. }
  destruct Hst as (Hbytes & Hopen & Hlast & _).
  destruct (Hopen Hf) as [Hres _].
  now apply finish_settles.
Qed.

Lemma onChunk_collecting st data :
  collecting target st ->
  collecting target (onChunk fromBase64 target st data).
Proof.
  intros Hst. unfold onChunk.
  destruct data as [data|]; [|exact Hst].
  destruct (bool_decide (data <> "") && negb (finished st)) eqn:Hacc;
    [|exact Hst].
  apply andb_true_iff in Hacc as [_ Hopen].
  apply negb_true_iff in Hopen. cbv zeta.
  destruct Hst as (Hbytes & Hunf & Hlast & Hwav & Hnull).
  destruct (Hunf Hopen) as [Hres Hlt].
  cbn [totalBytes].
  destruct (Z.leb_spec target
              (totalBytes st + Z.of_nat (List.length (fromBase64 data))))
    as [Hreached|Hbelow].
  - apply finish_settles; cbn [chunks totalBytes finished resolved];
      rewrite ?removelast_last; auto; [|lia].
    rewrite concat_app, length_app. cbn. rewrite app_nil_r. lia.
  - unfold collecting. cbn [chunks totalBytes finished resolved].
    rewrite removelast_last, Hres.
    repeat apply conj; try discriminate.
    + rewrite concat_app, length_app. cbn. rewrite app_nil_r. lia.
    + intros _. split; [reflexivity | lia].
    + lia.
Qed.

Lemma step_collecting st event :
  collecting target st -> collecting target (step fromBase64 target st event).
Proof.
  intros Hst. destruct event as [audioChunks| | |]; cbn [step];
    try now apply finish_collecting.
  revert st Hst. induction audioChunks as [|data rest IH]; intros st Hst;
    [exact Hst|].
  cbn [foldl]. apply IH, onChunk_collecting, Hst.
Qed.

Lemma run_collecting events : collecting target (run fromBase64 target events).
Proof.
  unfold run. generalize init_collecting. generalize init.
  induction events as [|event rest IH]; intros st Hst; [exact Hst|].
  cbn [foldl]. apply IH, step_collecting, Hst.
Qed.

(** A finished collector ignores every event. *)
Lemma onChunk_finished st data :
  finished st = true -> onChunk fromBase64 target st data = st.
Proof.
  intros Hf. unfold onChunk. destruct data as [data|]; [|reflexivity].
  rewrite Hf. cbn. now rewrite andb_false_r.
Qed.

Lemma step_finished st event :
  finished st = true -> step fromBase64 target st event = st.
Proof.
  intros Hf. destruct event as [audioChunks| | |]; cbn [step];
    try now apply finished_finish.
  induction audioChunks as [|data rest IH]; [reflexivity|].
  cbn [foldl]. now rewrite onChunk_finished.
Qed.

Lemma steps_finished st events :
  finished st = true -> foldl (step fromBase64 target) st events = st.
Proof.
  intros Hf. induction events as [|event rest IH]; [reflexivity|].
  cbn [foldl]. now rewrite step_finished.
Qed.

(** X17.  However the music stream goes, the collector counts the bytes of
    its chunks; it stops at the first chunk that reaches the target (the
    chunks before the last one stay below it); while it has not finished
    the promise is pending and the bytes are below the target; it resolves
    with the WAV header (stereo, 48 kHz) in front of the chunks in order,
    and with [null] only when there is no chunk. *)
Theorem lyria_collects (events : list Event) :
  let st := run fromBase64 target events in
  totalBytes st = Z.of_nat (List.length (concat (chunks st)))
  /\ Z.of_nat (List.length (concat (removelast (chunks st)))) < target
  /\ (finished st = false -> resolved st = None /\ totalBytes st < target)
  /\ (forall wav, resolved st = Some (Some wav) ->
        chunks st <> []
        /\ wav = header 2 48000 (totalBytes st) ++ concat (chunks st))
  /\ (resolved st = Some None -> chunks st = []).
Proof.
  cbv zeta.
  destruct (run_collecting events) as (Hbytes & Hopen & Hlast & Hwav & Hnull).
  repeat apply conj; auto.
  intros wav Hw. destruct (Hwav wav Hw) as [Hne Henc].
  split; [exact Hne|]. rewrite Hbytes. now apply pcmToWav_inv.
Qed.

(** X18.  The collector finishes once: a timeout, an error or a close
    finishes it, so does reaching the target, and once it has finished no
    further event changes its chunks or what the promise resolved with. *)
Theorem lyria_finishes_once (events : list Event) :
  (forall last, last ∈ [Timeout; WsError; Close] ->
     finished (run fromBase64 target (events ++ [last])) = true)
  /\ (target <= totalBytes (run fromBase64 target events) ->
      finished (run fromBase64 target events) = true)
  /\ (finished (run fromBase64 target events) = true ->
      forall more,
        run fromBase64 target (events ++ more)
        = run fromBase64 target events).
Proof.
  repeat apply conj.
  - intros last Hlast. unfold run. rewrite foldl_app. cbn [foldl].
    assert (Hstep : forall st, step fromBase64 target st last = finish st).
    { intros st. repeat (apply elem_of_cons in Hlast as [->|Hlast];
                         [reflexivity|]).
      now apply elem_of_nil in Hlast. }
    rewrite Hstep. apply finish_finished.
  - intros Hreached.
    destruct (run_collecting events) as (_ & Hopen & _).
    destruct (finished (run fromBase64 target events)); [reflexivity|].
    destruct (Hopen eq_refl) as [_ Hlt]. lia.
  - intros Hfin more. unfold run in *. rewrite foldl_app.
    now apply steps_finished.
Qed.

End StreamFacts.

Lemma targetBytes_6 : 0 < targetBytes 6.
Proof. vm_compute. reflexivity. Qed.

Lemma lyria_collects_witness :
  totalBytes (run example_fromBase64 (targetBytes 6)
                [Message [Some "AAAA"; None; Some "AAAAAAAA"]; Close])
  = Z.of_nat (List.length (concat (chunks
      (run example_fromBase64 (targetBytes 6)
         [Message [Some "AAAA"; None; Some "AAAAAAAA"]; Close])))).
Proof.
  exact (proj1 (lyria_collects example_fromBase64 (targetBytes 6)
                  targetBytes_6
                  [Message [Some "AAAA"; None; Some "AAAAAAAA"]; Close])).
Defined.

Lemma lyria_finishes_once_witness :
  finished (run example_fromBase64 (targetBytes 6)
              ([Message [Some "AAAA"]] ++ [Timeout])) = true.
Proof.
  apply (proj1 (lyria_finishes_once example_fromBase64 (targetBytes 6)
                  targetBytes_6 [Message [Some "AAAA"]])).
  apply list_elem_of_here.
Defined.

Lemma arr_at_whole {A : Type} (arr : list A) (x : Q) (z : Z) :
  (x == inject_Z z)%Q -> arr_at arr x = arr_get arr z.
Proof.
  intros Hx. unfold arr_at.
  assert (Hf : Qfloor x = z) by (rewrite Hx; apply Qfloor_Z).
  rewrite Hf.
  destruct (Qeq_bool x (inject_Z z)) eqn:Hb; [reflexivity|].
  apply Qeq_bool_neq in Hb. contradiction.
Qed.

Lemma succ_whole (z : Z) : (inject_Z z + 1 == inject_Z (z + 1))%Q.
Proof. rewrite inject_Z_plus. reflexivity. Qed.

(** X19.  A music request whose duration is a number is for 6 to 25
    seconds, that is for between 1,152,000 and 4,800,000 bytes of PCM.  The
    duration is not a number exactly when the scene's own entry of
    [sceneStartTimes] is NaN, or when [sceneIndex + 1] is below the length
    of the array and the array holds no time there: the entry is NaN or
    [undefined], or the index is negative or not whole.  When every entry
    is a time and the index is whole, that happens exactly for an index
    below -1. *)
Theorem music_request_bounds (sceneStartTimes : list SceneTime)
    (cursor sceneIndex : Q) :
  (musicDuration sceneStartTimes cursor sceneIndex = None
   <-> arr_at sceneStartTimes sceneIndex = Some notANumber
       \/ ((sceneIndex + 1
            < inject_Z (Z.of_nat (List.length sceneStartTimes)))%Q
           /\ forall t : Q,
                arr_at sceneStartTimes (sceneIndex + 1) <> Some (time t)))
  /\ (forall d : Q,
        musicDuration sceneStartTimes cursor sceneIndex = Some d ->
        (6 <= d <= 25)%Q /\ 1152000 <= targetBytes d <= 4800000)
  /\ (forall z : Z,
        Forall (fun e => exists t : Q, e = time t) sceneStartTimes ->
        (musicDuration sceneStartTimes cursor (inject_Z z) = None
         <-> z < -1)).
Proof.
  assert (Hnan : forall x : Q,
    musicDuration sceneStartTimes cursor x = None
    <-> arr_at sceneStartTimes x = Some notANumber
        \/ ((x + 1 < inject_Z (Z.of_nat (List.length sceneStartTimes)))%Q
            /\ forall t : Q,
                 arr_at sceneStartTimes (x + 1) <> Some (time t))).
  { intros x. unfold musicDuration, startTimeOf, nextStartOf.
    pose proof (Qltb_lt (x + 1)
                  (inject_Z (Z.of_nat (List.length sceneStartTimes)))) as Hlt.
    destruct (Qltb (x + 1)
                (inject_Z (Z.of_nat (List.length sceneStartTimes)))).
    - assert (Hin : (x + 1
                     < inject_Z (Z.of_nat (List.length sceneStartTimes)))%Q)
        by now apply Hlt.
      destruct (arr_at sceneStartTimes x) as [[t| |]|];
        destruct (arr_at sceneStartTimes (x + 1)) as [[t'| |]|]; cbn;
        (split;
         [ first [ discriminate
                 | intros _; first [ left; reflexivity
                                   | right; split; [exact Hin|];
                                     intros ?; discriminate ] ]
         | first [ reflexivity
                 | intros [Hn|[_ Hn]];
                   [ discriminate | exfalso; eapply Hn; reflexivity ] ] ]).
    - assert (Hout : ~ (x + 1
                        < inject_Z (Z.of_nat (List.length sceneStartTimes)))%Q).
      { intros Hc. apply Hlt in Hc. discriminate. }
      destruct (arr_at sceneStartTimes x) as [[t| |]|]; cbn;
        (split;
         [ first [ discriminate | intros _; left; reflexivity ]
         | first [ reflexivity
                 | intros [Hn|[Hn _]]; [discriminate | contradiction] ] ]). }
  split; [apply Hnan|]. split.
  - intros d Hd. unfold musicDuration in Hd.
    destruct (startTimeOf sceneStartTimes sceneIndex) as [startTime|];
      [|discriminate].
    destruct (nextStartOf sceneStartTimes cursor sceneIndex) as [nextStart|];
      [|discriminate].
    cbn in Hd. injection Hd as <-.
    set (x := (nextStart - startTime + 2)%Q).
    assert (Hd : (6 <= Qmax 6 (Qmin x 25) <= 25)%Q).
    { split; [apply Q.le_max_l|].
      apply Q.max_lub; [lra | apply Q.le_min_r]. }
    split; [exact Hd|].
    unfold targetBytes.
    assert (Hmin : (Qmin (Qmax 6 (Qmin x 25)) 25 == Qmax 6 (Qmin x 25))%Q).
    { apply Q.min_l, Hd. }
    rewrite Hmin.
    split.
    + change 1152000 with (Qceiling (6 * 48000 * 4)%Q).
      apply Qceiling_resp_le. lra.
    + change 4800000 with (Qceiling (25 * 48000 * 4)%Q).
      apply Qceiling_resp_le. lra.
  - intros z Hall. rewrite Hnan.
    rewrite (arr_at_whole sceneStartTimes (inject_Z z) z) by reflexivity.
    rewrite (arr_at_whole sceneStartTimes (inject_Z z + 1) (z + 1))
      by apply succ_whole.
    rewrite succ_whole, <- Zlt_Qlt.
    assert (Htimes : forall (i : Z) (e : SceneTime),
              arr_get sceneStartTimes i = Some e -> exists t : Q, e = time t).
    { intros i e. unfold arr_get. destruct (i <? 0); [discriminate|].
      intros He. exact (Forall_lookup_1 _ _ _ _ Hall He). }
    split.
    + intros [Hn|[Hin Hno]].
      * destruct (Htimes _ _ Hn) as [t Ht]. discriminate.
      * destruct (Z.ltb_spec (z + 1) 0) as [Hneg|Hnn]; [lia|]. exfalso.
        destruct (lookup_lt_is_Some_2 sceneStartTimes (Z.to_nat (z + 1))
                    ltac:(lia)) as [e He].
        assert (Hget : arr_get sceneStartTimes (z + 1) = Some e).
        { unfold arr_get. destruct (Z.ltb_spec (z + 1) 0); [lia | exact He]. }
        destruct (Htimes _ _ Hget) as [t ->]. exact (Hno t Hget).
    + intros Hz. right. split; [lia|]. intros t. unfold arr_get.
      destruct (Z.ltb_spec (z + 1) 0); [discriminate | lia].
Qed.

Lemma music_request_bounds_witness :
  musicDuration [undefined; notANumber] 10 0 = None
  /\ musicDuration [undefined; notANumber] 10 (-1) = None.
Proof.
  split.
  - apply (proj2 (proj1 (music_request_bounds [undefined; notANumber] 10 0))).
    right. split; [reflexivity|]. intros t. vm_compute. discriminate.
  - apply (proj2 (proj1 (music_request_bounds [undefined; notANumber] 10
                           (-1)))).
    right. split; [reflexivity|]. intros t. vm_compute. discriminate.
Defined.

End LyriaFacts.

(** ** The player: current scene and seeking *)

Module PlayerFacts.
Import Player.

(** The scene shown is the last one that has started, or scene 0 when none
    has. *)
Lemma currentScene_spec (times : list Q) (t : Q) :
  (currentScene times t = 0%nat
   /\ forall j tj, times !! j = Some tj -> (t < tj)%Q)
  \/ exists ts,
       times !! currentScene times t = Some ts /\ (ts <= t)%Q
       /\ forall j tj, (currentScene times t < j)%nat ->
            times !! j = Some tj -> (t < tj)%Q.
Proof.
  unfold currentScene.
  set (body := fun (i scene : nat) =>
                 match times !! i with
                 | Some ti => if Qle_bool ti t then i else scene
                 | None => scene
                 end).
  assert (Hinv :
    (fun k scene =>
       (scene = 0%nat
        /\ forall j tj, (j < k)%nat -> times !! j = Some tj -> (t < tj)%Q)
       \/ exists ts,
            times !! scene = Some ts /\ (ts <= t)%Q
            /\ forall j tj, (scene < j < k)%nat ->
                 times !! j = Some tj -> (t < tj)%Q)
      (List.length times) (for_range (List.length times) body 0%nat)).
  { apply for_range_ind.
    - left. split; [reflexivity|]. intros j tj Hj. lia.
    - intros i scene Hi Hscene. unfold body.
      destruct (lookup_lt_is_Some_2 times i Hi) as [ti Hti]. rewrite Hti.
      destruct (Qle_bool ti t) eqn:Hle.
      + apply Qle_bool_iff in Hle. right. exists ti.
        repeat apply conj; [exact Hti | exact Hle |]. intros j tj Hj. lia.
      + assert (Hlt : (t < ti)%Q).
        { apply Qnot_le_lt. intros H. apply Qle_bool_iff in H. congruence. }
        destruct Hscene as [[-> Hnone]|(ts & Hts & Hle' & Hafter)].
        * left. split; [reflexivity|]. intros j tj Hj Htj.
          destruct (decide (j = i)) as [->|Hne]; [congruence|].
          apply (Hnone j); [lia | exact Htj].
        * right. exists ts. repeat apply conj; [exact Hts | exact Hle' |].
          intros j tj Hj Htj.
          destruct (decide (j = i)) as [->|Hne]; [congruence|].
          apply (Hafter j); [lia | exact Htj]. }
  cbv beta in Hinv.
  destruct Hinv as [[H0 Hnone]|(ts & Hts & Hle & Hafter)].
  - left. split; [exact H0|]. intros j tj Htj.
    apply (Hnone j); [exact (lookup_lt_Some _ _ _ Htj) | exact Htj].
  - right. exists ts. repeat apply conj; [exact Hts | exact Hle |].
    intros j tj Hj Htj. apply (Hafter j); [|exact Htj].
    split; [exact Hj | exact (lookup_lt_Some _ _ _ Htj)].
Qed.

(** X20.  While the playback time is at or after the first scene's start,
    the scene the player shows is the last one that has started: its start
    is not after the time and every later scene starts after it, so the time
    is before the scene's end whenever a next scene exists.  Before the
    first start the player shows scene 0. *)
Theorem current_scene_is_last_started (times : list Q) (totalDuration t : Q) :
  ((forall j tj, times !! j = Some tj -> (t < tj)%Q) ->
   currentScene times t = 0%nat)
  /\ (forall j tj, times !! j = Some tj -> (tj <= t)%Q ->
        exists ts,
          times !! currentScene times t = Some ts
          /\ (ts <= t)%Q
          /\ (j <= currentScene times t)%nat
          /\ (forall j' tj', (currentScene times t < j')%nat ->
                times !! j' = Some tj' -> (t < tj')%Q)
          /\ (is_Some (times !! S (currentScene times t)) ->
              (t < sceneEndTime times totalDuration (currentScene times t))%Q)).
Proof.
  split.
  - intros Hnone.
    destruct (currentScene_spec times t) as [[H0 _]|(ts & Hts & Hle & _)];
      [exact H0|].
    pose proof (Hnone _ _ Hts). lra.
  - intros j tj Htj Hle.
    destruct (currentScene_spec times t)
      as [[_ Hnone]|(ts & Hts & Hts_le & Hafter)].
    { pose proof (Hnone _ _ Htj). lra. }
    exists ts. repeat apply conj; [exact Hts | exact Hts_le | | exact Hafter |].
    + destruct (Nat.le_gt_cases j (currentScene times t)) as [|Hgt];
        [assumption|].
      pose proof (Hafter j tj Hgt Htj). lra.
    + intros [next Hnext]. unfold sceneEndTime.
      rewrite Nat.add_1_r, Hnext.
      apply (Hafter (S (currentScene times t)) next); [lia | exact Hnext].
Qed.

(** X21.  Seeking to a scene and then updating shows that scene, when the
    start times are in order and the next scene starts later; when later
    scenes share its start time, the last of them is shown. *)
Theorem seek_then_update (times : list Q) (i : nat) (ti : Q) :
  ascending times ->
  times !! i = Some ti ->
  let shown := currentScene times (seekToScene times i) in
  (i <= shown)%nat
  /\ (exists ts, times !! shown = Some ts /\ (ts == ti)%Q)
  /\ ((forall tj, times !! S i = Some tj -> (ti < tj)%Q) -> shown = i).
Proof.
  intros Hasc Hti shown. subst shown. unfold seekToScene. rewrite Hti. cbn.
  destruct (currentScene_spec times ti)
    as [[_ Hnone]|(ts & Hts & Hle & Hafter)].
  { pose proof (Hnone _ _ Hti). lra. }
  assert (Hi : (i <= currentScene times ti)%nat).
  { destruct (Nat.le_gt_cases i (currentScene times ti)) as [|Hgt];
      [assumption|].
    pose proof (Hafter i ti Hgt Hti). lra. }
  repeat apply conj; [exact Hi | |].
  - exists ts. split; [exact Hts|].
    pose proof (Hasc _ _ _ _ Hi Hti Hts). lra.
  - intros Hnext.
    destruct (decide (currentScene times ti = i)) as [|Hne]; [assumption|].
    exfalso.
    destruct (lookup_lt_is_Some_2 times (S i)) as [tj Htj].
    { pose proof (lookup_lt_Some _ _ _ Hts). lia. }
    pose proof (Hnext tj Htj).
    pose proof (Hasc (S i) (currentScene times ti) tj ts ltac:(lia) Htj Hts).
    lra.
Qed.

Lemma current_scene_is_last_started_witness :
  exists ts,
    [0; 1.5; 1.5; 4]%Q !! currentScene [0; 1.5; 1.5; 4]%Q 2 = Some ts
    /\ (ts <= 2)%Q.
Proof.
  destruct (proj2 (current_scene_is_last_started [0; 1.5; 1.5; 4]%Q 0 2)
              1%nat 1.5%Q eq_refl ltac:(lra))
    as (ts & Hts & Hle & _).
  exists ts. split; assumption.
Defined.

Lemma example_times_ascending : ascending [0; 1.5; 1.5; 4]%Q.
Proof.
  intros i j ti tj Hij Hi Hj.
  destruct i as [|[|[|[|i]]]]; cbn in Hi; try discriminate;
    injection Hi as <-;
    destruct j as [|[|[|[|j]]]]; cbn in Hj; try discriminate;
    injection Hj as <-; try lia; unfold Qle; cbn; lia.
Qed.

Lemma seek_then_update_witness :
  currentScene [0; 1.5; 1.5; 4]%Q (seekToScene [0; 1.5; 1.5; 4]%Q 2) = 2%nat.
Proof.
  apply (seek_then_update [0; 1.5; 1.5; 4]%Q 2 1.5 example_times_ascending
           eq_refl).
  intros tj [= <-]. reflexivity.
Defined.

End PlayerFacts.

(** ** Time helpers *)

Module TimeFacts.
Import TimeHelpers.





Section Fields.

Variable seconds : Q.
Hypothesis seconds_nonneg : (0 <= seconds)%Q.

Local Abbreviation whole := (Qfloor seconds).






End Fields.









End TimeFacts.

(** ** Bounded concurrency *)

Module PoolFacts.
Import Pool.

Section Lists.

Context {A : Type}.

Lemma omap_insert_some (l : list (option A)) (w : nat) (x y : A) :
  l !! w = Some (Some x) ->
  List.length (omap id (<[w := Some y]> l)) = List.length (omap id l).
Proof.
  revert w. induction l as [|a l IH]; intros [|w]; simpl; try discriminate.
  - now intros [= ->].
  - intros H. specialize (IH w H). unfold omap in *.
    destruct a; simpl in *; lia.
Qed.

Lemma omap_insert_none (l : list (option A)) (w : nat) (x : A) :
  l !! w = Some (Some x) ->
  S (List.length (omap id (<[w := None]> l))) = List.length (omap id l).
Proof.
  revert w. induction l as [|a l IH]; intros [|w]; simpl; try discriminate.
  - now intros [= ->].
  - intros H. specialize (IH w H). unfold omap in *.
    destruct a; simpl in *; lia.
Qed.

Lemma length_omap_id (l : list (option A)) :
  (List.length (omap id l) <= List.length l)%nat.
Proof. induction l as [|[a|] l IH]; cbn; lia. Qed.

Lemma omap_id_nil (l : list (option A)) :
  omap id l = [] <-> Forall (fun w => w = None) l.
Proof.
  induction l as [|[a|] l IH]; cbn.
  - split; [constructor | reflexivity].
  - split; [discriminate | intros H; inversion H; discriminate].
  - rewrite IH. split; [now constructor | intros H; now inversion H].
Qed.

Lemma omap_id_NoDup (l : list (option A)) :
  (forall w w' i, l !! w = Some (Some i) -> l !! w' = Some (Some i) ->
     w = w') ->
  NoDup (omap id l).
Proof.
  induction l as [|[a|] l IH]; intros Hinj; cbn.
  - constructor.
  - constructor.
    + intros Hin. apply list_elem_of_omap in Hin as (o & Ho & Hid).
      cbn in Hid. subst o.
      apply list_elem_of_lookup_1 in Ho as [w Hw].
      specialize (Hinj 0%nat (S w) a eq_refl Hw). discriminate.
    + apply IH. intros w w' i Hw Hw'.
      specialize (Hinj (S w) (S w') i Hw Hw'). lia.
  - apply IH. intros w w' i Hw Hw'.
    specialize (Hinj (S w) (S w') i Hw Hw'). lia.
Qed.

Lemma awaited_insert_some (l : list (option A)) (w w0 : nat) (j k : A) :
  <[w := Some j]> l !! w0 = Some (Some k) ->
  (w0 = w /\ k = j) \/ (w0 <> w /\ l !! w0 = Some (Some k)).
Proof.
  rewrite list_lookup_insert_Some.
  intros [(-> & [= ->] & _)|[Hne Hl]]; [left | right]; auto.
Qed.

Lemma awaited_insert_none (l : list (option A)) (w w0 : nat) (k : A) :
  <[w := None]> l !! w0 = Some (Some k) ->
  w0 <> w /\ l !! w0 = Some (Some k).
Proof.
  rewrite list_lookup_insert_Some.
  intros [(_ & [=] & _)|[Hne Hl]]. auto.
Qed.

Lemma idle_insert_some (l : list (option A)) (w w0 : nat) (j : A) :
  <[w := Some j]> l !! w0 = Some None -> w0 <> w /\ l !! w0 = Some None.
Proof.
  rewrite list_lookup_insert_Some.
  intros [(_ & [=] & _)|[Hne Hl]]. auto.
Qed.

Lemma omap_id_Some (l : list A) : omap id (Some <$> l) = l.
Proof. induction l as [|a l IH]; [reflexivity|]. cbn. now f_equal. Qed.

End Lists.

Section PoolRun.

Context {T : Type}.
Variable outcomes : list (option (option T)).
Variable concurrency : nat.

Local Abbreviation n := (List.length outcomes).
Local Abbreviation count := (Nat.min concurrency (List.length outcomes)).

Lemma init_fold (k : nat) :
  (k <= count)%nat ->
  foldl (enter outcomes)
    {| results := replicate n None; next := 0;
       workers := replicate count None; rejected := false; started := [] |}
    (seq 0 k)
  = {| results := replicate n None; next := k;
       workers := (Some <$> seq 0 k) ++ replicate (count - k) None;
       rejected := false; started := seq 0 k |}.
Proof.
  induction k as [|k IH]; intros Hk.
  - cbn. now rewrite Nat.sub_0_r.
  - rewrite seq_S, foldl_app, IH by lia. cbn [foldl]. unfold enter.
    cbn [next results workers rejected started].
    destruct (Nat.ltb_spec k n) as [_|Hge]; [|lia].
    f_equal.
    rewrite insert_app_r_alt by (rewrite length_fmap, length_seq; lia).
    rewrite length_fmap, length_seq, Nat.sub_diag.
    replace (count - k)%nat with (S (count - S k)) by lia.
    cbn. rewrite fmap_app, <- app_assoc. reflexivity.
Qed.

(** At the first [await] worker [k] awaits task [k]. *)
Lemma init_eq :
  init outcomes concurrency
  = {| results := replicate n None; next := count;
       workers := Some <$> seq 0 count;
       rejected := false; started := seq 0 count |}.
Proof.
  unfold init. cbv zeta. rewrite init_fold by lia.
  now rewrite Nat.sub_diag, app_nil_r.
Qed.

Lemma init_workers (w : nat) (o : option nat) :
  workers (init outcomes concurrency) !! w = Some o ->
  o = Some w /\ (w < count)%nat.
Proof.
  rewrite init_eq. cbn [workers]. rewrite list_lookup_fmap.
  destruct (seq 0 count !! w) as [i|] eqn:Hi; [|discriminate].
  apply lookup_seq in Hi as [-> Hw]. cbn. intros [= <-]. auto.
Qed.

Lemma init_inv : pool_inv outcomes concurrency (init outcomes concurrency).
Proof.
  unfold pool_inv. cbv zeta.
  repeat apply conj.
  - rewrite init_eq. cbn. lia.
  - rewrite init_eq. cbn. apply length_replicate.
  - rewrite init_eq. cbn. now rewrite length_fmap, length_seq.
  - rewrite init_eq. reflexivity.
  - intros w i Hw. apply init_workers in Hw as [[= ->] Hlt].
    rewrite init_eq. cbn. exact Hlt.
  - intros w w' i Hw Hw'.
    apply init_workers in Hw as [[= ->] _].
    apply init_workers in Hw' as [[= ->] _]. reflexivity.
  - intros i Hi. left. exists i. rewrite init_eq in *. cbn in *.
    rewrite list_lookup_fmap, lookup_seq_lt by exact Hi. reflexivity.
  - intros i Hi. rewrite init_eq in *. cbn in *.
    apply lookup_replicate_2. lia.
  - intros w i Hw. apply init_workers in Hw as [[= ->] Hlt].
    rewrite init_eq. cbn. apply lookup_replicate_2. lia.
  - intros _. split.
    + intros w Hw. apply init_workers in Hw as [[=] _].
    + intros i Hi. left. exists i. rewrite init_eq in *. cbn in *.
      rewrite list_lookup_fmap, lookup_seq_lt by exact Hi. reflexivity.
Qed.

Lemma complete_inv (st : State T) (w : nat) :
  pool_inv outcomes concurrency st ->
  pool_inv outcomes concurrency (complete outcomes st w).
Proof.
  intros Hinv. unfold complete.
  destruct (workers st !! w) as [[i|]|] eqn:Hw; try exact Hinv.
  destruct Hinv as (H1 & H2 & H3 & H4 & H5 & H6 & H7 & H8 & H10 & H9).
  cbv zeta in *.
  pose proof (H5 w i Hw) as Hi.
  pose proof (lookup_lt_Some _ _ _ Hw) as Hwlen.
  assert (Hother : forall w0 j, w0 <> w -> workers st !! w0 = Some (Some j) ->
                     j <> i).
  { intros w0 j Hne Hw0 ->. apply Hne. exact (H6 w0 w i Hw0 Hw). }
  destruct (outcomes !! i) as [[r|]|] eqn:Hout.
  - (* the task resolved with [r] *)
    assert (Hval : resolvedValue outcomes i = r).
    { unfold resolvedValue. now rewrite Hout. }
    assert (Hdone : forall j, (j < next st)%nat ->
              (exists w0, w0 <> w /\ workers st !! w0 = Some (Some j))
              \/ <[i := r]> (results st) !! j
                 = Some (resolvedValue outcomes j)).
    { intros j Hj. destruct (decide (j = i)) as [->|Hne].
      - right. rewrite list_lookup_insert_eq by lia. now rewrite Hval.
      - destruct (H7 j Hj) as [[w0 Hw0]|Hres].
        + left. exists w0. split; [|exact Hw0].
          intros ->. rewrite Hw in Hw0. congruence.
        + right. now rewrite list_lookup_insert_ne by auto. }
    unfold enter. cbn [next results workers rejected started].
    destruct (Nat.ltb_spec (next st) n) as [Hlt|Hge].
    + unfold pool_inv. cbv zeta.
      cbn [next results workers rejected started].
      repeat apply conj.
      * lia.
      * now rewrite length_insert.
      * now rewrite length_insert.
      * now rewrite seq_S, H4.
      * intros w0 j Hw0.
        apply awaited_insert_some in Hw0 as [[-> ->]|[Hne Hw0]]; [lia|].
        pose proof (H5 _ _ Hw0). lia.
      * intros w0 w1 j Hw0 Hw1.
        apply awaited_insert_some in Hw0 as [[-> ->]|[Hne0 Hw0]];
          apply awaited_insert_some in Hw1 as [[-> Hj]|[Hne1 Hw1]];
          try reflexivity.
        -- pose proof (H5 _ _ Hw1). lia.
        -- pose proof (H5 _ _ Hw0). lia.
        -- exact (H6 _ _ _ Hw0 Hw1).
      * intros j Hj. destruct (decide (j = next st)) as [->|Hne].
        -- left. exists w. now apply list_lookup_insert_eq.
        -- destruct (Hdone j ltac:(lia)) as [(w0 & Hne0 & Hw0)|Hres].
           ++ left. exists w0. now rewrite list_lookup_insert_ne by auto.
           ++ right. exact Hres.
      * intros j Hj. rewrite list_lookup_insert_ne by lia. apply H8. lia.
      * intros w0 j Hw0.
        apply awaited_insert_some in Hw0 as [[-> ->]|[Hne Hw0]].
        -- rewrite list_lookup_insert_ne by lia. apply H8. lia.
        -- rewrite list_lookup_insert_ne by (apply not_eq_sym; eauto).
           exact (H10 _ _ Hw0).
      * intros Hrej. destruct (H9 Hrej) as [H9a H9b]. split.
        -- intros w0 Hw0. apply idle_insert_some in Hw0 as [_ Hw0].
           pose proof (H9a _ Hw0). lia.
        -- intros j Hj. destruct (decide (j = next st)) as [->|Hne].
           ++ left. exists w. now apply list_lookup_insert_eq.
           ++ destruct (decide (j = i)) as [->|Hji]; [right; eauto|].
              destruct (H9b j ltac:(lia)) as [[w0 Hw0]|Hres]; [|now right].
              left. exists w0. rewrite list_lookup_insert_ne; [exact Hw0|].
              intros ->. rewrite Hw in Hw0. congruence.
    + unfold pool_inv. cbv zeta.
      cbn [next results workers rejected started].
      repeat apply conj.
      * lia.
      * now rewrite length_insert.
      * now rewrite length_insert.
      * exact H4.
      * intros w0 j Hw0. apply awaited_insert_none in Hw0 as [_ Hw0].
        exact (H5 _ _ Hw0).
      * intros w0 w1 j Hw0 Hw1.
        apply awaited_insert_none in Hw0 as [_ Hw0].
        apply awaited_insert_none in Hw1 as [_ Hw1].
        exact (H6 _ _ _ Hw0 Hw1).
      * intros j Hj. destruct (Hdone j Hj) as [(w0 & Hne0 & Hw0)|Hres].
        -- left. exists w0. now rewrite list_lookup_insert_ne by auto.
        -- right. exact Hres.
      * intros j Hj. lia.
      * intros w0 j Hw0. apply awaited_insert_none in Hw0 as [Hne Hw0].
        rewrite list_lookup_insert_ne by (apply not_eq_sym; eauto).
        exact (H10 _ _ Hw0).
      * intros Hrej. destruct (H9 Hrej) as [H9a H9b]. split.
        -- intros w0 Hw0. lia.
        -- intros j Hj. destruct (decide (j = i)) as [->|Hji]; [right; eauto|].
           destruct (H9b j Hj) as [[w0 Hw0]|Hres]; [|now right].
           left. exists w0. rewrite list_lookup_insert_ne; [exact Hw0|].
           intros ->. rewrite Hw in Hw0. congruence.
  - (* the task rejected *)
    unfold pool_inv. cbv zeta.
    cbn [next results workers rejected started].
    repeat apply conj; try assumption.
    + now rewrite length_insert.
    + intros w0 j Hw0. apply awaited_insert_none in Hw0 as [_ Hw0].
      exact (H5 _ _ Hw0).
    + intros w0 w1 j Hw0 Hw1.
      apply awaited_insert_none in Hw0 as [_ Hw0].
      apply awaited_insert_none in Hw1 as [_ Hw1].
      exact (H6 _ _ _ Hw0 Hw1).
    + intros j Hj. destruct (decide (j = i)) as [->|Hji].
      * right. rewrite (H10 _ _ Hw). unfold resolvedValue. now rewrite Hout.
      * destruct (H7 j Hj) as [[w0 Hw0]|Hres]; [|now right].
        left. exists w0. rewrite list_lookup_insert_ne; [exact Hw0|].
        intros ->. rewrite Hw in Hw0. congruence.
    + intros w0 j Hw0. apply awaited_insert_none in Hw0 as [_ Hw0].
      exact (H10 _ _ Hw0).
    + discriminate.
  - (* no such task: not reachable, [i < next <= n] *)
    apply lookup_ge_None in Hout. lia.
Qed.

Lemma run_inv (schedule : list nat) :
  pool_inv outcomes concurrency (run outcomes concurrency schedule).
Proof.
  unfold run. generalize init_inv. generalize (init outcomes concurrency).
  induction schedule as [|w rest IH]; intros st Hst; [exact Hst|].
  cbn [foldl]. apply IH, complete_inv, Hst.
Qed.

(** A resolved pool holds every task's value, in task order. *)
Lemma settled_results (st : State T) (rs : list (option T)) :
  pool_inv outcomes concurrency st ->
  settled st = Some (Some rs) -> (1 <= concurrency)%nat ->
  rs = resolvedValue outcomes <$> seq 0 n
  /\ next st = n
  /\ Forall is_Some outcomes.
Proof.
  intros (H1 & H2 & H3 & H4 & H5 & H6 & H7 & H8 & H10 & H9) Hset Hc.
  cbv zeta in *. unfold settled in Hset.
  destruct (rejected st) eqn:Hrej; [discriminate|].
  case_bool_decide as Hidle; [|discriminate].
  injection Hset as <-.
  destruct (H9 eq_refl) as [H9a H9b].
  assert (Hnone : forall w i, workers st !! w = Some (Some i) -> False).
  { intros w i Hw. rewrite Forall_forall in Hidle.
    specialize (Hidle _ (list_elem_of_lookup_2 _ _ _ Hw)). discriminate. }
  assert (Hnext : next st = n).
  { destruct (decide (n = 0%nat)) as [Hn|Hn]; [lia|].
    destruct (lookup_lt_is_Some_2 (workers st) 0 ltac:(lia)) as [o Ho].
    destruct o as [i|]; [now destruct (Hnone _ _ Ho)|].
    exact (H9a _ Ho). }
  repeat apply conj; [|exact Hnext|].
  - apply list_eq. intros i.
    rewrite list_lookup_fmap.
    destruct (Nat.lt_ge_cases i n) as [Hi|Hi].
    + rewrite lookup_seq_lt by exact Hi. cbn.
      destruct (H7 i ltac:(lia)) as [[w Hw]|Hres];
        [now destruct (Hnone _ _ Hw) | exact Hres].
    + rewrite lookup_seq_ge by exact Hi. cbn.
      apply lookup_ge_None. lia.
  - apply Forall_lookup. intros i o Ho.
    pose proof (lookup_lt_Some _ _ _ Ho) as Hi.
    destruct (H9b i ltac:(lia)) as [[w Hw]|[r Hr]];
      [now destruct (Hnone _ _ Hw)|].
    rewrite Hr in Ho. injection Ho as <-. eauto.
Qed.

(** X24.  Whatever the order in which the awaited promises settle, each
    task is called at most once and in index order, the tasks in flight are
    awaited by distinct workers and are at most
    [min(concurrency, tasks.length)], and a resolved pool (with a
    concurrency of at least 1) called every task, none rejected, and holds
    every task's value at the task's index.  With a concurrency of 0 the
    pool resolves at once with [null] everywhere and calls nothing. *)
Theorem pool_results_in_order (schedule : list nat) :
  let st := run outcomes concurrency schedule in
  started st = seq 0 (next st)
  /\ (next st <= n)%nat
  /\ NoDup (inFlight st)
  /\ (List.length (inFlight st) <= Nat.min concurrency n)%nat
  /\ (forall rs, settled st = Some (Some rs) -> (1 <= concurrency)%nat ->
        rs = resolvedValue outcomes <$> seq 0 n
        /\ next st = n
        /\ Forall is_Some outcomes)
  /\ (concurrency = 0%nat ->
      settled st = Some (Some (replicate n None)) /\ started st = []).
Proof.
  cbv zeta. pose proof (run_inv schedule) as Hinv.
  pose proof Hinv as (H1 & H2 & H3 & H4 & H5 & H6 & H7 & H8 & H10 & H9).
  cbv zeta in *.
  repeat apply conj; [exact H4 | exact H1 | | | |].
  - apply omap_id_NoDup, H6.
  - unfold inFlight. rewrite <- H3. apply length_omap_id.
  - intros rs. now apply settled_results.
  - intros Hzero.
    assert (Hsame : forall st : State T,
              workers st = [] -> forall ws, foldl (complete outcomes) st ws = st).
    { intros st Hst ws. induction ws as [|w ws IH]; [reflexivity|].
      cbn [foldl]. unfold complete at 2. rewrite Hst. cbn. exact IH. }
    unfold run. rewrite Hsame.
    + rewrite init_eq, Hzero. cbn. auto.
    + rewrite init_eq, Hzero. reflexivity.
Qed.

(** Each event that is the settling of an awaited promise moves the pool
    one step: a task is taken or a worker leaves. *)
Lemma complete_measure (st : State T) (w i : nat) :
  pool_inv outcomes concurrency st ->
  workers st !! w = Some (Some i) ->
  (next (complete outcomes st w) + idle (complete outcomes st w)
   = S (next st + idle st))%nat
  /\ (Forall is_Some outcomes -> rejected (complete outcomes st w)
                                 = rejected st).
Proof.
  intros (H1 & _ & _ & _ & H5 & _) Hw. cbv zeta in *.
  pose proof (H5 _ _ Hw) as Hi.
  pose proof (length_omap_id (workers st)) as Hle.
  unfold complete. rewrite Hw. unfold idle, inFlight.
  destruct (outcomes !! i) as [[r|]|] eqn:Hout.
  - unfold enter. cbn [next results workers rejected started].
    destruct (Nat.ltb_spec (next st) n) as [Hlt|Hge];
      cbn [next results workers rejected started]; rewrite length_insert.
    + rewrite (omap_insert_some _ _ _ _ Hw). split; [lia | reflexivity].
    + pose proof (omap_insert_none _ _ _ Hw). split; [lia | reflexivity].
  - cbn [next results workers rejected started]. rewrite length_insert.
    pose proof (omap_insert_none _ _ _ Hw). split; [lia|].
    intros Hall. rewrite Forall_lookup in Hall.
    now destruct (Hall _ _ Hout).
  - apply lookup_ge_None in Hout. lia.
Qed.

Lemma enabled_measure (schedule : list nat) :
  forall st : State T,
  pool_inv outcomes concurrency st ->
  enabled outcomes st schedule ->
  let st' := foldl (complete outcomes) st schedule in
  (next st' + idle st' = next st + idle st + List.length schedule)%nat
  /\ (Forall is_Some outcomes -> rejected st' = rejected st).
Proof.
  induction schedule as [|w rest IH]; intros st Hinv Hen; cbv zeta.
  - cbn. split; [lia | reflexivity].
  - destruct Hen as [[i Hw] Hrest]. cbn [foldl List.length].
    destruct (complete_measure st w i Hinv Hw) as [Hm Hr].
    destruct (IH _ (complete_inv st w Hinv) Hrest) as [Hm' Hr'].
    cbv zeta in *. split; [lia|].
    intros Hall. now rewrite Hr', Hr.
Qed.

(** X25.  With a concurrency of at least 1 and tasks that do not reject,
    the pool settles after exactly as many completions as there are tasks:
    no run has more, before the last one the promise is pending, and with
    it the promise resolves with every task's value in task order. *)
Theorem pool_completes (schedule : list nat) :
  (1 <= concurrency)%nat ->
  Forall is_Some outcomes ->
  enabled outcomes (init outcomes concurrency) schedule ->
  (List.length schedule <= n)%nat
  /\ ((List.length schedule < n)%nat ->
      settled (run outcomes concurrency schedule) = None)
  /\ (List.length schedule = n ->
      settled (run outcomes concurrency schedule)
      = Some (Some (resolvedValue outcomes <$> seq 0 n))).
Proof.
  intros Hc Hall Hen.
  pose proof (run_inv schedule) as Hinv.
  destruct (enabled_measure schedule _ init_inv Hen) as [Hm Hrej].
  cbv zeta in Hm, Hrej. specialize (Hrej Hall).
  fold (run outcomes concurrency schedule) in Hm, Hrej.
  set (st := run outcomes concurrency schedule) in *.
  assert (Hinit : (next (init outcomes concurrency)
                   + idle (init outcomes concurrency) = count)%nat).
  { rewrite init_eq. unfold idle, inFlight. cbn.
    rewrite omap_id_Some, length_fmap, length_seq. lia. }
  assert (Hrej0 : rejected (init outcomes concurrency) = false)
    by now rewrite init_eq.
  rewrite Hinit in Hm. rewrite Hrej0 in Hrej.
  pose proof Hinv as (H1 & H2 & H3 & H4 & H5 & H6 & H7 & H8 & H10 & H9).
  cbv zeta in *.
  pose proof (length_omap_id (workers st)) as Hle.
  assert (Hidle : (idle st <= count)%nat) by (unfold idle; lia).
  assert (Hfinal : inFlight st = [] ->
            settled st = Some (Some (results st))).
  { intros Hnil. unfold settled. rewrite Hrej.
    rewrite bool_decide_eq_true_2; [reflexivity|].
    now apply omap_id_nil. }
  repeat apply conj.
  - lia.
  - intros Hlt. unfold settled. rewrite Hrej.
    rewrite bool_decide_eq_false_2; [reflexivity|].
    intros Hnone.
    destruct (lookup_lt_is_Some_2 (workers st) 0 ltac:(lia)) as [o Ho].
    rewrite Forall_forall in Hnone.
    pose proof (Hnone _ (list_elem_of_lookup_2 _ _ _ Ho)) as ->.
    pose proof (proj1 (H9 Hrej) _ Ho) as Hnext.
    apply Forall_forall in Hnone. apply omap_id_nil in Hnone.
    unfold idle, inFlight in Hm. rewrite Hnone in Hm. cbn in Hm. lia.
  - intros Hlen.
    assert (Hnil : inFlight st = []).
    { unfold idle in Hm. apply length_zero_iff_nil.
      unfold inFlight in *. lia. }
    rewrite (Hfinal Hnil).
    destruct (settled_results st (results st) Hinv (Hfinal Hnil) Hc)
      as (-> & _). reflexivity.
Qed.

End PoolRun.

Lemma pool_results_in_order_witness :
  started (run three_tasks 2 [1; 0]%nat)
  = seq 0 (next (run three_tasks 2 [1; 0]%nat)).
Proof.
  exact (proj1 (pool_results_in_order three_tasks 2 [1; 0]%nat)).
Defined.

Lemma pool_completes_witness :
  settled (run three_tasks 2 [1; 0; 1]%nat)
  = Some (Some [Some 10; None; Some 30]).
Proof.
  refine (proj2 (proj2 (pool_completes three_tasks 2 [1; 0; 1]%nat
                          _ _ _)) eq_refl).
  - lia.
  - repeat constructor; eauto.
  - cbn. repeat split; eexists; reflexivity.
Defined.

End PoolFacts.

(** ** The fixed voice pool *)

Module VoicePoolFacts.
Import Page VoicePool.

Lemma slotVoice_some (k : nat) : is_Some (slotVoice k).
Proof.
  unfold slotVoice.
  assert (Hle : (Nat.min k 5 <= 5)%nat) by lia.
  destruct (Nat.min k 5) as [|[|[|[|[|[|c]]]]]]; try lia;
    vm_compute; eauto.
Qed.

(** The five slots, the overflow and the narrator are seven voices. *)
Lemma slot_ids_distinct (j k : nat) (vj vk narrator : VoiceAssignment) :
  (j < k)%nat -> (j < 5)%nat ->
  slotVoice j = Some vj -> slotVoice k = Some vk ->
  poolVoice "narrator" = Some narrator ->
  voiceId vj <> voiceId vk
  /\ voiceId vj <> voiceId narrator /\ voiceId vk <> voiceId narrator.
Proof.
  intros Hjk Hj. unfold slotVoice.
  assert (Hle : (j < Nat.min k 5 <= 5)%nat) by lia.
  replace (Nat.min j 5) with j by lia.
  destruct (Nat.min k 5) as [|[|[|[|[|[|c]]]]]]; try lia;
    destruct j as [|[|[|[|[|j]]]]]; try lia;
    vm_compute; intros [= <-] [= <-] [= <-]; repeat split; discriminate.
Qed.

Lemma firstSeen_fresh (l seen : list string) (s : string) :
  s ∈ firstSeen seen l -> s ∉ seen.
Proof.
  revert seen. induction l as [|x l IH]; intros seen; cbn.
  - intros H. now apply elem_of_nil in H.
  - case_bool_decide as Hx; [apply IH|].
    intros [->|Hin]%elem_of_cons; [exact Hx|].
    apply IH in Hin. intros Hs. apply Hin, elem_of_app. now left.
Qed.

Lemma firstSeen_NoDup (l seen : list string) : NoDup (firstSeen seen l).
Proof.
  revert seen. induction l as [|x l IH]; intros seen; cbn; [constructor|].
  case_bool_decide as Hx; [apply IH|].
  constructor; [|apply IH].
  intros Hin. apply firstSeen_fresh in Hin. apply Hin, elem_of_app.
  right. now left.
Qed.

Lemma firstSeen_elem (l seen : list string) (s : string) :
  s ∈ firstSeen seen l <-> s ∈ l /\ s ∉ seen.
Proof.
  revert seen. induction l as [|x l IH]; intros seen; cbn.
  - split; [intros H; now apply elem_of_nil in H|].
    intros [H _]. now apply elem_of_nil in H.
  - case_bool_decide as Hx.
    + rewrite IH, elem_of_cons. split; [tauto|].
      intros [[->|Hin] Hs]; [contradiction | tauto].
    + rewrite !elem_of_cons, IH, elem_of_app, list_elem_of_singleton.
      split.
      * intros [->|[Hin Hs]]; [tauto|]. split; [tauto|]. tauto.
      * intros [[->|Hin] Hs]; [tauto|].
        destruct (decide (s = x)) as [->|Hne]; [tauto|]. right. tauto.
Qed.

Lemma eligible_spec (s : string) :
  eligible s = true <-> s <> "" /\ s <> "narrator" /\ inherited s = false.
Proof.
  unfold eligible. rewrite !andb_true_iff, !negb_true_iff.
  rewrite !String.eqb_neq. tauto.
Qed.

(** The loop, from any point on: [seen] are the characters that have a
    voice so far. *)
Lemma assign_spec (segments : list Segment) :
  forall (seen : list string) (voiceMap : gmap string VoiceAssignment),
  (forall s, s ∈ seen -> eligible s = true) ->
  (forall s, is_Some (voiceMap !! s) <-> s = "narrator" \/ s ∈ seen) ->
  exists voiceMap',
    assign segments voiceMap (Nat.min (List.length seen) 5) = Some voiceMap'
    /\ (forall s, s = "narrator" \/ s ∈ seen ->
          voiceMap' !! s = voiceMap !! s)
    /\ (forall k s,
          firstSeen seen (filter (fun s => eligible s = true)
                            (speakers segments)) !! k = Some s ->
          voiceMap' !! s = slotVoice (List.length seen + k))
    /\ (forall s,
          is_Some (voiceMap' !! s)
          <-> s = "narrator" \/ s ∈ seen
              \/ s ∈ firstSeen seen (filter (fun s => eligible s = true)
                                       (speakers segments))).
Proof.
  induction segments as [|seg rest IH]; intros seen voiceMap Hel Hdom.
  - exists voiceMap. cbn. repeat apply conj; auto.
    + intros k s Hk. discriminate.
    + intros s. rewrite Hdom. split; [tauto|].
      intros [?|[?|H]]; [tauto | tauto | now apply elem_of_nil in H].
  - cbn [assign]. unfold speakers. cbn [omap list_omap].
    fold (speakers rest).
    destruct (type seg) eqn:Hty; [apply IH; assumption|].
    destruct (speaker seg) as [s|] eqn:Hsp; [|apply IH; assumption].
    destruct (String.eqb_spec s "") as [->|Hne].
    { cbn [negb andb]. rewrite filter_cons_False by (cbn; discriminate).
      apply IH; assumption. }
    cbn [negb andb].
    destruct (has voiceMap s) eqn:Hhas; cbn [negb].
    + (* the speaker has a voice, or an inherited name *)
      destruct (eligible s) eqn:Hs.
      * rewrite filter_cons_True by exact Hs.
        apply eligible_spec in Hs as (_ & Hnarr & Hinh).
        unfold has in Hhas. rewrite Hinh, orb_false_r in Hhas.
        apply bool_decide_eq_true in Hhas. apply Hdom in Hhas as [?|Hin];
          [contradiction|].
        cbn [firstSeen]. rewrite bool_decide_eq_true_2 by exact Hin.
        apply IH; assumption.
      * rewrite filter_cons_False by (rewrite Hs; discriminate).
        apply IH; assumption.
    + (* a new character *)
      unfold has in Hhas. apply orb_false_iff in Hhas as [Hown Hinh].
      apply bool_decide_eq_false in Hown.
      assert (Hnew : s <> "narrator" /\ s ∉ seen).
      { split; intros H; apply Hown, Hdom; auto. }
      assert (Hs : eligible s = true) by (apply eligible_spec; tauto).
      rewrite filter_cons_True by exact Hs.
      cbn [firstSeen]. rewrite bool_decide_eq_false_2 by tauto.
      destruct (slotVoice_some (List.length seen)) as [voice Hvoice].
      unfold slotVoice in Hvoice. rewrite Hvoice. cbn [mbind option_bind].
      replace (if (Nat.min (List.length seen) 5 <? 5)%nat
               then S (Nat.min (List.length seen) 5)
               else Nat.min (List.length seen) 5)
        with (Nat.min (List.length (seen ++ [s])) 5).
      2:{ rewrite length_app. change (List.length [s]) with 1%nat.
          destruct (Nat.ltb_spec (Nat.min (List.length seen) 5) 5); lia. }
      destruct (IH (seen ++ [s]) (<[s := voice]> voiceMap))
        as (voiceMap' & Hassign & Hold & Hslots & Hdom').
      { intros s' [Hin|Hin%list_elem_of_singleton]%elem_of_app;
          [now apply Hel | now subst]. }
      { intros s'. rewrite lookup_insert_is_Some, Hdom, elem_of_app,
          list_elem_of_singleton.
        destruct (decide (s = s')) as [->|Hne']; [tauto|].
        split; [intros [?|[_ ?]]; [congruence | tauto]|].
        intros [?|[?|?]]; [tauto | tauto | congruence]. }
      exists voiceMap'. repeat apply conj; [exact Hassign | | |].
      * intros s' Hs'. rewrite Hold.
        -- apply lookup_insert_ne. intros ->. destruct Hs'; tauto.
        -- rewrite elem_of_app. tauto.
      * intros [|k] s' Hk.
        -- cbn in Hk. injection Hk as <-.
           rewrite Hold, lookup_insert_eq, Nat.add_0_r.
           ++ symmetry. exact Hvoice.
           ++ right. apply elem_of_app. right. now left.
        -- cbn in Hk. rewrite (Hslots k s' Hk), length_app.
           change (List.length [s]) with 1%nat. f_equal. lia.
      * intros s'. rewrite Hdom', elem_of_app, list_elem_of_singleton,
          elem_of_cons. tauto.
Qed.

(** X26.  [buildVoiceMap] always returns; the narrator keeps its voice; the
    characters get the five slots in the order in which they first speak
    and every later one the overflow voice; nothing else gets an entry; and
    the narrator, the first five characters and the overflow have seven
    different voices. *)
Theorem buildVoiceMap_slots (segments : list Segment) :
  exists voiceMap,
    buildVoiceMap segments = Some voiceMap
    /\ voiceMap !! "narrator" = poolVoice "narrator"
    /\ (forall k s, cast segments !! k = Some s ->
          voiceMap !! s = slotVoice k)
    /\ (forall k s, (5 <= k)%nat -> cast segments !! k = Some s ->
          voiceMap !! s = poolVoice "overflow")
    /\ (forall s, is_Some (voiceMap !! s)
                  <-> s = "narrator" \/ s ∈ cast segments)
    /\ (forall j k sj sk vj vk narrator,
          (j < k)%nat -> (j < 5)%nat ->
          cast segments !! j = Some sj -> cast segments !! k = Some sk ->
          voiceMap !! sj = Some vj -> voiceMap !! sk = Some vk ->
          voiceMap !! "narrator" = Some narrator ->
          voiceId vj <> voiceId vk
          /\ voiceId vj <> voiceId narrator
          /\ voiceId vk <> voiceId narrator).
Proof.
  unfold buildVoiceMap.
  assert (Hnarr : exists narrator, poolVoice "narrator" = Some narrator)
    by (vm_compute; eauto).
  destruct Hnarr as [narrator Hnarr]. rewrite Hnarr. cbn [mbind option_bind].
  destruct (assign_spec segments [] {[ "narrator" := narrator ]})
    as (voiceMap & Hassign & Hold & Hslots & Hdom).
  { intros s Hs. now apply elem_of_nil in Hs. }
  { intros s. rewrite lookup_singleton_is_Some. split; [auto|].
    intros [?|H]; [auto | now apply elem_of_nil in H]. }
  cbn in Hassign. exists voiceMap.
  assert (Hn : voiceMap !! "narrator" = Some narrator).
  { rewrite Hold by auto. apply lookup_singleton_eq. }
  repeat apply conj; [exact Hassign | exact Hn | exact Hslots | | |].
  - intros k s Hk Hs. rewrite (Hslots k s Hs). unfold slotVoice.
    cbn [List.length Nat.add].
    replace (Nat.min k 5) with 5%nat by lia. reflexivity.
  - intros s. rewrite Hdom. split; [|tauto].
    intros [?|[H|?]]; [tauto | now apply elem_of_nil in H | tauto].
  - intros j k sj sk vj vk narrator' Hjk Hj Hsj Hsk Hvj Hvk Hn'.
    rewrite (Hslots j sj Hsj) in Hvj. rewrite (Hslots k sk Hsk) in Hvk.
    rewrite Hn in Hn'. injection Hn' as <-.
    exact (slot_ids_distinct j k vj vk narrator Hjk Hj Hvj Hvk Hnarr).
Qed.

Lemma buildVoiceMap_slots_witness :
  exists voiceMap,
    buildVoiceMap seven_speakers = Some voiceMap
    /\ voiceMap !! "Gus" = poolVoice "overflow".
Proof.
  destruct (buildVoiceMap_slots seven_speakers)
    as (voiceMap & Hbuild & _ & _ & Hover & _).
  exists voiceMap. split; [exact Hbuild|].
  apply (Hover 6%nat); [lia|]. vm_compute. reflexivity.
Defined.

End VoicePoolFacts.

(** ** The book route: segment timings and effects *)

Module BookRouteFacts.
Import BookRoute.

Lemma offset_S (alignments : list (list Q)) (i : nat) (a : list Q) :
  alignments !! i = Some a ->
  (offset alignments (S i) == offset alignments i + segDuration a)%Q.
Proof.
  intros Ha. unfold offset.
  rewrite (take_S_r _ _ _ Ha), fmap_app, foldr_app. cbn.
  generalize (segDuration <$> take i alignments). intros l.
  induction l as [|x l IH]; cbn; [lra|]. rewrite IH. lra.
Qed.

Lemma offset_mono (alignments : list (list Q)) (i : nat) :
  Forall (fun a => (0 <= segDuration a)%Q) alignments ->
  (offset alignments i <= offset alignments (S i))%Q.
Proof.
  intros Hall.
  destruct (alignments !! i) as [a|] eqn:Ha.
  - rewrite (offset_S _ _ _ Ha).
    pose proof (Forall_lookup_1 _ _ _ _ Hall Ha) as Hd. cbn in Hd. lra.
  - unfold offset. apply lookup_ge_None in Ha.
    rewrite !take_ge by lia. lra.
Qed.

(** The loop of step 4 after [k] segments. *)
Lemma segmentTimings_spec (alignments : list (list Q)) :
  let '(timings, timeOffset) := segmentTimings alignments in
  List.length timings = List.length alignments
  /\ (timeOffset == offset alignments (List.length alignments))%Q
  /\ forall i t, timings !! i = Some t ->
       segmentIndex t = Z.of_nat i
       /\ (startTime t == offset alignments i)%Q
       /\ (endTime t == offset alignments (S i))%Q.
Proof.
  unfold segmentTimings.
  apply (for_range_ind
           (fun k (st : list SegmentTiming * Q) =>
              let '(timings, timeOffset) := st in
              List.length timings = k
              /\ (timeOffset == offset alignments k)%Q
              /\ forall i t, timings !! i = Some t ->
                   segmentIndex t = Z.of_nat i
                   /\ (startTime t == offset alignments i)%Q
                   /\ (endTime t == offset alignments (S i))%Q)).
  - repeat split; try reflexivity; discriminate.
  - intros k [timings timeOffset] Hk (Hlen & Hoff & Hall).
    destruct (lookup_lt_is_Some_2 alignments k Hk) as [a Ha].
    rewrite Ha. cbn [default from_option id].
    pose proof (offset_S _ _ _ Ha) as HS.
    repeat apply conj.
    + rewrite length_app, Hlen. cbn. lia.
    + rewrite HS, Hoff. reflexivity.
    + intros i t Hi.
      destruct (Nat.lt_ge_cases i k) as [Hlt|Hge].
      * rewrite lookup_app_l in Hi by lia. exact (Hall i t Hi).
      * rewrite lookup_app_r in Hi by lia. rewrite Hlen in Hi.
        destruct (i - k)%nat as [|j] eqn:Hj; cbn in Hi; [|discriminate].
        injection Hi as <-. assert (i = k) as -> by lia.
        cbn. repeat split; [exact Hoff|]. rewrite HS, Hoff. reflexivity.
Qed.

(** X27.  The book route's segment timings are contiguous: one entry per
    segment, carrying its index; the first starts at 0, each segment ends
    where the next one starts and lasts as long as its speech, the last one
    ends at the total, and without negative durations the start times never
    decrease. *)
Theorem segment_timings_contiguous (alignments : list (list Q)) :
  let timings := fst (segmentTimings alignments) in
  let total := snd (segmentTimings alignments) in
  List.length timings = List.length alignments
  /\ (forall i t a, timings !! i = Some t -> alignments !! i = Some a ->
        segmentIndex t = Z.of_nat i
        /\ (endTime t == startTime t + segDuration a)%Q)
  /\ (forall t, timings !! 0%nat = Some t -> (startTime t == 0)%Q)
  /\ (forall i t t', timings !! i = Some t -> timings !! S i = Some t' ->
        (startTime t' == endTime t)%Q)
  /\ (forall t, last timings = Some t -> (endTime t == total)%Q)
  /\ (Forall (fun a => (0 <= segDuration a)%Q) alignments ->
      forall i t t', timings !! i = Some t -> timings !! S i = Some t' ->
        (startTime t <= startTime t')%Q).
Proof.
  cbv zeta. pose proof (segmentTimings_spec alignments) as Hspec.
  destruct (segmentTimings alignments) as [timings total].
  destruct Hspec as (Hlen & Htotal & Hall). cbn [fst snd].
  repeat apply conj.
  - exact Hlen.
  - intros i t a Ht Ha. destruct (Hall i t Ht) as (Hi & Hs & He).
    split; [exact Hi|]. rewrite He, Hs. apply (offset_S _ _ _ Ha).
  - intros t Ht. destruct (Hall _ t Ht) as (_ & Hs & _).
    rewrite Hs. reflexivity.
  - intros i t t' Ht Ht'.
    destruct (Hall i t Ht) as (_ & _ & He).
    destruct (Hall (S i) t' Ht') as (_ & Hs & _).
    rewrite Hs, He. reflexivity.
  - intros t Ht. rewrite last_lookup in Ht.
    destruct (Hall _ t Ht) as (_ & _ & He).
    rewrite He, Htotal.
    pose proof (lookup_lt_Some _ _ _ Ht) as Hlt.
    replace (S (Init.Nat.pred (List.length timings)))
      with (List.length alignments) by lia.
    reflexivity.
  - intros Hnn i t t' Ht Ht'.
    destruct (Hall i t Ht) as (_ & Hs & _).
    destruct (Hall (S i) t' Ht') as (_ & Hs' & _).
    rewrite Hs, Hs'. apply offset_mono, Hnn.
Qed.

(** X28.  An effect of the book route is kept exactly when its sound was
    generated and its segment index names a segment; it then carries the
    start time of that segment, the time the segments before it take. *)
Theorem effect_kept_in_range (alignments : list (list Q))
    (segmentIndex : Z) (prompt : string) (audio : option string) :
  let timings := fst (segmentTimings alignments) in
  (is_Some (sfxTask timings segmentIndex prompt audio)
   <-> is_Some audio
       /\ 0 <= segmentIndex < Z.of_nat (List.length alignments))
  /\ (forall item, sfxTask timings segmentIndex prompt audio = Some item ->
        Page.SfxItem.segmentIndex item = segmentIndex
        /\ Page.SfxItem.prompt item = prompt
        /\ Some (Page.SfxItem.audioBase64 item) = audio
        /\ (Page.SfxItem.startTime item
            == offset alignments (Z.to_nat segmentIndex))%Q).
Proof.
  cbv zeta. pose proof (segmentTimings_spec alignments) as Hspec.
  destruct (segmentTimings alignments) as [timings total].
  destruct Hspec as (Hlen & _ & Hall). cbn [fst].
  assert (Hfind : forall t,
            List.find (fun t => bool_decide (BookRoute.segmentIndex t
                                             = segmentIndex)) timings
            = Some t ->
            0 <= segmentIndex < Z.of_nat (List.length alignments)
            /\ (startTime t == offset alignments (Z.to_nat segmentIndex))%Q).
  { intros t Ht. apply find_some in Ht as [Hin Hidx].
    apply bool_decide_eq_true in Hidx.
    apply list_elem_of_In, list_elem_of_lookup_1 in Hin as [i Hi].
    destruct (Hall i t Hi) as (Hi' & Hs & _).
    pose proof (lookup_lt_Some _ _ _ Hi) as Hlt.
    split; [lia|]. rewrite Hs. replace (Z.to_nat segmentIndex) with i by lia.
    reflexivity. }
  unfold sfxTask. split.
  - split.
    + destruct audio as [a|]; cbn; [|intros [? [=]]].
      destruct (List.find _ timings) as [t|] eqn:Ht; cbn; [|intros [? [=]]].
      intros _. split; [eauto|]. exact (proj1 (Hfind t eq_refl)).
    + intros [[a ->] Hrange]. cbn.
      destruct (List.find _ timings) as [t|] eqn:Ht; cbn; [eauto|].
      exfalso.
      destruct (lookup_lt_is_Some_2 timings (Z.to_nat segmentIndex)
                  ltac:(lia)) as [t Hi].
      pose proof (find_none _ _ Ht t) as Hnone. cbn in Hnone.
      rewrite bool_decide_eq_true_2 in Hnone.
      * specialize (Hnone (proj1 (list_elem_of_In _ _)
                             (list_elem_of_lookup_2 _ _ _ Hi))).
        discriminate.
      * destruct (Hall _ t Hi) as (-> & _). lia.
  - intros item. destruct audio as [a|]; cbn; [|discriminate].
    destruct (List.find _ timings) as [t|] eqn:Ht; cbn; [|discriminate].
    intros [= <-]. cbn. repeat split. exact (proj2 (Hfind t eq_refl)).
Qed.

Lemma segment_timings_contiguous_witness :
  List.length (fst (segmentTimings [[0.4; 1.5]; []; [2]]%Q)) = 3%nat.
Proof.
  exact (proj1 (segment_timings_contiguous [[0.4; 1.5]; []; [2]]%Q)).
Defined.

Lemma effect_kept_in_range_witness :
  is_Some (sfxTask (fst (segmentTimings [[0.4; 1.5]; []; [2]]%Q)) 2
             "door slams" (Some "c2hvcnQ=")).
Proof.
  apply (proj1 (effect_kept_in_range [[0.4; 1.5]; []; [2]]%Q 2
                  "door slams" (Some "c2hvcnQ="))).
  split; [eauto | cbn; lia].
Defined.

End BookRouteFacts.

(** ** The earlier scene timeline *)

Module TimelineV1Facts.
Import Script Generate GenerateFacts Timeline TimelineFacts TimelineV1.

Lemma find_first {A : Type} (f : A -> bool) (l : list A) (j : nat) (x : A) :
  l !! j = Some x -> f x = true ->
  (forall i y, (i < j)%nat -> l !! i = Some y -> f y = false) ->
  List.find f l = Some x.
Proof.
  revert j. induction l as [|a l IH]; intros [|j] Hj Hx Hbefore;
    try discriminate; cbn in *.
  - injection Hj as ->. now rewrite Hx.
  - rewrite (Hbefore 0%nat a ltac:(lia) eq_refl).
    apply (IH j Hj Hx). intros i y Hi Hy.
    apply (Hbefore (S i) y); [lia | exact Hy].
Qed.

Section Script.

Variable dialogueLines : list ScriptDialogueLine.
Variable lineDurations : list Q.

Hypothesis numbered :
  forall k l, dialogueLines !! k = Some l -> lineIndex l = Z.of_nat k.
Hypothesis grouped :
  forall j k lj lk, (j <= k)%nat ->
    dialogueLines !! j = Some lj -> dialogueLines !! k = Some lk ->
    sceneIndex lj <= sceneIndex lk.

Local Abbreviation gap := (gapBefore dialogueLines).
Local Abbreviation dur := (durationOf lineDurations).
Local Abbreviation lineStartTimes :=
  (fst (lineSchedule dialogueLines lineDurations)).

Lemma line_start (k : nat) (l : ScriptDialogueLine) :
  dialogueLines !! k = Some l ->
  arr_get lineStartTimes (lineIndex l) = Some (startAt gap dur k).
Proof.
  intros Hk. rewrite (numbered k l Hk), arr_get_nat.
  unfold lineSchedule. apply cadence_lookup, (lookup_lt_Some _ _ _ Hk).
Qed.

(** Every scene gets a number. *)
Lemma sceneStart_some (acc : list Q) (scene : ScriptScene) :
  is_Some (sceneStart dialogueLines lineStartTimes lineDurations acc scene).
Proof.
  unfold sceneStart.
  destruct (firstLine dialogueLines scene) as [l|] eqn:Hfirst.
  - destruct (firstLine_some _ _ _ Hfirst) as (k & Hk & _).
    rewrite (line_start k l Hk). eauto.
  - destruct (prevSceneLastLine dialogueLines scene) as [l|] eqn:Hprev;
      cbn; [|eauto].
    apply find_some in Hprev as [Hin _].
    apply list_elem_of_In in Hin. rewrite elem_of_reverse in Hin.
    apply list_elem_of_lookup_1 in Hin as [k Hk].
    rewrite (line_start k l Hk). cbn. eauto.
Qed.

Lemma pushScenes_lookup (scenes : list ScriptScene) :
  forall acc : list Q,
  exists times,
    pushScenes dialogueLines lineStartTimes lineDurations scenes acc
    = Some times
    /\ List.length times = (List.length acc + List.length scenes)%nat
    /\ forall i scene, scenes !! i = Some scene ->
         exists t before,
           times !! (List.length acc + i)%nat = Some t
           /\ sceneStart dialogueLines lineStartTimes lineDurations
                before scene = Some t.
Proof.
  induction scenes as [|scene rest IH]; intros acc; cbn [pushScenes].
  - exists acc. cbn. repeat split; [lia|]. intros i scene [=].
  - destruct (sceneStart_some acc scene) as [t Ht]. rewrite Ht. cbn.
    destruct (IH (acc ++ [t])) as (times & Hpush & Hlen & Hall).
    rewrite length_app in Hlen, Hall. cbn in Hlen, Hall.
    exists times. repeat apply conj; [exact Hpush | cbn; lia |].
    intros [|i] sc Hsc; cbn in Hsc.
    + injection Hsc as <-. exists t, acc. split; [|exact Ht].
      rewrite Nat.add_0_r.
      assert (Hprefix : exists more, times = (acc ++ [t]) ++ more).
      { clear - Hpush. revert Hpush. generalize (acc ++ [t]).
        induction rest as [|sc rest IH]; intros l; cbn.
        - intros [= <-]. exists []. now rewrite app_nil_r.
        - destruct (sceneStart _ _ _ l sc) as [t'|]; [|discriminate]. cbn.
          intros H. destruct (IH _ H) as [more ->].
          exists ([t'] ++ more). now rewrite <- !app_assoc. }
      destruct Hprefix as [more ->].
      rewrite <- app_assoc. rewrite lookup_app_r by lia.
      now rewrite Nat.sub_diag.
    + destruct (Hall i sc Hsc) as (t' & before & Ht' & Hstart).
      exists t', before. split; [|exact Hstart].
      now replace (List.length acc + S i)%nat
        with (List.length acc + 1 + i)%nat by lia.
Qed.

(** X29.  In the earlier route, for a script with lines numbered by position
    and grouped by scene in order, a scene without dialogue that lies
    between two scenes with dialogue is given a start time one second after
    the start of the scene that follows it: 1.5 s after the last line before
    it ends, where the next scene's first line starts 0.5 s after that
    end. *)
Theorem silent_scene_starts_after_next (scenes : list ScriptScene)
    (i k : nat) (scene next : ScriptScene) (before after : ScriptDialogueLine) :
  scenes !! i = Some scene -> scenes !! S i = Some next ->
  index next = index scene + 1 ->
  dialogueLines !! k = Some before -> dialogueLines !! S k = Some after ->
  sceneIndex before = index scene - 1 ->
  sceneIndex after = index scene + 1 ->
  exists times t t',
    TimelineV1.sceneStartTimes scenes dialogueLines lineDurations = Some times
    /\ List.length times = List.length scenes
    /\ times !! i = Some t /\ times !! S i = Some t'
    /\ (t == startAt gap dur k + dur k + 1.5)%Q
    /\ (t' == startAt gap dur k + dur k + 0.5)%Q
    /\ (t == t' + 1)%Q.
Proof.
  intros Hscene Hnext Hidx Hk HSk Hbefore Hafter.
  unfold TimelineV1.sceneStartTimes.
  destruct (lineSchedule dialogueLines lineDurations)
    as [lst cursor] eqn:Hsched.
  assert (Hlst : lst = lineStartTimes) by now rewrite Hsched.
  rewrite Hlst.
  destruct (pushScenes_lookup scenes []) as (times & Hpush & Hlen & Hall).
  cbn in Hlen, Hall.
  destruct (Hall i scene Hscene) as (t & acc & Ht & Hstart).
  destruct (Hall (S i) next Hnext) as (t' & acc' & Ht' & Hstart').
  exists times, t, t'.
  (* the scene has no line *)
  assert (Hnone : firstLine dialogueLines scene = None).
  { destruct (firstLine dialogueLines scene) as [l|] eqn:Hfirst;
      [|reflexivity].
    destruct (firstLine_some _ _ _ Hfirst) as (j & Hj & Hl).
    destruct (Nat.le_gt_cases j k) as [Hle|Hgt].
    - pose proof (grouped j k l before Hle Hj Hk). lia.
    - pose proof (grouped (S k) j after l ltac:(lia) HSk Hj). lia. }
  (* the last line before it is line [k] *)
  assert (Hprev : prevSceneLastLine dialogueLines scene = Some before).
  { unfold prevSceneLastLine.
    pose proof (lookup_lt_Some _ _ _ HSk) as Hlt.
    apply (find_first _ _ (List.length dialogueLines - S k)).
    - rewrite reverse_lookup by lia.
      now replace (List.length dialogueLines
                   - S (List.length dialogueLines - S k))%nat
        with k by lia.
    - now apply bool_decide_eq_true.
    - intros j l Hj Hl. rewrite reverse_lookup in Hl by lia.
      apply bool_decide_eq_false. intros Hidx'.
      pose proof (grouped (S k) (List.length dialogueLines - S j) after l
                    ltac:(lia) HSk Hl). lia. }
  (* the next scene's first line is line [k + 1] *)
  assert (Hfirst' : firstLine dialogueLines next = Some after).
  { unfold firstLine. apply (find_first _ _ (S k)); [exact HSk | |].
    - apply bool_decide_eq_true. lia.
    - intros j l Hj Hl. apply bool_decide_eq_false. intros Hidx'.
      pose proof (grouped j k l before ltac:(lia) Hl Hk). lia. }
  unfold sceneStart in Hstart, Hstart'.
  rewrite Hnone, Hprev, (line_start k before Hk) in Hstart.
  rewrite Hfirst', (line_start (S k) after HSk) in Hstart'.
  cbn in Hstart. injection Hstart as <-. injection Hstart' as <-.
  assert (Hdur : default 0%Q (arr_get lineDurations (lineIndex before))
                 = dur k).
  { rewrite (numbered k before Hk), arr_get_nat. reflexivity. }
  assert (Hgap : (startAt gap dur (S k)
                  == startAt gap dur k + dur k + 0.5)%Q).
  { rewrite startAt_S. unfold gapBefore at 1.
    cbn [Nat.sub]. rewrite Nat.sub_0_r, Hk, HSk.
    rewrite bool_decide_eq_true_2 by lia.
    unfold GAP_BETWEEN_SCENES. reflexivity. }
  repeat apply conj; try assumption.
  - rewrite Hdur. reflexivity.
  - rewrite Hdur, Hgap. lra.
Qed.

End Script.

Lemma silent_middle_numbered (k : nat) (l : ScriptDialogueLine) :
  silent_middle_lines !! k = Some l -> lineIndex l = Z.of_nat k.
Proof.
  destruct k as [|[|[|k]]]; cbn; intros [= <-]; reflexivity.
Qed.

Lemma silent_middle_grouped (j k : nat) (lj lk : ScriptDialogueLine) :
  (j <= k)%nat ->
  silent_middle_lines !! j = Some lj -> silent_middle_lines !! k = Some lk ->
  sceneIndex lj <= sceneIndex lk.
Proof.
  intros Hjk Hj Hk.
  destruct j as [|[|[|j]]]; cbn in Hj; try discriminate;
    injection Hj as <-;
    destruct k as [|[|[|k]]]; cbn in Hk; try discriminate;
    injection Hk as <-; cbn; lia.
Qed.

Lemma silent_scene_starts_after_next_witness :
  exists times t t',
    TimelineV1.sceneStartTimes silent_middle_scenes silent_middle_lines
      example_durations = Some times
    /\ times !! 1%nat = Some t /\ times !! 2%nat = Some t'
    /\ (t == t' + 1)%Q.
Proof.
  destruct (silent_scene_starts_after_next silent_middle_lines
              example_durations silent_middle_numbered silent_middle_grouped
              silent_middle_scenes 1 1 _ _ _ _
              eq_refl eq_refl eq_refl eq_refl eq_refl eq_refl eq_refl)
    as (times & t & t' & Htimes & _ & Ht & Ht' & _ & _ & Hone).
  exists times, t, t'. repeat split; assumption.
Defined.

End TimelineV1Facts.

(** ** From the route to the page: effects line up with speech *)

Module AlignmentFacts.
Import Script Generate GenerateFacts Timeline TimelineFacts.

(** The cadence depends on the durations only up to equality of numbers. *)
Lemma cadence_ext (gapBefore : nat -> Q -> Q) (d1 d2 : nat -> Q) :
  (forall i c c', (c == c')%Q -> (gapBefore i c == gapBefore i c')%Q) ->
  (forall i, (d1 i == d2 i)%Q) ->
  forall n,
    (snd (cadence n gapBefore d1) == snd (cadence n gapBefore d2))%Q
    /\ (startAt gapBefore d1 n == startAt gapBefore d2 n)%Q.
Proof.
  intros Hgap Hd n.
  assert (Hcur : (snd (cadence n gapBefore d1)
                  == snd (cadence n gapBefore d2))%Q).
  { induction n as [|n IH]; [reflexivity|].
    rewrite !cadence_S. cbn [snd]. rewrite (Hd n).
    unfold startAt. destruct (0 <? n)%nat.
    - rewrite (Hgap n _ _ IH). reflexivity.
    - rewrite IH. reflexivity. }
  split; [exact Hcur|].
  unfold startAt. destruct (0 <? n)%nat; [now apply Hgap | exact Hcur].
Qed.

Lemma sceneGap_ext (dialogueLines : list ScriptDialogueLine) (i : nat)
    (c c' : Q) :
  (c == c')%Q ->
  (gapBefore dialogueLines i c == gapBefore dialogueLines i c')%Q.
Proof.
  intros Hc. unfold gapBefore.
  destruct (dialogueLines !! (i - 1)%nat); [|exact Hc].
  destruct (dialogueLines !! i); [|exact Hc].
  now rewrite Hc.
Qed.

(** X30.  From the route to the page: for a well-formed script whose decoded
    clips last as long as the route measured, the page's speech ends where
    the route's cursor ended, and an effect or music cue that decodes and is
    attached to a scene with dialogue (the scene's index being its
    position) is scheduled in the mix exactly when that scene's first line
    starts. *)
Theorem overlay_starts_with_first_line decodeB64Audio
    (scenes : list ScriptScene) (dialogueLines : list ScriptDialogueLine)
    (lineDurations : list Q) (linesAudio : list string)
    (times : list Q) (cursor : Q)
    (p k : nat) (scene : ScriptScene) (l : ScriptDialogueLine)
    (item : OverlayItem) (buf : AudioBuffer) :
  let lineBuffers := Upload.decodeLines decodeB64Audio linesAudio in
  well_formed scenes dialogueLines lineDurations ->
  (forall i, (Upload.durationOf lineBuffers i
              == durationOf lineDurations i)%Q) ->
  sceneTimeline scenes dialogueLines lineDurations = Some (times, cursor) ->
  scenes !! p = Some scene -> ov_sceneIndex item = Z.of_nat p ->
  firstLine dialogueLines scene = Some l -> dialogueLines !! k = Some l ->
  decodeB64Audio (ov_audioBase64 item) = Some buf ->
  exists t,
    Upload.decodeOverlays decodeB64Audio times [item]
    = [mkDecoded buf t]
    /\ (exists t', fst (Upload.schedule dialogueLines lineBuffers) !! k
                   = Some t' /\ (t == t')%Q)
    /\ (snd (Upload.schedule dialogueLines lineBuffers) == cursor)%Q.
Proof.
  intros lineBuffers Hwf Hdur Htl Hscene Hidx Hfirst Hk Hbuf.
  destruct (rawTimes_some scenes dialogueLines lineDurations Hwf)
    as (raw & Hraw & Hall).
  unfold sceneTimeline in Htl.
  destruct (lineSchedule dialogueLines lineDurations)
    as [lineStartTimes cursor0] eqn:Hsched.
  cbn [fst snd] in *. rewrite Hraw in Htl. cbn in Htl.
  injection Htl as <- <-.
  pose proof (lookup_lt_Some _ _ _ Hk) as Hlt.
  (* the scene's time is the start of line [k] on the route's timeline *)
  assert (Htime : sceneStartTimes raw cursor0 !! p
                  = Some (startAt (gapBefore dialogueLines)
                            (durationOf lineDurations) k)).
  { destruct (Forall2_lookup_l _ _ _ _ _ Hall Hscene) as (r & Hr & Hrt).
    rewrite sceneStartTimes_lookup, Hr. cbn.
    unfold rawTime in Hrt. rewrite Hfirst in Hrt.
    destruct Hwf as (Hline & _).
    rewrite (Hline k l Hk), arr_get_nat in Hrt.
    assert (Hstart : lineStartTimes !! k
                     = Some (startAt (gapBefore dialogueLines)
                               (durationOf lineDurations) k)).
    { replace lineStartTimes
        with (fst (lineSchedule dialogueLines lineDurations))
        by now rewrite Hsched.
      unfold lineSchedule. now apply cadence_lookup. }
    rewrite Hstart in Hrt. cbn in Hrt. now injection Hrt as <-. }
  destruct (cadence_ext (gapBefore dialogueLines)
              (Upload.durationOf lineBuffers) (durationOf lineDurations)
              (sceneGap_ext dialogueLines) Hdur k) as [_ Hsame].
  destruct (cadence_ext (gapBefore dialogueLines)
              (Upload.durationOf lineBuffers) (durationOf lineDurations)
              (sceneGap_ext dialogueLines) Hdur (List.length dialogueLines))
    as [Hcursor _].
  eexists. repeat apply conj.
  - unfold Upload.decodeOverlays. cbn. rewrite Hbuf, Hidx, arr_get_nat, Htime.
    reflexivity.
  - eexists. split.
    + unfold Upload.schedule. now apply cadence_lookup.
    + symmetry. exact Hsame.
  - unfold Upload.schedule. rewrite Hcursor.
    replace cursor0 with (snd (lineSchedule dialogueLines lineDurations))
      by now rewrite Hsched.
    reflexivity.
Qed.

Lemma measured_script_well_formed :
  well_formed example_scenes example_lines [1; 2; 1]%Q.
Proof.
  destruct example_script_well_formed as (Hline & Hlines & Hscenes & _).
  repeat apply conj; [exact Hline | exact Hlines | exact Hscenes |].
  repeat constructor; unfold Qle; cbn; lia.
Qed.

Lemma measured_durations_agree (i : nat) :
  (Upload.durationOf
     (Upload.decodeLines example_decode ["c2hvcnQ="; "bG9uZw=="; "c3RlcmVv"])
     i
   == durationOf [1; 2; 1]%Q i)%Q.
Proof.
  destruct i as [|[|[|i]]]; vm_compute; reflexivity.
Qed.

Lemma overlay_starts_with_first_line_witness :
  exists times cursor t,
    sceneTimeline example_scenes example_lines [1; 2; 1]%Q
    = Some (times, cursor)
    /\ Upload.decodeOverlays example_decode times
         [mkOverlay 1 "door slams" 0 "c2hvcnQ="]
       = [mkDecoded (clip 8000) t]
    /\ (snd (Upload.schedule example_lines
               (Upload.decodeLines example_decode
                  ["c2hvcnQ="; "bG9uZw=="; "c3RlcmVv"]))
        == cursor)%Q.
Proof.
  destruct (sceneTimeline example_scenes example_lines [1; 2; 1]%Q)
    as [[times cursor]|] eqn:Htl.
  - destruct (overlay_starts_with_first_line example_decode
                example_scenes example_lines [1; 2; 1]%Q
                ["c2hvcnQ="; "bG9uZw=="; "c3RlcmVv"] times cursor
                1 2 (mkScene 1 "EXT. CITY STREET" "")
                (mkLine 1 2 "MAYA" None "Then we wait.")
                (mkOverlay 1 "door slams" 0 "c2hvcnQ=") (clip 8000)
                measured_script_well_formed measured_durations_agree Htl
                eq_refl eq_refl eq_refl eq_refl eq_refl)
      as (t & Hdec & _ & Hcur).
    exists times, cursor, t. repeat split; assumption.
  - exfalso. revert Htl. vm_compute. discriminate.
Defined.

End AlignmentFacts.
